(** * xlbrainfuck: the brainfuck environment of [xlbrainfuck.h]

    A shallow embedding of the class template [xl_brainfuck_env<storage_t>]
    (constructor, [ptroutofrange], [reset], [interpret], [translate]) and of
    the set-up path of the two front ends, followed by the properties of the
    design document that can be settled on it.

    Conventions of the embedding.
    - The block returned by [calloc] is a [list Z] of cells; an address is the
      element offset from the start of that block, so [tape] is address [0],
      and [ptr], [minaddr], [maxaddr] are integers that may leave the block.
    - Dereferencing an address outside the block has no defined behaviour in
      C++: the raw accesses [load] and [store] return [None] there, and the
      interpreter reports it as the outcome [Undefined].
    - A fixed-width integer is a [Z] with its wrap-around written out.
    - A C string is the [list ascii] of the characters before its
      terminator; reading at the end of the list gives the terminator. *)

From Stdlib Require Import ZArith List Ascii String Lia Bool.
From Stdlib Require Import DecimalString DecimalPos DecimalZ.
From stdpp Require Import base list.

Import ListNotations.
Local Open Scope Z_scope.
Set Warnings "-register-all".

(** ** Storage types *)

(** The ten types [translate] names in its [std::is_same] chain.  Widths are
    those of the platform the header is written for (it includes <conio.h>):
    8-bit signed [char], 16-bit [short], 32-bit [int] and [long], 64-bit
    [long long]. *)
Inductive storage_t : Type :=
| t_char | t_uchar | t_short | t_ushort | t_int
| t_unsigned | t_long | t_ulong | t_llong | t_ullong.

Definition bits (t : storage_t) : Z :=
  match t with
  | t_char | t_uchar => 8
  | t_short | t_ushort => 16
  | t_int | t_unsigned | t_long | t_ulong => 32
  | t_llong | t_ullong => 64
  end.

Definition is_signed (t : storage_t) : bool :=
  match t with
  | t_char | t_short | t_int | t_long | t_llong => true
  | t_uchar | t_ushort | t_unsigned | t_ulong | t_ullong => false
  end.

(** Two's-complement reduction of [z] to a [w]-bit signed integer. *)
Definition wrap_signed (w z : Z) : Z := (z + 2 ^ (w - 1)) mod 2 ^ w - 2 ^ (w - 1).

(** Reduction of [z] to a [w]-bit unsigned integer. *)
Definition wrap_unsigned (w z : Z) : Z := z mod 2 ^ w.

(** The value an expression of mathematical value [z] has once it is stored
    in a [storage_t]. *)
Definition wrap (t : storage_t) (z : Z) : Z :=
  if is_signed t then wrap_signed (bits t) z else wrap_unsigned (bits t) z.

(** ** The environment *)

(** The four data members of the class.  [tape] holds the contents of the
    allocated block; the pointer members are offsets into it. *)
Record xl_brainfuck_env : Type := mk_env {
  tape : list Z;
  ptr : Z;
  minaddr : Z;
  maxaddr : Z
}.

(** [xl_brainfuck_env(size_t tapesize)]: a zero-initialised block,
    [ptr = minaddr = tape], [maxaddr = tape + tapesize - 1].  The parameter
    is a [size_t], hence an [N]; there is no check and no failure path. *)
Definition xl_brainfuck_env_ctor (tapesize : N) : xl_brainfuck_env :=
  {| tape := replicate (N.to_nat tapesize) 0;
     ptr := 0;
     minaddr := 0;
     maxaddr := 0 + Z.of_N tapesize - 1 |}.

(** [ptroutofrange()]. *)
Definition ptroutofrange (e : xl_brainfuck_env) : bool :=
  (ptr e <? minaddr e) || (ptr e >? maxaddr e).

(** [*a] as an rvalue: defined only inside the block. *)
Definition load (cells : list Z) (a : Z) : option Z :=
  if a <? 0 then None else cells !! Z.to_nat a.

(** [*a = v]: defined only inside the block. *)
Definition store (cells : list Z) (a : Z) (v : Z) : option (list Z) :=
  if (0 <=? a) && (a <? Z.of_nat (length cells))
  then Some (<[Z.to_nat a := v]> cells)
  else None.

(** The [for] loop of [reset()]: [n] is the number of iterations left,
    [maxaddr - resetptr + 1]. *)
Fixpoint reset_loop (n : nat) (resetptr : Z) (cells : list Z) : option (list Z) :=
  match n with
  | O => Some cells
  | S k =>
      match store cells resetptr 0 with
      | Some cells' => reset_loop k (resetptr + 1) cells'
      | None => None
      end
  end.

(** [reset()]; [None] when the loop writes outside the block. *)
Definition reset (e : xl_brainfuck_env) : option xl_brainfuck_env :=
  match reset_loop (Z.to_nat (maxaddr e - minaddr e + 1)) (minaddr e) (tape e) with
  | Some cells =>
      Some {| tape := cells; ptr := minaddr e;
              minaddr := minaddr e; maxaddr := maxaddr e |}
  | None => None
  end.

(** The class invariant the constructor establishes: [minaddr] is the start
    of the block and [maxaddr] its last cell. *)
Definition env_ok (e : xl_brainfuck_env) : Prop :=
  minaddr e = 0 /\ maxaddr e = Z.of_nat (length (tape e)) - 1.

(** ** Set-up of the front ends *)

(** What set-up ends in: the process exits with a code, or the environment
    exists. *)
Inductive setup_result : Type :=
| SetupFailed (exit_code : Z)
| SetupDone (e : xl_brainfuck_env).

(** A bare construction, [xl_brainfuck_env<storage_t> bfe(tapesize);]. *)
Definition construct (tapesize : N) : setup_result :=
  SetupDone (xl_brainfuck_env_ctor tapesize).

(** [main] of xlbftranslator.cpp up to the declaration of [bfe]: [argc] and
    the [long] that [strtol] returned for [argv[1]]. *)
Definition xlbftranslator_setup (argc memsize : Z) : setup_result :=
  if negb (argc =? 4) then SetupFailed 1
  else if memsize <=? 0 then SetupFailed 1
  else construct (Z.to_N memsize).

Definition INTERPRETER_BUFFER_SIZE : N := 1024.

(** [main] of xlbfconsole.cpp up to the declaration of [bfe]. *)
Definition xlbfconsole_setup : setup_result := construct INTERPRETER_BUFFER_SIZE.

(** ** Characters and C strings *)

Definition NUL : ascii := "000"%char.

(** [code[p]]: the character at offset [p], the terminator at the end. *)
Definition deref (code : list ascii) (p : Z) : ascii :=
  if p <? 0 then NUL else default NUL (code !! Z.to_nat p).

(** ** Standard output and keyboard *)

(** The process's console: what [printf] has written so far, and the keys
    [_getch] will return, [consumed] of which have been read. *)
Record console : Type := mk_console {
  stdout : string;
  keys : nat -> Z;
  consumed : nat
}.

Definition printf (text : string) (c : console) : console :=
  {| stdout := String.append (stdout c) text; keys := keys c; consumed := consumed c |}.

(** [_getch()]: the next key, as an [int]. *)
Definition _getch (c : console) : Z * console :=
  (keys c (consumed c),
   {| stdout := stdout c; keys := keys c; consumed := S (consumed c) |}).

(** What ["%d"] prints for an integer argument of value [z]: [printf] reads
    an [int], so the decimal digits of the low 32 bits taken as signed. *)
Definition format_d (z : Z) : string :=
  NilZero.string_of_int (Z.to_int (wrap_signed 32 z)).

(** What ["%c"] prints: the argument converted to [unsigned char]. *)
Definition format_c (z : Z) : string :=
  String (ascii_of_N (Z.to_N (z mod 256))) EmptyString.

(** ** The interpreter *)

Inductive intent : Type := ReadIntent | WriteIntent.

(** The two error kinds of [interpret]; [SyntaxError c] misses the bracket
    [c]. *)
Inductive error : Type :=
| AccessViolation (i : intent)
| SyntaxError (missing : ascii).

(** The text [interpret] prints before it returns 1. *)
Definition diagnostic (err : error) : string :=
  match err with
  | AccessViolation WriteIntent =>
      "Access violation: attempt to write to an out-of-range address."
  | AccessViolation ReadIntent =>
      "Access violation: attempt to read from an out-of-range address."
  | SyntaxError missing =>
      String.append "Syntax error: unenclosed loop detected. Missing '"
        (String missing "'.")
  end.

(** How a call ends: [return 0], [return 1] after a diagnostic, or an access
    outside the block. *)
Inductive outcome : Type :=
| Success
| Failure (err : error)
| Undefined.

(** The [int] returned to the caller. *)
Definition status (o : outcome) : option Z :=
  match o with
  | Success => Some 0
  | Failure _ => Some 1
  | Undefined => None
  end.

(** The state of a running [interpret]: the offset of [codeptr] in [code],
    the object's members, and the console. *)
Record istate : Type := mk_istate {
  codeptr : Z;
  env : xl_brainfuck_env;
  con : console
}.

Inductive step_result : Type :=
| Next (s : istate)
| Stop (o : outcome) (s : istate).

(** [printf(diagnostic); return 1;] *)
Definition raise (err : error) (s : istate) : step_result :=
  Stop (Failure err)
    {| codeptr := codeptr s; env := env s; con := printf (diagnostic err) (con s) |}.

Definition set_ptr (e : xl_brainfuck_env) (p : Z) : xl_brainfuck_env :=
  {| tape := tape e; ptr := p; minaddr := minaddr e; maxaddr := maxaddr e |}.

Definition set_tape (e : xl_brainfuck_env) (cells : list Z) : xl_brainfuck_env :=
  {| tape := cells; ptr := ptr e; minaddr := minaddr e; maxaddr := maxaddr e |}.

(** [*this->ptr = v; codeptr++;], the write being a raw one. *)
Definition write_cell_and_advance (s : istate) (v : Z) (c : console) : step_result :=
  match store (tape (env s)) (ptr (env s)) v with
  | Some cells =>
      Next {| codeptr := codeptr s + 1; env := set_tape (env s) cells; con := c |}
  | None => Stop Undefined s
  end.

(** The search loop of the ['['] case.  [rest] is the string from
    [codesearchptr] on, [count] is [unsolvedloopcount] (an [unsigned]); the
    result is the final [codesearchptr] when [hasloopmatch] is set. *)
Fixpoint search_forward (rest : list ascii) (codesearchptr count : Z) : option Z :=
  match rest with
  | [] => None
  | c :: rest' =>
      if (c =? NUL)%char then None
      else if (c =? "[")%char
      then search_forward rest' (codesearchptr + 1) (wrap_unsigned 32 (count + 1))
      else if (c =? "]")%char
      then let count' := wrap_unsigned 32 (count - 1) in
           if count' =? 0 then Some codesearchptr
           else search_forward rest' (codesearchptr + 1) count'
      else search_forward rest' (codesearchptr + 1) count
  end.

(** The search loop of the [']'] case.  [before] holds the characters from
    [codesearchptr] down to [code], nearest first, so it is empty exactly
    when [codesearchptr >= code] fails. *)
Fixpoint search_backward (before : list ascii) (codesearchptr count : Z) : option Z :=
  match before with
  | [] => None
  | c :: before' =>
      if (c =? "]")%char
      then search_backward before' (codesearchptr - 1) (wrap_unsigned 32 (count + 1))
      else if (c =? "[")%char
      then let count' := wrap_unsigned 32 (count - 1) in
           if count' =? 0 then Some codesearchptr
           else search_backward before' (codesearchptr - 1) count'
      else search_backward before' (codesearchptr - 1) count
  end.

(** One pass through the body of the [while] loop of [interpret]: the
    [switch] on [*codeptr]. *)
Definition step (t : storage_t) (code : list ascii) (s : istate) : step_result :=
  let c := deref code (codeptr s) in
  let e := env s in
  if (c =? ">")%char then
    Next {| codeptr := codeptr s + 1; env := set_ptr e (ptr e + 1); con := con s |}
  else if (c =? "<")%char then
    Next {| codeptr := codeptr s + 1; env := set_ptr e (ptr e - 1); con := con s |}
  else if (c =? "+")%char then
    if ptroutofrange e then raise (AccessViolation WriteIntent) s
    else match load (tape e) (ptr e) with
         | Some v => write_cell_and_advance s (wrap t (v + 1)) (con s)
         | None => Stop Undefined s
         end
  else if (c =? "-")%char then
    if ptroutofrange e then raise (AccessViolation WriteIntent) s
    else match load (tape e) (ptr e) with
         | Some v => write_cell_and_advance s (wrap t (v - 1)) (con s)
         | None => Stop Undefined s
         end
  else if (c =? ".")%char then
    if ptroutofrange e then raise (AccessViolation ReadIntent) s
    else match load (tape e) (ptr e) with
         | Some v =>
             Next {| codeptr := codeptr s + 1; env := e;
                     con := printf (format_c v) (con s) |}
         | None => Stop Undefined s
         end
  else if (c =? ":")%char then
    if ptroutofrange e then raise (AccessViolation ReadIntent) s
    else match load (tape e) (ptr e) with
         | Some v =>
             Next {| codeptr := codeptr s + 1; env := e;
                     con := printf (format_d v) (con s) |}
         | None => Stop Undefined s
         end
  else if (c =? ",")%char then
    if ptroutofrange e then raise (AccessViolation WriteIntent) s
    else let '(k, con') := _getch (con s) in
         write_cell_and_advance s (wrap t k) con'
  else if (c =? "[")%char then
    if ptroutofrange e then raise (AccessViolation ReadIntent) s
    else match search_forward (drop (Z.to_nat (codeptr s + 1)) code) (codeptr s + 1) 1 with
         | Some codesearchptr =>
             match load (tape e) (ptr e) with
             | Some v =>
                 if v =? 0
                 then Next {| codeptr := codesearchptr + 1; env := e; con := con s |}
                 else Next {| codeptr := codeptr s + 1; env := e; con := con s |}
             | None => Stop Undefined s
             end
         | None => raise (SyntaxError "]") s
         end
  else if (c =? "]")%char then
    match search_backward (rev (take (Z.to_nat (codeptr s)) code)) (codeptr s - 1) 1 with
    | Some codesearchptr =>
        Next {| codeptr := codesearchptr; env := e; con := con s |}
    | None => raise (SyntaxError "[") s
    end
  else
    Next {| codeptr := codeptr s + 1; env := e; con := con s |}.

(** How a bounded run of the loop ends. *)
Inductive run : Type :=
| Halted (o : outcome) (s : istate)
| OutOfFuel (s : istate).

(** The [while] loop of [interpret], whose condition is that [codeptr] is
    not at the terminator; at most [fuel] passes. *)
Fixpoint interpret_loop (t : storage_t) (code : list ascii) (fuel : nat) (s : istate) : run :=
  if (deref code (codeptr s) =? NUL)%char then Halted Success s
  else match fuel with
       | O => OutOfFuel s
       | S fuel' =>
           match step t code s with
           | Next s' => interpret_loop t code fuel' s'
           | Stop o s' => Halted o s'
           end
       end.

(** [interpret(code)] on the object [e] with the console [c]. *)
Definition interpret (t : storage_t) (code : list ascii) (fuel : nat)
    (e : xl_brainfuck_env) (c : console) : run :=
  interpret_loop t code fuel {| codeptr := 0; env := e; con := c |}.

(** The state after [n] passes none of which returned, if there is one. *)
Fixpoint passes (t : storage_t) (code : list ascii) (n : nat) (s : istate) : option istate :=
  match n with
  | O => Some s
  | S n' =>
      if (deref code (codeptr s) =? NUL)%char then None
      else match step t code s with
           | Next s' => passes t code n' s'
           | Stop _ _ => None
           end
  end.

(** ** The Loop Matcher of the design document *)

(** Section 4.2, forward search, as worded: scan forward from just after
    [open_index] with a depth counter starting at 1; each ['['] increments
    it, each [']'] decrements it; the index where it reaches 0 is the
    match; the end of the stream before that is a syntax error ([None]).
    [suffix] is the stream from [index] on. *)
Fixpoint forward_depth_scan (suffix : list ascii) (index depth : nat) : option nat :=
  match suffix with
  | [] => None
  | c :: suffix' =>
      if (c =? "[")%char then forward_depth_scan suffix' (S index) (S depth)
      else if (c =? "]")%char then
        match depth with
        | 0%nat | 1%nat => Some index
        | S depth' => forward_depth_scan suffix' (S index) depth'
        end
      else forward_depth_scan suffix' (S index) depth
  end.

Definition find_forward_match (stream : list ascii) (open_index : nat) : option nat :=
  forward_depth_scan (drop (S open_index) stream) (S open_index) 1.

(** Section 4.2, backward search, as worded: scan backward from just before
    [close_index], depth starting at 1; each [']'] increments, each ['[']
    decrements; the start of the stream before depth 0 is a syntax error.
    [index] is the number of characters still to the left, [prefix_rev] holds
    them nearest first. *)
Fixpoint backward_depth_scan (prefix_rev : list ascii) (index depth : nat) : option nat :=
  match prefix_rev with
  | [] => None
  | c :: prefix_rev' =>
      if (c =? "]")%char then backward_depth_scan prefix_rev' (pred index) (S depth)
      else if (c =? "[")%char then
        match depth with
        | 0%nat | 1%nat => Some (pred index)
        | S depth' => backward_depth_scan prefix_rev' (pred index) depth'
        end
      else backward_depth_scan prefix_rev' (pred index) depth
  end.

Definition find_backward_match (stream : list ascii) (close_index : nat) : option nat :=
  backward_depth_scan (rev (take close_index stream)) close_index 1.

(** ** The translator *)

Definition TAB : string := String "009"%char EmptyString.
Definition LF : string := String "010"%char EmptyString.
Definition DQUOTE : string := String "034"%char EmptyString.

(** [DECLTYPE_STR], as the [std::is_same] chain selects it. *)
Definition DECLTYPE_STR (t : storage_t) : string :=
  match t with
  | t_char => "char"
  | t_uchar => "unsigned char"
  | t_short => "short"
  | t_ushort => "unsigned short"
  | t_int => "int"
  | t_unsigned => "unsigned"
  | t_long => "long"
  | t_ulong => "unsigned long"
  | t_llong => "long long"
  | t_ullong => "unsigned long long"
  end.

(** The locals of a running [translate]: the offset of [bfptr] in [bfcode],
    the text written to [ccode] so far ([cptr] is its end), and
    [indentlevel], an [int]. *)
Record tstate : Type := mk_tstate {
  bfptr : Z;
  ccode : string;
  indentlevel : Z
}.

(** [sprintf(cptr, text); gotoend(&cptr);] for a [text] already formatted. *)
Definition emit (text : string) (ts : tstate) : tstate :=
  {| bfptr := bfptr ts; ccode := String.append (ccode ts) text;
     indentlevel := indentlevel ts |}.

Fixpoint tabs (n : nat) : string :=
  match n with
  | O => EmptyString
  | S n' => String.append TAB (tabs n')
  end.

(** [for (int i = 0; i < indentlevel; i++) { sprintf(cptr, "\t"); gotoend(&cptr); }] *)
Definition emit_indent (ts : tstate) : tstate :=
  emit (tabs (Z.to_nat (indentlevel ts))) ts.

Definition set_indentlevel (ts : tstate) (n : Z) : tstate :=
  {| bfptr := bfptr ts; ccode := ccode ts; indentlevel := wrap_signed 32 n |}.

Definition set_bfptr (ts : tstate) (p : Z) : tstate :=
  {| bfptr := p; ccode := ccode ts; indentlevel := indentlevel ts |}.

(** The collating loop of the ['>']/['<'] case and of the ['+']/['-'] case,
    which differ only in the two characters: [rest] is the string from
    [bfsearchptr] on, [total] is [totaloffset] or [totalchange], a
    [storage_t].  Returns the final [bfsearchptr] and total. *)
Fixpoint collate (t : storage_t) (up down : ascii) (rest : list ascii)
    (bfsearchptr total : Z) : Z * Z :=
  match rest with
  | [] => (bfsearchptr, total)
  | c :: rest' =>
      if (c =? up)%char
      then collate t up down rest' (bfsearchptr + 1) (wrap t (total + 1))
      else if (c =? down)%char
      then collate t up down rest' (bfsearchptr + 1) (wrap t (total - 1))
      else (bfsearchptr, total)
  end.

(** The statement emitted for a collated total: [target] is ["i"] or
    ["tape[i]"], [ending] what follows the semicolon.  The argument of
    ["%d"] is [total], respectively [-total] in the promoted type. *)
Definition emit_adjust (target ending : string) (total : Z) (ts : tstate) : tstate :=
  if total >? 0 then
    if total =? 1
    then emit (String.append target (String.append "++;" ending)) ts
    else emit (String.append target
                 (String.append " += " (String.append (format_d total)
                    (String.append ";" ending)))) ts
  else if total <? 0 then
    if total =? -1
    then emit (String.append target (String.append "--;" ending)) ts
    else emit (String.append target
                 (String.append " -= " (String.append (format_d (- total))
                    (String.append ";" ending)))) ts
  else ts.

(** The text the ['.'] case copies with [strcpy]. *)
Definition putchar_text : string :=
  String.append "printf("
    (String.append DQUOTE
       (String.append "%%c"
          (String.append DQUOTE (String.append ", tape[i]);" LF)))).

(** One pass through the body of the [while] loop of [translate]. *)
Definition translate_step (t : storage_t) (bfcode : list ascii) (ts : tstate) : tstate :=
  let c := deref bfcode (bfptr ts) in
  if (c =? ">")%char || (c =? "<")%char then
    let '(bfsearchptr, totaloffset) :=
      collate t ">" "<" (drop (Z.to_nat (bfptr ts)) bfcode) (bfptr ts) 0 in
    let ts1 := emit_adjust "i" "" totaloffset (emit_indent ts) in
    let next := deref bfcode bfsearchptr in
    let ts2 := if (next =? "+")%char || (next =? "-")%char
               then emit " " ts1 else emit LF ts1 in
    set_bfptr ts2 bfsearchptr
  else if (c =? "+")%char || (c =? "-")%char then
    let '(bfsearchptr, totalchange) :=
      collate t "+" "-" (drop (Z.to_nat (bfptr ts)) bfcode) (bfptr ts) 0 in
    let before := deref bfcode (bfptr ts - 1) in
    let ts1 := if (bfptr ts =? 0)
                  || (negb (before =? ">")%char && negb (before =? "<")%char)
               then emit_indent ts else ts in
    let ts2 := emit_adjust "tape[i]" LF totalchange ts1 in
    set_bfptr ts2 bfsearchptr
  else if (c =? ".")%char then
    set_bfptr (emit putchar_text (emit_indent ts)) (bfptr ts + 1)
  else if (c =? ",")%char then
    set_bfptr (emit (String.append "tape[i] = _getch();" LF) (emit_indent ts))
      (bfptr ts + 1)
  else if (c =? "[")%char then
    let ts1 := emit (String.append "while (tape[i] != 0) {" LF) (emit_indent ts) in
    set_bfptr (set_indentlevel ts1 (indentlevel ts1 + 1)) (bfptr ts + 1)
  else if (c =? "]")%char then
    let ts1 := set_indentlevel ts (indentlevel ts - 1) in
    set_bfptr (emit (String.append "}" LF) (emit_indent ts1)) (bfptr ts + 1)
  else
    set_bfptr ts (bfptr ts + 1).

(** The [while] loop of [translate], whose condition is that [bfptr] is not
    at the terminator; at most [fuel] passes. *)
Fixpoint translate_loop (t : storage_t) (bfcode : list ascii) (fuel : nat)
    (ts : tstate) : option tstate :=
  if (deref bfcode (bfptr ts) =? NUL)%char then Some ts
  else match fuel with
       | O => None
       | S fuel' => translate_loop t bfcode fuel' (translate_step t bfcode ts)
       end.

(** Everything [translate] writes before the loop; the count printed with
    ["%d"] is [maxaddr - minaddr + 1]. *)
Definition prologue (t : storage_t) (this : xl_brainfuck_env) : tstate :=
  let ts := {| bfptr := 0; ccode := EmptyString; indentlevel := 0 |} in
  let ts := emit (String.append "#include <stdio.h>" LF) ts in
  let ts := emit (String.append "#include <stdlib.h>" LF) ts in
  let ts := emit (String.append "#include <stddef.h>" LF) ts in
  let ts := emit (String.append "#include "
                    (String.append DQUOTE
                       (String.append "conio.h" (String.append DQUOTE LF)))) ts in
  let ts := emit LF ts in
  let ts := emit (String.append "int main() {" LF) (emit_indent ts) in
  let ts := set_indentlevel ts (indentlevel ts + 1) in
  let ts := emit LF (emit_indent ts) in
  let ts :=
    emit (String.append (DECLTYPE_STR t)
            (String.append " *tape = ("
               (String.append (DECLTYPE_STR t)
                  (String.append " *)calloc("
                     (String.append (format_d (maxaddr this - minaddr this + 1))
                        (String.append ", sizeof("
                           (String.append (DECLTYPE_STR t)
                              (String.append "));" LF))))))))
      (emit_indent ts) in
  let ts := emit (String.append "ptrdiff_t i = 0;" LF) (emit_indent ts) in
  emit LF ts.

(** Everything [translate] writes after the loop, ending with the last
    [indentlevel--]. *)
Definition epilogue (ts : tstate) : tstate :=
  let ts := emit LF (emit_indent ts) in
  let ts := emit (String.append "free(tape);" LF) (emit_indent ts) in
  let ts := emit (String.append "_getch();" LF) (emit_indent ts) in
  let ts := emit LF (emit_indent ts) in
  let ts := emit (String.append "return 0;" LF) (emit_indent ts) in
  let ts := emit LF (emit_indent ts) in
  let ts := set_indentlevel ts (indentlevel ts - 1) in
  emit (String.append "}" LF) (emit_indent ts).

(** What a call of [translate] leaves behind: the text in [ccode], the
    returned [int], and the object it was called on. *)
Record translation : Type := mk_translation {
  text : string;
  result : Z;
  this_after : xl_brainfuck_env
}.

(** The locals when the loop of [translate] exits.  The loop is given one
    pass per character of [bfcode]. *)
Definition translate_body (t : storage_t) (this : xl_brainfuck_env)
    (bfcode : list ascii) : option tstate :=
  translate_loop t bfcode (length bfcode) (prologue t this).

(** [translate(bfcode, ccode)] called on the object [this]. *)
Definition translate (t : storage_t) (this : xl_brainfuck_env)
    (bfcode : list ascii) : option translation :=
  match translate_body t this bfcode with
  | Some ts =>
      let ts' := epilogue ts in
      Some {| text := ccode ts';
              result := if indentlevel ts' =? 0 then 0 else 1;
              this_after := this |}
  | None => None
  end.

(** ** Running the emitted program *)

(** The text [translate] emits is a C program made of a handful of statement
    forms.  This section reads such a text back and runs it with the meaning
    C gives those statements, on a console of the same kind as the
    interpreter's. *)

Inductive cstmt : Type :=
| CIndex (d : Z)                 (* i++;  i--;  i += d;  i -= d; *)
| CCell (d : Z)                  (* tape[i]++;  tape[i] += d;  ... *)
| CPrintf (format : list ascii)  (* printf("format", tape[i]); *)
| CRead                          (* tape[i] = _getch(); *)
| CWhile (body : list cstmt)     (* while (tape[i] != 0) { body } *)
| CFree                          (* free(tape); *)
| CWait                          (* _getch(); *)
| CReturn.                       (* return 0; *)

Definition lit (s : string) : list ascii := list_ascii_of_string s.

Definition is_blank (c : ascii) : bool :=
  (c =? " ")%char || (c =? "009")%char || (c =? "010")%char.

Fixpoint skip_blank (s : list ascii) : list ascii :=
  match s with
  | c :: s' => if is_blank c then skip_blank s' else s
  | [] => []
  end.

(** [s] without its prefix [p], when it has that prefix. *)
Fixpoint strip_prefix (p s : list ascii) : option (list ascii) :=
  match p, s with
  | [], _ => Some s
  | a :: p', b :: s' => if (a =? b)%char then strip_prefix p' s' else None
  | _ :: _, [] => None
  end.

(** [s] split at the first occurrence of [stop], which is dropped. *)
Fixpoint split_at (stop : ascii) (s : list ascii) : option (list ascii * list ascii) :=
  match s with
  | [] => None
  | c :: s' =>
      if (c =? stop)%char then Some ([], s')
      else match split_at stop s' with
           | Some (before, after) => Some (c :: before, after)
           | None => None
           end
  end.

(** A decimal constant, with an optional sign. *)
Definition read_int (digits : list ascii) : option Z :=
  match NilZero.int_of_string (string_of_list_ascii digits) with
  | Some d => Some (Z.of_int d)
  | None => None
  end.

(** [target++;], [target--;], [target += d;] or [target -= d;] at the start
    of [s]: the amount added and the rest of the text. *)
Definition read_adjust (target : string) (s : list ascii) : option (Z * list ascii) :=
  match strip_prefix (lit target) s with
  | None => None
  | Some s1 =>
      match strip_prefix (lit "++;") s1, strip_prefix (lit "--;") s1 with
      | Some r, _ => Some (1, r)
      | None, Some r => Some (-1, r)
      | None, None =>
          match strip_prefix (lit " += ") s1, strip_prefix (lit " -= ") s1 with
          | Some s2, _ =>
              match split_at ";" s2 with
              | Some (digits, r) =>
                  match read_int digits with Some d => Some (d, r) | None => None end
              | None => None
              end
          | None, Some s2 =>
              match split_at ";" s2 with
              | Some (digits, r) =>
                  match read_int digits with Some d => Some (- d, r) | None => None end
              | None => None
              end
          | None, None => None
          end
      end
  end.

(** One statement other than a loop at the start of [s]. *)
Definition read_simple (s : list ascii) : option (cstmt * list ascii) :=
  match strip_prefix (lit "tape[i] = _getch();") s with
  | Some r => Some (CRead, r)
  | None =>
  match strip_prefix (lit "free(tape);") s with
  | Some r => Some (CFree, r)
  | None =>
  match strip_prefix (lit "_getch();") s with
  | Some r => Some (CWait, r)
  | None =>
  match strip_prefix (lit "return 0;") s with
  | Some r => Some (CReturn, r)
  | None =>
  match strip_prefix ("p" :: "r" :: "i" :: "n" :: "t" :: "f" :: "(" :: "034" :: [])%char s with
  | Some s1 =>
      match split_at "034" s1 with
      | Some (format, s2) =>
          match strip_prefix (lit ", tape[i]);") s2 with
          | Some r => Some (CPrintf format, r)
          | None => None
          end
      | None => None
      end
  | None =>
  match read_adjust "tape[i]" s with
  | Some (d, r) => Some (CCell d, r)
  | None =>
  match read_adjust "i" s with
  | Some (d, r) => Some (CIndex d, r)
  | None => None
  end end end end end end end.

(** The statements at the start of [s], up to a closing brace or the end of
    the text; [fuel] bounds the number of statements read. *)
Fixpoint read_block (fuel : nat) (s : list ascii) : option (list cstmt * list ascii) :=
  match fuel with
  | O => None
  | S fuel' =>
      match skip_blank s with
      | [] => Some ([], [])
      | c :: s' =>
          if (c =? "}")%char then Some ([], c :: s')
          else
            match strip_prefix (lit "while (tape[i] != 0) {") (c :: s') with
            | Some s1 =>
                match read_block fuel' s1 with
                | Some (body, s2) =>
                    match strip_prefix (lit "}") s2 with
                    | Some s3 =>
                        match read_block fuel' s3 with
                        | Some (more, rest) => Some (CWhile body :: more, rest)
                        | None => None
                        end
                    | None => None
                    end
                | None => None
                end
            | None =>
                match read_simple (c :: s') with
                | Some (st, s1) =>
                    match read_block fuel' s1 with
                    | Some (more, rest) => Some (st :: more, rest)
                    | None => None
                    end
                | None => None
                end
            end
      end
  end.

(** The lines that start with [#], dropped. *)
Fixpoint skip_directives (fuel : nat) (s : list ascii) : list ascii :=
  match fuel with
  | O => s
  | S fuel' =>
      match skip_blank s with
      | c :: s' =>
          if (c =? "#")%char
          then match split_at "010" s' with
               | Some (_, r) => skip_directives fuel' r
               | None => []
               end
          else c :: s'
      | [] => []
      end
  end.

Definition all_storage_t : list storage_t :=
  [t_char; t_uchar; t_short; t_ushort; t_int; t_unsigned; t_long; t_ulong;
   t_llong; t_ullong].

(** The declaration of [tape], a pointer to [T] initialised with the result
    of [calloc(n, sizeof(T))], for the first [T] of [candidates] that fits:
    [T], [n] and the rest of the text. *)
Fixpoint read_allocation (candidates : list storage_t) (s : list ascii)
    : option (storage_t * Z * list ascii) :=
  match candidates with
  | [] => None
  | t :: candidates' =>
      let name := DECLTYPE_STR t in
      match strip_prefix
              (lit (String.append name
                      (String.append " *tape = ("
                         (String.append name " *)calloc(")))) s with
      | Some s1 =>
          match split_at "," s1 with
          | Some (digits, s2) =>
              match read_int digits,
                    strip_prefix
                      (lit (String.append " sizeof(" (String.append name "));"))) s2 with
              | Some n, Some r => Some (t, n, r)
              | _, _ => read_allocation candidates' s
              end
          | None => read_allocation candidates' s
          end
      | None => read_allocation candidates' s
      end
  end.

(** A whole emitted program: the cell type and the number of cells of its
    tape, and the statements of [main]. *)
Record cprogram : Type := mk_cprogram {
  cell_type : storage_t;
  cells : Z;
  body : list cstmt
}.

Definition read_program (source : string) : option cprogram :=
  let s := list_ascii_of_string source in
  let fuel := S (length s) in
  match strip_prefix (lit "int main() {") (skip_directives fuel s) with
  | None => None
  | Some s1 =>
      match read_allocation all_storage_t (skip_blank s1) with
      | None => None
      | Some (t, n, s2) =>
          match strip_prefix (lit "ptrdiff_t i = 0;") (skip_blank s2) with
          | None => None
          | Some s3 =>
              match read_block fuel s3 with
              | Some (stmts, s4) =>
                  match strip_prefix (lit "}") s4 with
                  | Some s5 =>
                      match skip_blank s5 with
                      | [] => Some {| cell_type := t; cells := n; body := stmts |}
                      | _ :: _ => None
                      end
                  | None => None
                  end
              | None => None
              end
          end
      end
  end.

(** What [printf] writes for a format with the one argument [arg]: [%%] is a
    percent sign, [%c] and [%d] convert the argument, any other character
    is copied. *)
Fixpoint c_printf (format : list ascii) (arg : Z) : string :=
  match format with
  | [] => EmptyString
  | c :: rest =>
      if (c =? "%")%char then
        match rest with
        | d :: rest' =>
            if (d =? "%")%char then String "%" (c_printf rest' arg)
            else if (d =? "c")%char then String.append (format_c arg) (c_printf rest' arg)
            else if (d =? "d")%char then String.append (format_d arg) (c_printf rest' arg)
            else String c (String d (c_printf rest' arg))
        | [] => String c EmptyString
        end
      else String c (c_printf rest arg)
  end.

(** The variables of the running program and its console. *)
Record cstate : Type := mk_cstate {
  c_tape : list Z;
  c_i : Z;
  c_con : console
}.

Inductive cresult : Type :=
| CNormal (s : cstate)      (* fell off the end of the statements *)
| CReturned (s : cstate)    (* executed [return 0;] *)
| CUndefined                (* accessed [tape[i]] outside the block *)
| CTimeout.                 (* ran out of fuel *)

(** The statements [stmts] run from [s]; [fuel] bounds the number of
    statements and loop tests executed. *)
Fixpoint c_exec (t : storage_t) (fuel : nat) (stmts : list cstmt) (s : cstate) : cresult :=
  match fuel with
  | O => CTimeout
  | S fuel' =>
      match stmts with
      | [] => CNormal s
      | CIndex d :: more =>
          c_exec t fuel' more {| c_tape := c_tape s; c_i := c_i s + d; c_con := c_con s |}
      | CCell d :: more =>
          match load (c_tape s) (c_i s) with
          | Some v =>
              match store (c_tape s) (c_i s) (wrap t (v + d)) with
              | Some cells' =>
                  c_exec t fuel' more {| c_tape := cells'; c_i := c_i s; c_con := c_con s |}
              | None => CUndefined
              end
          | None => CUndefined
          end
      | CPrintf format :: more =>
          match load (c_tape s) (c_i s) with
          | Some v =>
              c_exec t fuel' more
                {| c_tape := c_tape s; c_i := c_i s;
                   c_con := printf (c_printf format v) (c_con s) |}
          | None => CUndefined
          end
      | CRead :: more =>
          let '(k, con') := _getch (c_con s) in
          match store (c_tape s) (c_i s) (wrap t k) with
          | Some cells' =>
              c_exec t fuel' more {| c_tape := cells'; c_i := c_i s; c_con := con' |}
          | None => CUndefined
          end
      | CWhile loop_body :: more =>
          match load (c_tape s) (c_i s) with
          | Some v =>
              if v =? 0 then c_exec t fuel' more s
              else match c_exec t fuel' loop_body s with
                   | CNormal s' => c_exec t fuel' (CWhile loop_body :: more) s'
                   | other => other
                   end
          | None => CUndefined
          end
      | CFree :: more => c_exec t fuel' more s
      | CWait :: more =>
          let '(_, con') := _getch (c_con s) in
          c_exec t fuel' more {| c_tape := c_tape s; c_i := c_i s; c_con := con' |}
      | CReturn :: _ => CReturned s
      end
  end.

(** The program run from its start: a zeroed tape of [cells p] cells,
    [i = 0]. *)
Definition c_run (fuel : nat) (p : cprogram) (c : console) : cresult :=
  c_exec (cell_type p) fuel (body p)
    {| c_tape := replicate (Z.to_nat (cells p)) 0; c_i := 0; c_con := c |}.

(** The emitted text read back and run. *)
Definition run_emitted (fuel : nat) (source : string) (c : console) : option cresult :=
  match read_program source with
  | Some p => Some (c_run fuel p c)
  | None => None
  end.

(** The number of occurrences of [c] in [s]. *)
Fixpoint occurrences (c : ascii) (s : list ascii) : Z :=
  match s with
  | [] => 0
  | d :: s' => (if (d =? c)%char then 1 else 0) + occurrences c s'
  end.

(** The characters of a C string: none is the terminator. *)
Definition c_string (s : list ascii) : Prop := Forall (fun c => c <> NUL) s.

(** A console on which nothing was written and every key is 0. *)
Definition no_keys : console := {| stdout := EmptyString; keys := fun _ => 0; consumed := 0 |}.

(** The nesting depth [translate] has reached when [bfptr] is at offset [p]:
    1 for the body of [main], plus the ['['] and minus the [']'] before
    [p]. *)
Definition level_at (bfcode : list ascii) (p : Z) : Z :=
  1 + occurrences "[" (take (Z.to_nat p) bfcode)
    - occurrences "]" (take (Z.to_nat p) bfcode).

(** What a pass can end in when the invariant holds: the next state, which
    satisfies the invariant and has a tape of the same length, or a
    diagnostic, which leaves the environment as it was. *)
Inductive pass_ok (s : istate) : step_result -> Prop :=
| pass_next s' :
    env_ok (env s') -> length (tape (env s')) = length (tape (env s)) ->
    pass_ok s (Next s')
| pass_raise err :
    pass_ok s (raise err s).

(** Decides every test of [c] against a literal once [c] is known. *)
Ltac known_char H := rewrite H; cbn [Ascii.eqb Bool.eqb andb orb negb].

(** ** The emitted program as a function of the stream *)

(** The amount a statement emitted for a collated [total] adds once the
    text is read back: [++] and [--] stand for 1 and -1, a literal printed
    with ["%d"] for the low 32 bits of the argument; nothing is emitted for
    a total of 0. *)
Definition adjust_amount (total : Z) : option Z :=
  if total >? 0 then Some (if total =? 1 then 1 else wrap_signed 32 total)
  else if total <? 0 then Some (if total =? -1 then -1 else - wrap_signed 32 (- total))
  else None.

Definition adjust_stmt (make : Z -> cstmt) (total : Z) : list cstmt :=
  match adjust_amount total with
  | Some d => [make d]
  | None => []
  end.

(** The statements [translate] emits for the stream from offset [p] up to
    the first [']'] that closes no loop opened after [p], or up to the
    terminator, with the offset it stops at; [None] when a ['['] is not
    closed.  [format] is the format the statement for ['.'] is read with:
    the two percent signs and [c] in the text [translate] leaves in
    [ccode].  [fuel] bounds the number of instructions and runs. *)
Fixpoint compile_block (format : list ascii) (t : storage_t) (code : list ascii)
    (fuel : nat) (p : Z)
    : option (list cstmt * Z) :=
  match fuel with
  | O => None
  | S fuel' =>
      let c := deref code p in
      if (c =? NUL)%char || (c =? "]")%char then Some ([], p)
      else if (c =? ">")%char || (c =? "<")%char then
        let '(p', total) := collate t ">" "<" (drop (Z.to_nat p) code) p 0 in
        match compile_block format t code fuel' p' with
        | Some (more, q) => Some (adjust_stmt CIndex total ++ more, q)
        | None => None
        end
      else if (c =? "+")%char || (c =? "-")%char then
        let '(p', total) := collate t "+" "-" (drop (Z.to_nat p) code) p 0 in
        match compile_block format t code fuel' p' with
        | Some (more, q) => Some (adjust_stmt CCell total ++ more, q)
        | None => None
        end
      else if (c =? ".")%char then
        match compile_block format t code fuel' (p + 1) with
        | Some (more, q) => Some (CPrintf format :: more, q)
        | None => None
        end
      else if (c =? ",")%char then
        match compile_block format t code fuel' (p + 1) with
        | Some (more, q) => Some (CRead :: more, q)
        | None => None
        end
      else if (c =? "[")%char then
        match compile_block format t code fuel' (p + 1) with
        | Some (body, m) =>
            if (deref code m =? "]")%char then
              match compile_block format t code fuel' (m + 1) with
              | Some (more, q) => Some (CWhile body :: more, q)
              | None => None
              end
            else None
        | None => None
        end
      else compile_block format t code fuel' (p + 1)
  end.

(** A stream is balanced when, read from the left with [depth] loops open,
    no [']'] comes with no loop open and none is open at the end. *)
Fixpoint balanced_from (depth : nat) (s : list ascii) : bool :=
  match s with
  | [] => Nat.eqb depth 0
  | c :: s' =>
      if (c =? "[")%char then balanced_from (S depth) s'
      else if (c =? "]")%char then
        match depth with
        | O => false
        | S depth' => balanced_from depth' s'
        end
      else balanced_from depth s'
  end.

Definition balanced (s : list ascii) : bool := balanced_from 0 s.

(** [n] copies of the two characters [%c]. *)
Fixpoint percent_c (n : nat) : string :=
  match n with
  | O => EmptyString
  | S n' => String "%" (String "c" (percent_c n'))
  end.

(** What is written for the cell values [vs], each printed by [pr]. *)
Fixpoint outputs (pr : Z -> string) (vs : list Z) : string :=
  match vs with
  | [] => EmptyString
  | v :: vs' => String.append (pr v) (outputs pr vs')
  end.

(** The state [cs] of a program whose [printf] statements have the format
    [format] stands for the state [s] of the interpreter: same cells, index
    on the cursor, same keys read, and since [out0] the interpreter has
    written the characters of some cell values [vs] and the program what
    its format makes of the same values.  The cells hold values of the cell
    type. *)
Definition sim (format : list ascii) (t : storage_t) (out0 : string)
    (s : istate) (cs : cstate) : Prop :=
  tape (env s) = c_tape cs /\
  ptr (env s) = c_i cs /\
  keys (con s) = keys (c_con cs) /\
  consumed (con s) = consumed (c_con cs) /\
  (exists vs, stdout (con s) = String.append out0 (outputs format_c vs) /\
              stdout (c_con cs) = String.append out0 (outputs (c_printf format) vs)) /\
  Forall (fun v => wrap t v = v) (tape (env s)).

(** From [s] the interpreter comes to an access violation. *)
Definition violates (t : storage_t) (code : list ascii) (s : istate) : Prop :=
  exists n s_n i s',
    passes t code n s = Some s_n /\
    deref code (codeptr s_n) <> NUL /\
    step t code s_n = Stop (Failure (AccessViolation i)) s'.

(** The result [r] of running a block of the emitted program with [f] units
    of fuel agrees with the interpreter started in [s] at the start of the
    block, which ends at offset [q]. *)
Definition agrees (format : list ascii) (t : storage_t) (code : list ascii)
    (out0 : string) (f : nat) (q : Z) (s : istate) (r : cresult) : Prop :=
  violates t code s \/
  match r with
  | CNormal cs' =>
      exists n s',
        passes t code n s = Some s' /\ codeptr s' = q /\
        env_ok (env s') /\ sim format t out0 s' cs'
  | CTimeout => exists n s', passes t code n s = Some s' /\ (f <= S n)%nat
  | CUndefined => False
  | CReturned _ => False
  end.

(** The text [chunk] reads as the statements [stmts]: put in front of any
    text, it adds [stmts] in front of what that text reads as. *)
Definition Reads (chunk : list ascii) (stmts : list cstmt) : Prop :=
  forall X f tl r,
    read_block f X = Some (tl, r) ->
    read_block (f + length chunk) (chunk ++ X) = Some (stmts ++ tl, r).

(** The characters [translate] has written so far. *)
Definition chars (ts : tstate) : list ascii := list_ascii_of_string (ccode ts).

(** The loop of [translate] started in [ts] passes through [ts']. *)
Definition reaches (t : storage_t) (bfcode : list ascii) (ts ts' : tstate) : Prop :=
  forall f r, translate_loop t bfcode f ts' = Some r ->
              exists f', translate_loop t bfcode f' ts = Some r.

(** The text [emit_adjust] appends for a collated [total]. *)
Definition adjust_text (target ending : string) (total : Z) : string :=
  ccode (emit_adjust target ending total
           {| bfptr := 0; ccode := EmptyString; indentlevel := 0 |}).

(** The locals of [translate] once the directives and the header of [main]
    are written: the first statements of [prologue]. *)
Definition headers : tstate :=
  let ts := {| bfptr := 0; ccode := EmptyString; indentlevel := 0 |} in
  let ts := emit (String.append "#include <stdio.h>" LF) ts in
  let ts := emit (String.append "#include <stdlib.h>" LF) ts in
  let ts := emit (String.append "#include <stddef.h>" LF) ts in
  let ts := emit (String.append "#include "
                    (String.append DQUOTE
                       (String.append "conio.h" (String.append DQUOTE LF)))) ts in
  let ts := emit LF ts in
  let ts := emit (String.append "int main() {" LF) (emit_indent ts) in
  let ts := set_indentlevel ts (indentlevel ts + 1) in
  emit LF (emit_indent ts).

(** The declaration of [tape] as [prologue] writes it. *)
Definition declaration (t : storage_t) (n : Z) : list ascii :=
  lit (DECLTYPE_STR t) ++ lit " *tape = (" ++ lit (DECLTYPE_STR t) ++ lit " *)calloc("
    ++ list_ascii_of_string (format_d n) ++ lit ", sizeof(" ++ lit (DECLTYPE_STR t)
    ++ lit "));".

(** ** The translator program *)

(** What [fprintf(stream, format)] writes when no argument follows the
    format: [%%] is a percent sign and any other character is copied; a
    percent sign followed by anything else asks for an argument that is not
    there, which has no defined behaviour. *)
Fixpoint fprintf_plain (format : list ascii) : option (list ascii) :=
  match format with
  | [] => Some []
  | c :: rest =>
      if (c =? "%")%char then
        match rest with
        | d :: rest' =>
            if (d =? "%")%char then
              match fprintf_plain rest' with
              | Some out => Some ("%"%char :: out)
              | None => None
              end
            else None
        | [] => None
        end
      else
        match fprintf_plain rest with
        | Some out => Some (c :: out)
        | None => None
        end
  end.

(** Seen through [view] -- the identity for the text in [ccode], or
    [fprintf_plain] for the text in the destination file -- the text
    [chunk] reads as the statements [stmts]. *)
Definition Emits (view : list ascii -> option (list ascii))
    (chunk : list ascii) (stmts : list cstmt) : Prop :=
  exists chunk', view chunk = Some chunk' /\ Reads chunk' stmts.

(** The C string in a zeroed buffer into which [bytes] were read: the bytes
    before the first zero. *)
Fixpoint c_str (bytes : list ascii) : list ascii :=
  match bytes with
  | [] => []
  | c :: rest => if (c =? NUL)%char then [] else c :: c_str rest
  end.

Definition line (s : string) : string := String.append s LF.

(** Where [main] of xlbftranslator.cpp leaves defined behaviour: a stream
    function called with the null pointer [fopen] returned, [translate]
    writing past the end of [ccodebuffer], or a conversion in the format
    given to [fprintf].  [Unfinished] stands for a loop of [translate] that
    has not come to its end. *)
Inductive fault : Type :=
| NullSource
| NullDestination
| Overflow
| BadFormat
| Unfinished.

(** How [main] ends: with an exit code, what it wrote on [stderr] and, when
    it wrote the destination file, the contents of that file; or at a
    fault, with what it had written on [stderr] by then. *)
Inductive main_result : Type :=
| Returned (exit_code : Z) (err : string) (written : option (list ascii))
| Faulted (why : fault) (err : string).

(** [main] of xlbftranslator.cpp.  [memsize] is the [long] that [strtol]
    returned for [argv[1]], [bfsrc] the bytes of the source file when it
    can be opened, [cdest] whether the destination file can be opened.
    [filesize * 32] is computed in [size_t], taken here as 64 bits wide,
    and ["%d"] prints the low 32 bits of [filesize]. *)
Definition xlbftranslator_main (argc memsize : Z) (bfsrc : option (list ascii))
    (cdest : bool) : main_result :=
  if negb (argc =? 4) then
    Returned 1
      (String.append
         (line "You must specify the size of memory allocated to the brainfuck environment, the brainfuck source file, and the C destination file.")
         (line "Follow this format in command line: xlbftranslator memsize bfsrc cdest."))
      None
  else if memsize <=? 0 then
    Returned 1
      (line "You must supply a valid positive integer for the size of memory allocated.")
      None
  else
    let err := match bfsrc with
               | None => line "Invalid brainfuck source file."
               | Some _ => EmptyString
               end in
    let err := String.append err
                 (if cdest then EmptyString
                  else line "Unable to create C destination file.") in
    let bfe := xl_brainfuck_env_ctor (Z.to_N memsize) in
    let err := String.append err (line "Reading brainfuck source file ...") in
    match bfsrc with
    | None => Faulted NullSource err
    | Some content =>
        let filesize := Z.of_nat (length content) in
        let err := String.append err
                     (String.append "Source file size: "
                        (String.append (format_d filesize) (line "."))) in
        let bfcodebuffer := c_str content in
        let err := String.append err
                     (String.append (line "Content read:")
                        (line (string_of_list_ascii bfcodebuffer))) in
        let ccodesize := wrap_unsigned 64 (filesize * 32) in
        let err := String.append err (line "Translating brainfuck code to C code ...") in
        match translate t_int bfe bfcodebuffer with
        | None => Faulted Unfinished err
        | Some tr =>
            if Z.of_nat (String.length (text tr)) >? ccodesize then Faulted Overflow err
            else
              let err := String.append err
                           (String.append (line "Translated C code:") (line (text tr))) in
              let err := String.append err (line "Writing into C destination file ...") in
              if cdest then
                match fprintf_plain (list_ascii_of_string (text tr)) with
                | Some written =>
                    Returned 0 (String.append err (line "Operation complete."))
                      (Some written)
                | None => Faulted BadFormat err
                end
              else Faulted NullDestination err
        end
    end.

(** The statement for ['.'] as it stands in the destination file. *)
Definition putchar_written : string :=
  String.append "printf("
    (String.append DQUOTE
       (String.append "%c"
          (String.append DQUOTE (String.append ", tape[i]);" LF)))).

(** ** Writing into a [char] buffer *)

(** A buffer is the list of its bytes and a [char *] into it the offset of
    a byte.  Reading or writing outside the buffer has no defined
    behaviour: the functions below return [None] there. *)

(** The loop of [gotoend], which moves the pointer on while the byte under it
    is not zero, over the bytes [rest] from [ptr] on. *)
Fixpoint gotoend_loop (rest : list ascii) (ptr : nat) : option nat :=
  match rest with
  | [] => None
  | c :: rest' => if (c =? NUL)%char then Some ptr else gotoend_loop rest' (S ptr)
  end.

(** [gotoend(&ptr)] on the buffer [buf]: the new value of [ptr]. *)
Definition gotoend (buf : list ascii) (ptr : nat) : option nat :=
  gotoend_loop (drop ptr buf) ptr.

(** [strcpy(ptr, s)]: the characters of [s] and a terminator, from [ptr]
    on. *)
Definition strcpy (buf : list ascii) (ptr : nat) (s : list ascii) : option (list ascii) :=
  if (ptr + length s + 1 <=? length buf)%nat
  then Some (take ptr buf ++ s ++ NUL :: drop (ptr + length s + 1) buf)
  else None.

(** [sprintf(ptr, format)] with no further argument: what the format
    produces, and a terminator. *)
Definition sprintf (buf : list ascii) (ptr : nat) (format : list ascii)
    : option (list ascii) :=
  match fprintf_plain format with
  | Some s => strcpy buf ptr s
  | None => None
  end.

(** The buffer [buf] and the pointer [cptr] of [translate] stand for the
    locals [ts]: the buffer holds the text written so far, [cptr] is at its
    terminator. *)
Definition holds (buf : list ascii) (cptr : nat) (ts : tstate) : Prop :=
  take cptr buf = chars ts /\ buf !! cptr = Some NUL.

(** ** One stream after another *)

(** The state [s] of a call of [interpret] on a stream, seen from a stream
    that has [k] more characters in front. *)
Definition relocate (k : Z) (s : istate) : istate :=
  {| codeptr := codeptr s + k; env := env s; con := con s |}.

Definition relocate_run (k : Z) (r : run) : run :=
  match r with
  | Halted o s => Halted o (relocate k s)
  | OutOfFuel s => OutOfFuel (relocate k s)
  end.

(** ** The console program *)

(** Standard input is the list of the characters still to be read; at its
    end [fgets] meets the end of file.  [_getch] reads the keyboard, not
    standard input: its keys are those of the [console]. *)

Definition CODE_BUFFER_SIZE : nat := 1024.
Definition LINE_BUFFER_SIZE : nat := 1024.

(** The characters [fgets] takes from the input when it may store [n] of
    them: up to a newline, which it takes, or up to the end of the input. *)
Fixpoint fgets_read (n : nat) (input : list ascii) : list ascii * list ascii :=
  match n, input with
  | S n', c :: rest =>
      if (c =? "010")%char then ([c], rest)
      else let '(got, rest') := fgets_read n' rest in (c :: got, rest')
  | _, _ => ([], input)
  end.

(** [fgets(buf, n, stdin)]: at most [n - 1] characters and a terminator are
    stored at the start of [buf]; at the end of file, with nothing read,
    [buf] is left as it is. *)
Definition fgets (buf : list ascii) (n : nat) (input : list ascii)
    : option (list ascii) * list ascii :=
  let '(got, rest) := fgets_read (n - 1) input in
  match got with
  | [] => (Some buf, rest)
  | _ :: _ => (strcpy buf 0 got, rest)
  end.

(** The C string at [ptr] in [buf]: the bytes from [ptr] to the first zero
    byte, when there is one in the buffer. *)
Definition string_at (buf : list ascii) (ptr : nat) : option (list ascii) :=
  match gotoend buf ptr with
  | Some q => Some (take (q - ptr) (drop ptr buf))
  | None => None
  end.

(** [strncpy(ptr, src, n)] for the C string [src]: exactly [n] bytes are
    written, the first of [src] and then zeros. *)
Definition strncpy (buf : list ascii) (ptr : nat) (src : list ascii) (n : nat)
    : option (list ascii) :=
  if (ptr + n <=? length buf)%nat
  then Some (take ptr buf ++ take n (src ++ replicate n NUL) ++ drop (ptr + n) buf)
  else None.

(** [memset(buf, 0, n)]. *)
Definition memset_zero (buf : list ascii) (n : nat) : option (list ascii) :=
  if (n <=? length buf)%nat then Some (replicate n NUL ++ drop n buf) else None.

(** [strcmp(a, b) == 0] on the C strings [a] and [b]. *)
Fixpoint str_eqb (a b : list ascii) : bool :=
  match a, b with
  | [], [] => true
  | x :: a', y :: b' => (x =? y)%char && str_eqb a' b'
  | _, _ => false
  end.

(** The variables of [main] and the two streams. *)
Record console_state : Type := mk_console_state {
  codebuffer : list ascii;
  linebuffer : list ascii;
  bfe : xl_brainfuck_env;
  tty : console;
  stdin : list ascii
}.

(** How a pass through the inner loop ends: at its end, with the new
    [codeptr]; at one of its two [break]s; or outside defined behaviour. *)
Inductive command_result : Type :=
| MoreCommands (st : console_state) (codeptr : nat)
| CodeComplete (st : console_state)
| CommandFault.

(** One pass through the inner loop of [main]; [codeptr] is an offset in
    [codebuffer].  The size given to [strncpy] is
    [codebuffer + CODE_BUFFER_SIZE - codeptr], which is only a size when
    [codeptr] has not passed [codebuffer + CODE_BUFFER_SIZE]. *)
Definition read_command (st : console_state) (codeptr : nat) : command_result :=
  let tty1 := printf "COMMAND " (tty st) in
  let '(filled, rest) := fgets (linebuffer st) LINE_BUFFER_SIZE (stdin st) in
  match filled with
  | None => CommandFault
  | Some lb =>
      match string_at lb 0 with
      | None => CommandFault
      | Some command =>
          if str_eqb command (lit (line "reset")) then
            match reset (bfe st) with
            | Some e =>
                CodeComplete
                  {| codebuffer := codebuffer st; linebuffer := lb; bfe := e;
                     tty := printf (line "CONSOLE: Environment reset.") tty1;
                     stdin := rest |}
            | None => CommandFault
            end
          else if (codeptr <=? CODE_BUFFER_SIZE)%nat then
            match strncpy (codebuffer st) codeptr command (CODE_BUFFER_SIZE - codeptr) with
            | None => CommandFault
            | Some cb =>
                match gotoend cb codeptr with
                | None => CommandFault
                | Some codeptr' =>
                    if str_eqb command (lit LF) || (CODE_BUFFER_SIZE <=? codeptr')%nat
                    then CodeComplete
                           {| codebuffer := cb; linebuffer := lb; bfe := bfe st;
                              tty := tty1; stdin := rest |}
                    else match memset_zero lb (LINE_BUFFER_SIZE + 1) with
                         | Some lb' =>
                             MoreCommands
                               {| codebuffer := cb; linebuffer := lb'; bfe := bfe st;
                                  tty := tty1; stdin := rest |}
                               codeptr'
                         | None => CommandFault
                         end
                end
            end
          else CommandFault
      end
  end.

(** How the inner loop, and a round of the outer loop, end when they are
    given [fuel] passes: done, outside defined behaviour, or still going. *)
Inductive round_result : Type :=
| RoundDone (st : console_state)
| RoundFault
| RoundRunning.

(** The inner loop of [main]. *)
Fixpoint read_commands (fuel : nat) (st : console_state) (codeptr : nat) : round_result :=
  match fuel with
  | O => RoundRunning
  | S fuel' =>
      match read_command st codeptr with
      | MoreCommands st' codeptr' => read_commands fuel' st' codeptr'
      | CodeComplete st' => RoundDone st'
      | CommandFault => RoundFault
      end
  end.

(** One round of the outer loop of [main]: the commands are read, the code
    is interpreted, the code buffer is cleared. *)
Definition console_round (fuel_read fuel_run : nat) (st : console_state) : round_result :=
  match read_commands fuel_read st 0 with
  | RoundDone st1 =>
      match string_at (codebuffer st1) 0 with
      | None => RoundFault
      | Some code =>
          match interpret t_int code fuel_run (bfe st1) (printf "OUTPUT: " (tty st1)) with
          | Halted Undefined _ => RoundFault
          | Halted _ s =>
              match memset_zero (codebuffer st1) (CODE_BUFFER_SIZE + 1) with
              | Some cb =>
                  RoundDone
                    {| codebuffer := cb; linebuffer := linebuffer st1; bfe := env s;
                       tty := printf LF (con s); stdin := stdin st1 |}
              | None => RoundFault
              end
          | OutOfFuel _ => RoundRunning
          end
      end
  | other => other
  end.

(** [main] of xlbfconsole.cpp up to the outer loop. *)
Definition console_start (screen : console) (input : list ascii) : console_state :=
  {| codebuffer := replicate (CODE_BUFFER_SIZE + 1) NUL;
     linebuffer := replicate (LINE_BUFFER_SIZE + 1) NUL;
     bfe := xl_brainfuck_env_ctor INTERPRETER_BUFFER_SIZE;
     tty :=
       printf (line "# Other inputs will be interpreted as brainfuck code.")
         (printf (line "# Enter reset to reinitialize the brainfuck environment.")
            (printf (line "== XL BRAINFUCK CONSOLE ==") screen));
     stdin := input |}.

(** The first [rounds] rounds of the outer loop, which has no exit. *)
Fixpoint console_rounds (rounds fuel_read fuel_run : nat) (st : console_state)
    : round_result :=
  match rounds with
  | O => RoundDone st
  | S rounds' =>
      match console_round fuel_read fuel_run st with
      | RoundDone st' => console_rounds rounds' fuel_read fuel_run st'
      | other => other
      end
  end.

(** What holds of the variables of [main] at the start of every round. *)
Definition console_ready (st : console_state) : Prop :=
  codebuffer st = replicate (CODE_BUFFER_SIZE + 1) NUL /\
  length (linebuffer st) = S LINE_BUFFER_SIZE /\
  linebuffer st !! LINE_BUFFER_SIZE = Some NUL /\
  env_ok (bfe st).

(** A line as the user enters it: characters other than the newline and the
    zero byte, then a newline, short enough for [fgets] to take it whole. *)
Definition entered_line (l : list ascii) : Prop :=
  exists body,
    l = body ++ lit LF /\
    Forall (fun c => c <> "010"%char /\ c <> NUL) body /\
    (length l < LINE_BUFFER_SIZE)%nat.

(** A line of code: an entered line that is neither the [reset] command nor
    the empty line that ends the code. *)
Definition code_line (l : list ascii) : Prop :=
  entered_line l /\ l <> lit (line "reset") /\ l <> lit LF.

(** [printf("COMMAND ")], [n] times. *)
Fixpoint prompts (n : nat) (screen : console) : console :=
  match n with
  | O => screen
  | S n' => prompts n' (printf "COMMAND " screen)
  end.

(** What holds of the variables of [main] inside the inner loop: the code
    buffer holds the code collected so far, [text], followed by zeros up to
    its end, and [codeptr] is at the end of the code. *)
Definition collecting (st : console_state) (codeptr : nat) (text : list ascii) : Prop :=
  codebuffer st = text ++ replicate (S CODE_BUFFER_SIZE - length text) NUL /\
  c_string text /\
  codeptr = length text /\
  (length text <= CODE_BUFFER_SIZE)%nat /\
  length (linebuffer st) = S LINE_BUFFER_SIZE /\
  linebuffer st !! LINE_BUFFER_SIZE = Some NUL /\
  env_ok (bfe st).

(** ** Characters the interpreter passes over *)

(** The characters with a case of their own in the [switch] of
    [interpret], and the terminator of the loop condition; every other
    character falls to the [default] case. *)
Definition interpreted (c : ascii) : bool :=
  (c =? NUL)%char || (c =? ">")%char || (c =? "<")%char || (c =? "+")%char ||
  (c =? "-")%char || (c =? ".")%char || (c =? ":")%char || (c =? ",")%char ||
  (c =? "[")%char || (c =? "]")%char.

(** The stream without the characters of the [default] case. *)
Fixpoint strip (code : list ascii) : list ascii :=
  match code with
  | [] => []
  | c :: rest => if interpreted c then c :: strip rest else strip rest
  end.

(** The offset, in a stream with one more character at offset [k], of the
    character at offset [p]. *)
Definition skip_over (k p : Z) : Z := if p <? k then p else p + 1.

(** A state of [interpret] on a stream with one more character at offset
    [k], for a state on the stream without it: [codeptr] is on the same
    character, or still on the additional one. *)
Definition tracks (k : Z) (s s2 : istate) : Prop :=
  env s2 = env s /\ con s2 = con s /\
  (codeptr s2 = skip_over k (codeptr s) \/ (codeptr s = k /\ codeptr s2 = k)).

(** Two runs with the same end: the same return, members and console. *)
Definition ends_as (o : outcome) (e : xl_brainfuck_env) (c : console) (r : run) : Prop :=
  exists s, r = Halted o s /\ env s = e /\ con s = c.

(** * Proofs *)

(** ** Raw accesses and the class invariant *)

Lemma store_length cells a v cells' :
  store cells a v = Some cells' -> length cells' = length cells.
Proof.
  unfold store. destruct (_ && _); [|discriminate].
  intros [= <-]. apply length_insert.
Qed.

Lemma store_in_block cells a v :
  0 <= a < Z.of_nat (length cells) ->
  store cells a v = Some (<[Z.to_nat a := v]> cells).
Proof.
  intros [H0 H1]. unfold store.
  apply Z.leb_le in H0. apply Z.ltb_lt in H1. now rewrite H0, H1.
Qed.

Lemma load_in_block cells a :
  0 <= a < Z.of_nat (length cells) -> exists v, load cells a = Some v.
Proof.
  intros [H0 H1]. unfold load.
  destruct (Z.ltb_spec a 0); [lia|].
  destruct (lookup_lt_is_Some_2 cells (Z.to_nat a)) as [v Hv]; [lia|].
  exists v. exact Hv.
Qed.

Lemma ptr_in_block e :
  env_ok e -> ptroutofrange e = false ->
  0 <= ptr e < Z.of_nat (length (tape e)).
Proof.
  intros [Hmin Hmax]. unfold ptroutofrange. rewrite Hmin, Hmax.
  intros H. apply orb_false_iff in H as [H1 H2].
  apply Z.ltb_ge in H1. rewrite Z.gtb_ltb in H2. apply Z.ltb_ge in H2. lia.
Qed.

Lemma ptr_outside_block e :
  env_ok e -> ptroutofrange e = true ->
  ~ (0 <= ptr e < Z.of_nat (length (tape e))).
Proof.
  intros [Hmin Hmax]. unfold ptroutofrange. rewrite Hmin, Hmax.
  intros H. apply orb_true_iff in H as [H|H].
  - apply Z.ltb_lt in H. lia.
  - rewrite Z.gtb_ltb in H. apply Z.ltb_lt in H. lia.
Qed.

Lemma ctor_ok tapesize : env_ok (xl_brainfuck_env_ctor tapesize).
Proof.
  unfold env_ok, xl_brainfuck_env_ctor. simpl.
  rewrite length_replicate. split; [reflexivity | lia].
Qed.

(** ** [reset] *)

Lemma reset_loop_spec n : forall resetptr cells,
  0 <= resetptr ->
  resetptr + Z.of_nat n <= Z.of_nat (length cells) ->
  exists cells',
    reset_loop n resetptr cells = Some cells' /\
    length cells' = length cells /\
    forall k : nat,
      cells' !! k =
        if (resetptr <=? Z.of_nat k) && (Z.of_nat k <? resetptr + Z.of_nat n)
        then (if (k <? length cells)%nat then Some 0 else None)
        else cells !! k.
Proof.
  induction n as [|n IH]; intros resetptr cells H0 H1.
  - exists cells. simpl. repeat split. intros k.
    destruct (Z.leb_spec resetptr (Z.of_nat k)), (Z.ltb_spec (Z.of_nat k) (resetptr + Z.of_nat 0));
      simpl; try reflexivity; lia.
  - simpl. rewrite store_in_block by lia.
    destruct (IH (resetptr + 1) (<[Z.to_nat resetptr := 0]> cells)) as (cells' & Hrun & Hlen & Hget).
    + lia.
    + rewrite length_insert. lia.
    + exists cells'. split; [exact Hrun|]. rewrite length_insert in Hlen.
      split; [exact Hlen|]. intros k. rewrite Hget, length_insert.
      destruct (Z.leb_spec (resetptr + 1) (Z.of_nat k)),
               (Z.ltb_spec (Z.of_nat k) (resetptr + 1 + Z.of_nat n)),
               (Z.leb_spec resetptr (Z.of_nat k)),
               (Z.ltb_spec (Z.of_nat k) (resetptr + Z.of_nat (S n)));
        cbn [andb]; try reflexivity; try lia.
      all: destruct (decide (k = Z.to_nat resetptr)) as [->|Hne];
        [ rewrite list_lookup_insert_eq by lia;
          destruct (Nat.ltb_spec (Z.to_nat resetptr) (length cells)); (reflexivity || lia)
        | try lia; apply list_lookup_insert_ne; lia ].
Qed.

(** [reset()] on an environment that satisfies the invariant: it completes
    and leaves a tape of zeroes of the same length, the cursor at the start,
    the bounds as they were. *)
Lemma reset_of_ok (e : xl_brainfuck_env) :
  env_ok e ->
  exists e',
    reset e = Some e' /\
    tape e' = replicate (length (tape e)) 0 /\
    ptr e' = 0 /\
    minaddr e' = minaddr e /\ maxaddr e' = maxaddr e.
Proof.
  intros [Hmin Hmax]. unfold reset. rewrite Hmin, Hmax.
  set (N := length (tape e)).
  destruct (reset_loop_spec (Z.to_nat (Z.of_nat N - 1 - 0 + 1)) 0 (tape e))
    as (cells' & Hrun & Hlen & Hget); [lia | fold N; lia |].
  rewrite Hrun. eexists. split; [reflexivity|]. simpl.
  repeat split.
  apply list_eq. intros k.
  rewrite Hget. fold N.
  destruct (Nat.lt_ge_cases k N) as [Hk|Hk].
  - destruct (Z.leb_spec 0 (Z.of_nat k)); [|lia].
    destruct (Z.ltb_spec (Z.of_nat k) (0 + Z.of_nat (Z.to_nat (Z.of_nat N - 1 - 0 + 1)))); [|lia].
    simpl. destruct (Nat.ltb_spec k N); [|lia].
    symmetry. apply lookup_replicate_2. exact Hk.
  - rewrite (lookup_ge_None_2 (replicate N 0)) by (rewrite length_replicate; lia).
    destruct (_ && _).
    + destruct (Nat.ltb_spec k N); [lia | reflexivity].
    + apply lookup_ge_None_2. fold N. lia.
Qed.

(** C9. For every capacity [N] (so for every [N >= 1]) and every state [e]
    of an environment of that capacity, [reset()] completes, after it every
    one of the [N] cells reads 0, the cursor addresses index 0 (the first
    address, [minaddr]), and the tape still has [N] cells. *)
Theorem reset_zeroes_every_cell (N : nat) (e : xl_brainfuck_env) :
  env_ok e -> length (tape e) = N ->
  exists e',
    reset e = Some e' /\
    (forall k : nat, (k < N)%nat -> load (tape e') (Z.of_nat k) = Some 0) /\
    tape e' = replicate N 0 /\
    ptr e' = 0 /\ ptr e' = minaddr e' /\
    length (tape e') = N /\
    minaddr e' = minaddr e /\ maxaddr e' = maxaddr e.
Proof.
  intros Hok HN.
  destruct (reset_of_ok e Hok) as (e' & Hreset & Hcells & Hptr & Hmin & Hmax).
  rewrite HN in Hcells. exists e'.
  split; [exact Hreset|]. split.
  { intros k Hk. unfold load.
    destruct (Z.ltb_spec (Z.of_nat k) 0); [lia|].
    rewrite Nat2Z.id, Hcells. apply lookup_replicate_2. exact Hk. }
  split; [exact Hcells|]. split; [exact Hptr|]. split.
  { destruct Hok as [H0 _]. congruence. }
  split; [rewrite Hcells; apply length_replicate|]. split; assumption.
Qed.

Lemma reset_zeroes_every_cell_witness :
  exists e',
    reset (mk_env [7; -3; 9] 5 0 2) = Some e' /\
    (forall k : nat, (k < 3)%nat -> load (tape e') (Z.of_nat k) = Some 0) /\
    tape e' = replicate 3 0 /\
    ptr e' = 0 /\ ptr e' = minaddr e' /\
    length (tape e') = 3%nat /\
    minaddr e' = 0 /\ maxaddr e' = 2.
Proof.
  apply (reset_zeroes_every_cell 3 (mk_env [7; -3; 9] 5 0 2)).
  - split; reflexivity.
  - reflexivity.
Defined.

(** ** Set-up *)

(** C4, as stated, fails: constructing an environment of capacity 0
    completes; it does not fail. *)
Lemma construct_zero_capacity_completes :
  construct 0 = SetupDone {| tape := []; ptr := 0; minaddr := 0; maxaddr := -1 |} /\
  forall exit_code, construct 0 <> SetupFailed exit_code.
Proof. split; [reflexivity | discriminate]. Qed.

(** C4, amended. The constructor checks nothing: for every capacity, 0
    included, it completes with that many zeroed cells and the cursor on the
    first address (with capacity 0 the cursor is out of range from the
    start).  The check for a capacity [<= 0] is the translator front end's:
    its set-up exits with code 1 before any environment is constructed. *)
Theorem capacity_checked_by_translator_front_end (argc memsize : Z) (tapesize : N) :
  memsize <= 0 ->
  xlbftranslator_setup argc memsize = SetupFailed 1 /\
  exists e,
    construct tapesize = SetupDone e /\
    tape e = replicate (N.to_nat tapesize) 0 /\
    ptr e = 0 /\
    env_ok e /\
    ptroutofrange e = (tapesize =? 0)%N.
Proof.
  intros Hmem. split.
  - unfold xlbftranslator_setup.
    destruct (argc =? 4); [|reflexivity]. simpl.
    apply Z.leb_le in Hmem. now rewrite Hmem.
  - exists (xl_brainfuck_env_ctor tapesize).
    repeat split; try apply ctor_ok.
    unfold ptroutofrange. simpl.
    destruct (N.eqb_spec tapesize 0) as [->|Hne]; [reflexivity|].
    rewrite Z.gtb_ltb. apply Z.ltb_ge. lia.
Qed.

Lemma capacity_checked_by_translator_front_end_witness :
  xlbftranslator_setup 4 0 = SetupFailed 1 /\
  exists e,
    construct 0 = SetupDone e /\
    tape e = replicate (N.to_nat 0) 0 /\
    ptr e = 0 /\
    env_ok e /\
    ptroutofrange e = (0 =? 0)%N.
Proof. apply (capacity_checked_by_translator_front_end 4 0 0). lia. Defined.

(** ** The interpreter: bounds checks *)

Lemma write_cell_and_advance_in_block s v c :
  env_ok (env s) -> ptroutofrange (env s) = false ->
  exists cells',
    write_cell_and_advance s v c =
      Next {| codeptr := codeptr s + 1; env := set_tape (env s) cells'; con := c |} /\
    length cells' = length (tape (env s)).
Proof.
  intros Hok Hin. unfold write_cell_and_advance.
  rewrite store_in_block by (apply ptr_in_block; assumption).
  eexists. split; [reflexivity|]. apply length_insert.
Qed.

Lemma set_tape_ok e cells' :
  env_ok e -> length cells' = length (tape e) -> env_ok (set_tape e cells').
Proof. intros [H1 H2] Hlen. split; simpl; congruence. Qed.

Lemma set_ptr_ok e p : env_ok e -> env_ok (set_ptr e p).
Proof. intros [H1 H2]. split; simpl; assumption. Qed.

Lemma step_pass_ok t code s : env_ok (env s) -> pass_ok s (step t code s).
Proof.
  intros Hok. unfold step.
  repeat match goal with
  | |- context [if (?a =? ?b)%char then _ else _] => destruct (a =? b)%char
  end;
  try (destruct (ptroutofrange (env s)) eqn:Hin; [apply pass_raise|]);
  try (destruct (load_in_block (tape (env s)) (ptr (env s))) as [v ->];
       [apply ptr_in_block; assumption|]).
  - apply pass_next; simpl; [apply set_ptr_ok; assumption | reflexivity].
  - apply pass_next; simpl; [apply set_ptr_ok; assumption | reflexivity].
  - destruct (write_cell_and_advance_in_block s (wrap t (v + 1)) (con s) Hok Hin)
      as (cells' & -> & Hlen).
    apply pass_next; simpl; [apply set_tape_ok; assumption | assumption].
  - destruct (write_cell_and_advance_in_block s (wrap t (v - 1)) (con s) Hok Hin)
      as (cells' & -> & Hlen).
    apply pass_next; simpl; [apply set_tape_ok; assumption | assumption].
  - apply pass_next; simpl; [assumption | reflexivity].
  - apply pass_next; simpl; [assumption | reflexivity].
  - destruct (_getch (con s)) as [k con'].
    destruct (write_cell_and_advance_in_block s (wrap t k) con' Hok Hin)
      as (cells' & -> & Hlen).
    apply pass_next; simpl; [apply set_tape_ok; assumption | assumption].
  - destruct (search_forward _ _ _); [|apply pass_raise].
    destruct (v =? 0); apply pass_next; simpl; (assumption || reflexivity).
  - destruct (search_backward _ _ _); [|apply pass_raise].
    apply pass_next; simpl; (assumption || reflexivity).
  - apply pass_next; simpl; (assumption || reflexivity).
Qed.

Lemma step_never_undefined t code s s' :
  env_ok (env s) -> step t code s <> Stop Undefined s'.
Proof.
  intros Hok H. pose proof (step_pass_ok t code s Hok) as Hp.
  rewrite H in Hp. inversion Hp.
Qed.

Lemma step_next_ok t code s s' :
  env_ok (env s) -> step t code s = Next s' ->
  env_ok (env s') /\ length (tape (env s')) = length (tape (env s)).
Proof.
  intros Hok H. pose proof (step_pass_ok t code s Hok) as Hp.
  rewrite H in Hp. inversion Hp; subst. split; assumption.
Qed.

Lemma interpret_loop_defined t code fuel : forall s o s',
  env_ok (env s) ->
  interpret_loop t code fuel s = Halted o s' ->
  (o = Success \/ exists err, o = Failure err) /\
  env_ok (env s') /\ length (tape (env s')) = length (tape (env s)).
Proof.
  induction fuel as [|fuel IH]; intros s o s' Hok; simpl.
  - destruct (_ =? _)%char; [|discriminate].
    intros [= <- <-]. auto.
  - destruct (_ =? _)%char.
    + intros [= <- <-]. auto.
    + pose proof (step_pass_ok t code s Hok) as Hp.
      destruct Hp as [s1 Hok1 Hlen1 | err].
      * intros Hrun. destruct (IH _ _ _ Hok1 Hrun) as (Ho & Hok' & Hlen').
        split; [assumption | split; [assumption | congruence]].
      * unfold raise. intros [= <- <-]. simpl. split; [right; eauto|]. auto.
Qed.

Lemma step_access_violation_iff t code s :
  env_ok (env s) ->
  In (deref code (codeptr s)) ["+"; "-"; "."; ":"; ","; "["]%char ->
  (exists i s', step t code s = Stop (Failure (AccessViolation i)) s') <->
  ptroutofrange (env s) = true.
Proof.
  intros Hok Hc.
  destruct (ptroutofrange (env s)) eqn:Hout.
  - split; [reflexivity|]. intros _.
    simpl in Hc. unfold step.
    repeat (destruct Hc as [Hc|Hc]; [symmetry in Hc; known_char Hc; rewrite Hout;
                                      unfold raise; eauto|]).
    contradiction.
  - split; [|discriminate]. intros (i & s' & Hstep). exfalso.
    destruct (load_in_block (tape (env s)) (ptr (env s))) as [v Hv];
      [apply ptr_in_block; assumption|].
    simpl in Hc. unfold step in Hstep.
    repeat (destruct Hc as [Hc|Hc];
      [symmetry in Hc; revert Hstep; known_char Hc; rewrite Hout, ?Hv; clear Hc|]);
      try contradiction.
    + destruct (write_cell_and_advance_in_block s (wrap t (v + 1)) (con s) Hok Hout)
        as (cells' & -> & _). discriminate.
    + destruct (write_cell_and_advance_in_block s (wrap t (v - 1)) (con s) Hok Hout)
        as (cells' & -> & _). discriminate.
    + discriminate.
    + discriminate.
    + destruct (_getch (con s)) as [k con'].
      destruct (write_cell_and_advance_in_block s (wrap t k) con' Hok Hout)
        as (cells' & -> & _). discriminate.
    + destruct (search_forward _ _ _); [destruct (v =? 0)|]; discriminate.
Qed.

(** C7. From any state of an environment built by the constructor, a run of
    [interpret] never ends in an access outside the tape, whatever its
    length: no cell is read or written while the cursor is outside
    [0, N-1].  At each of ['+'], ['-'], ['.'], [':'], [','] and ['['] the
    pass returns an access violation exactly when [ptroutofrange()] holds,
    and otherwise the cell it is about to touch is inside the tape; at ['>']
    and ['<'] the pass moves the cursor by one and goes on, in range or not. *)
Theorem interpret_checks_bounds_before_access
    (t : storage_t) (code : list ascii) (s : istate) :
  env_ok (env s) ->
  (forall fuel o s', interpret_loop t code fuel s = Halted o s' -> o <> Undefined) /\
  (In (deref code (codeptr s)) ["+"; "-"; "."; ":"; ","; "["]%char ->
     ((exists i s', step t code s = Stop (Failure (AccessViolation i)) s') <->
      ptroutofrange (env s) = true) /\
     (ptroutofrange (env s) = true <->
      ~ (0 <= ptr (env s) < Z.of_nat (length (tape (env s))))) /\
     (ptroutofrange (env s) = false ->
      exists v, load (tape (env s)) (ptr (env s)) = Some v)) /\
  (deref code (codeptr s) = ">"%char ->
     step t code s =
       Next {| codeptr := codeptr s + 1; env := set_ptr (env s) (ptr (env s) + 1);
               con := con s |}) /\
  (deref code (codeptr s) = "<"%char ->
     step t code s =
       Next {| codeptr := codeptr s + 1; env := set_ptr (env s) (ptr (env s) - 1);
               con := con s |}).
Proof.
  intros Hok. repeat split.
  - intros fuel o s' Hrun ->.
    destruct (interpret_loop_defined t code fuel s _ s' Hok Hrun) as ([H|[err H]] & _);
      discriminate.
  - apply step_access_violation_iff; assumption.
  - apply step_access_violation_iff; assumption.
  - apply ptr_outside_block; assumption.
  - intros Hout. destruct (ptroutofrange (env s)) eqn:Hp; [reflexivity|].
    exfalso. apply Hout. apply ptr_in_block; assumption.
  - intros Hin. apply load_in_block, ptr_in_block; assumption.
  - intros Hc. unfold step. known_char Hc. reflexivity.
  - intros Hc. unfold step. known_char Hc. reflexivity.
Qed.

Lemma interpret_checks_bounds_before_access_witness :
  let code := list_ascii_of_string "<+" in
  let s := {| codeptr := 1; env := mk_env [0; 0] (-1) 0 1; con := no_keys |} in
  (forall fuel o s', interpret_loop t_int code fuel s = Halted o s' -> o <> Undefined) /\
  (In (deref code (codeptr s)) ["+"; "-"; "."; ":"; ","; "["]%char ->
     ((exists i s', step t_int code s = Stop (Failure (AccessViolation i)) s') <->
      ptroutofrange (env s) = true) /\
     (ptroutofrange (env s) = true <->
      ~ (0 <= ptr (env s) < Z.of_nat (length (tape (env s))))) /\
     (ptroutofrange (env s) = false ->
      exists v, load (tape (env s)) (ptr (env s)) = Some v)) /\
  (deref code (codeptr s) = ">"%char ->
     step t_int code s =
       Next {| codeptr := codeptr s + 1; env := set_ptr (env s) (ptr (env s) + 1);
               con := con s |}) /\
  (deref code (codeptr s) = "<"%char ->
     step t_int code s =
       Next {| codeptr := codeptr s + 1; env := set_ptr (env s) (ptr (env s) - 1);
               con := con s |}).
Proof.
  intros code s.
  apply (interpret_checks_bounds_before_access t_int code s).
  split; reflexivity.
Defined.

(** ** The interpreter: state at an access violation *)

Lemma step_access_violation_inv t code s i s' :
  step t code s = Stop (Failure (AccessViolation i)) s' ->
  s' = {| codeptr := codeptr s; env := env s;
          con := printf (diagnostic (AccessViolation i)) (con s) |} /\
  ptroutofrange (env s) = true.
Proof.
  unfold step, write_cell_and_advance, raise, _getch.
  repeat match goal with
  | |- context [if ?b then _ else _] => destruct b eqn:?
  | |- context [match ?x with Some _ => _ | None => _ end] => destruct x eqn:?
  end;
  intros H; try discriminate; injection H as <- <-; auto.
Qed.

Lemma interpret_loop_halted_inv t code fuel : forall s o s',
  interpret_loop t code fuel s = Halted o s' ->
  (o = Success /\ exists n, passes t code n s = Some s') \/
  (exists n s_n, passes t code n s = Some s_n /\
                 (deref code (codeptr s_n) =? NUL)%char = false /\
                 step t code s_n = Stop o s').
Proof.
  induction fuel as [|fuel IH]; intros s o s'; simpl.
  - destruct (_ =? _)%char; [|discriminate].
    intros [= <- <-]. left. split; [reflexivity|]. exists 0%nat. reflexivity.
  - destruct (_ =? _)%char eqn:Hend.
    + intros [= <- <-]. left. split; [reflexivity|]. exists 0%nat. reflexivity.
    + destruct (step t code s) as [s1|o1 s1] eqn:Hstep.
      * intros Hrun. destruct (IH _ _ _ Hrun) as [(-> & n & Hn)|(n & s_n & Hn & Hc & Hs)].
        -- left. split; [reflexivity|]. exists (S n). simpl. now rewrite Hend, Hstep.
        -- right. exists (S n), s_n. simpl. now rewrite Hend, Hstep.
      * intros [= <- <-]. right. exists 0%nat, s. auto.
Qed.

(** C8. When [interpret] returns after an access violation, the environment
    it leaves is the one reached by the passes that completed before the
    offending instruction: that instruction found the cursor out of range
    and changed neither a cell nor the cursor (nor [codeptr]); all it did
    was print its diagnostic. *)
Theorem access_violation_leaves_state
    (t : storage_t) (code : list ascii) (fuel : nat)
    (e : xl_brainfuck_env) (c : console) (i : intent) (s' : istate) :
  interpret t code fuel e c = Halted (Failure (AccessViolation i)) s' ->
  exists (n : nat) (s_n : istate),
    passes t code n {| codeptr := 0; env := e; con := c |} = Some s_n /\
    step t code s_n = Stop (Failure (AccessViolation i)) s' /\
    ptroutofrange (env s_n) = true /\
    env s' = env s_n /\
    tape (env s') = tape (env s_n) /\
    ptr (env s') = ptr (env s_n) /\
    codeptr s' = codeptr s_n /\
    con s' = printf (diagnostic (AccessViolation i)) (con s_n).
Proof.
  unfold interpret. intros Hrun.
  apply interpret_loop_halted_inv in Hrun as [(Ho & _)|(n & s_n & Hn & _ & Hstep)];
    [discriminate|].
  exists n, s_n.
  destruct (step_access_violation_inv _ _ _ _ _ Hstep) as [-> Hout].
  simpl. repeat split; assumption.
Qed.

Lemma access_violation_leaves_state_witness :
  exists (n : nat) (s_n : istate),
    passes t_int (list_ascii_of_string "+>+>-") n
      {| codeptr := 0; env := xl_brainfuck_env_ctor 2; con := no_keys |} = Some s_n /\
    step t_int (list_ascii_of_string "+>+>-") s_n =
      Stop (Failure (AccessViolation WriteIntent))
        {| codeptr := 4; env := mk_env [1; 1] 2 0 1;
           con := printf (diagnostic (AccessViolation WriteIntent)) no_keys |} /\
    ptroutofrange (env s_n) = true /\
    mk_env [1; 1] 2 0 1 = env s_n /\
    [1; 1] = tape (env s_n) /\
    2 = ptr (env s_n) /\
    4 = codeptr s_n /\
    printf (diagnostic (AccessViolation WriteIntent)) no_keys =
      printf (diagnostic (AccessViolation WriteIntent)) (con s_n).
Proof.
  apply (access_violation_leaves_state t_int (list_ascii_of_string "+>+>-") 10
           (xl_brainfuck_env_ctor 2) no_keys WriteIntent
           {| codeptr := 4; env := mk_env [1; 1] 2 0 1;
              con := printf (diagnostic (AccessViolation WriteIntent)) no_keys |}).
  reflexivity.
Defined.

(** ** The interpreter: brackets *)

Lemma deref_in_string code p c :
  deref code p = c -> c <> NUL ->
  0 <= p < Z.of_nat (length code) /\ code !! Z.to_nat p = Some c.
Proof.
  unfold deref. intros H Hc.
  destruct (Z.ltb_spec p 0); [congruence|].
  destruct (code !! Z.to_nat p) as [d|] eqn:Hd; simpl in H; [|congruence].
  apply lookup_lt_Some in Hd as Hlt. subst d. split; [lia|reflexivity].
Qed.

Lemma deref_lookup code (k : nat) c :
  code !! k = Some c -> deref code (Z.of_nat k) = c.
Proof.
  intros H. unfold deref. destruct (Z.ltb_spec (Z.of_nat k) 0); [lia|].
  now rewrite Nat2Z.id, H.
Qed.

Lemma wrap_unsigned_small w z : 0 <= z < 2 ^ w -> wrap_unsigned w z = z.
Proof. intros H. unfold wrap_unsigned. apply Z.mod_small. exact H. Qed.

(** The search loop of the ['['] case computes the forward search of the
    Loop Matcher as long as the 32-bit counter cannot wrap. *)
Lemma search_forward_refines rest : forall p count,
  c_string rest -> 0 <= p -> 1 <= count ->
  count + Z.of_nat (length rest) < 2 ^ 32 ->
  search_forward rest p count =
    (Z.of_nat <$> forward_depth_scan rest (Z.to_nat p) (Z.to_nat count)).
Proof.
  induction rest as [|c rest IH]; intros p count Hstr Hp Hcount Hbound; [reflexivity|].
  apply Forall_cons in Hstr as [Hc Hstr]. simpl length in Hbound.
  cbn [search_forward forward_depth_scan].
  destruct (Ascii.eqb_spec c NUL) as [?|_]; [contradiction|].
  destruct (Ascii.eqb_spec c "[") as [_|_].
  - rewrite wrap_unsigned_small by lia.
    rewrite IH by (assumption || lia).
    replace (Z.to_nat (p + 1)) with (S (Z.to_nat p)) by lia.
    replace (Z.to_nat (count + 1)) with (S (Z.to_nat count)) by lia.
    reflexivity.
  - destruct (Ascii.eqb_spec c "]") as [_|_].
    + rewrite wrap_unsigned_small by lia.
      destruct (Z.eqb_spec (count - 1) 0) as [H0|H0].
      * replace (Z.to_nat count) with 1%nat by lia. simpl. f_equal. lia.
      * destruct (Z.to_nat count) as [|[|d]] eqn:Hd; [lia|lia|].
        rewrite IH by (assumption || lia).
        replace (Z.to_nat (p + 1)) with (S (Z.to_nat p)) by lia.
        replace (Z.to_nat (count - 1)) with (S d) by lia.
        reflexivity.
    + rewrite IH by (assumption || lia).
      replace (Z.to_nat (p + 1)) with (S (Z.to_nat p)) by lia.
      reflexivity.
Qed.

(** The forward search answers with the position of a [']'] to the right. *)
Lemma forward_depth_scan_finds suffix : forall index depth j,
  forward_depth_scan suffix index depth = Some j ->
  (index <= j)%nat /\ suffix !! (j - index)%nat = Some "]"%char.
Proof.
  induction suffix as [|c suffix IH]; intros index depth j; [discriminate|].
  cbn [forward_depth_scan].
  assert (Hrec : forall d, forward_depth_scan suffix (S index) d = Some j ->
            (index <= j)%nat /\ (c :: suffix) !! (j - index)%nat = Some "]"%char).
  { intros d Hd. apply IH in Hd as [Hle Hget]. split; [lia|].
    replace (j - index)%nat with (S (j - S index)) by lia. exact Hget. }
  destruct (Ascii.eqb_spec c "["); [apply Hrec|].
  destruct (Ascii.eqb_spec c "]") as [->|]; [|apply Hrec].
  destruct depth as [|[|d]]; [| |apply Hrec];
    intros [= <-]; (split; [lia|]); now rewrite Nat.sub_diag.
Qed.

(** C3. At a ['['] of a C string shorter than 2^32 characters, in an
    environment built by the constructor: with the cursor out of range the
    pass returns an access violation (read); with the cursor in range and no
    forward match it returns a syntax error (missing [']']); with a forward
    match at [close_index], which is a [']'], it goes on just past
    [close_index] when the current cell is 0 and just past the ['['] when
    it is not. *)
Theorem open_bracket_pass (t : storage_t) (code : list ascii) (s : istate) :
  c_string code -> Z.of_nat (length code) < 2 ^ 32 -> env_ok (env s) ->
  deref code (codeptr s) = "["%char ->
  if ptroutofrange (env s)
  then step t code s =
         Stop (Failure (AccessViolation ReadIntent))
           {| codeptr := codeptr s; env := env s;
              con := printf (diagnostic (AccessViolation ReadIntent)) (con s) |}
  else exists v,
         load (tape (env s)) (ptr (env s)) = Some v /\
         match find_forward_match code (Z.to_nat (codeptr s)) with
         | None =>
             step t code s =
               Stop (Failure (SyntaxError "]"))
                 {| codeptr := codeptr s; env := env s;
                    con := printf (diagnostic (SyntaxError "]")) (con s) |}
         | Some close_index =>
             deref code (Z.of_nat close_index) = "]"%char /\
             step t code s =
               Next {| codeptr := if v =? 0 then Z.of_nat close_index + 1
                                  else codeptr s + 1;
                       env := env s; con := con s |}
         end.
Proof.
  intros Hstr Hlen Hok Hc.
  destruct (deref_in_string _ _ _ Hc) as [Hrange _]; [discriminate|].
  unfold step. known_char Hc.
  destruct (ptroutofrange (env s)) eqn:Hout; [reflexivity|].
  destruct (load_in_block (tape (env s)) (ptr (env s))) as [v Hv];
    [apply ptr_in_block; assumption|].
  exists v. split; [exact Hv|].
  rewrite search_forward_refines;
    [ | apply Forall_drop; exact Hstr | lia | lia | rewrite length_drop; lia ].
  unfold find_forward_match.
  replace (Z.to_nat (codeptr s + 1)) with (S (Z.to_nat (codeptr s))) by lia.
  destruct (forward_depth_scan _ _ _) as [close_index|] eqn:Hscan; simpl.
  - apply forward_depth_scan_finds in Hscan as [Hle Hget].
    rewrite lookup_drop in Hget.
    replace (S (Z.to_nat (codeptr s)) + (close_index - S (Z.to_nat (codeptr s))))%nat
      with close_index in Hget by lia.
    split; [apply deref_lookup; exact Hget|].
    rewrite Hv. destruct (v =? 0); reflexivity.
  - reflexivity.
Qed.

Lemma open_bracket_pass_witness :
  let code := list_ascii_of_string "+[[-]>]<" in
  exists v,
    load [3; 0] 0 = Some v /\
    match find_forward_match code 1 with
    | None =>
        step t_int code {| codeptr := 1; env := mk_env [3; 0] 0 0 1; con := no_keys |} =
          Stop (Failure (SyntaxError "]"))
            {| codeptr := 1; env := mk_env [3; 0] 0 0 1;
               con := printf (diagnostic (SyntaxError "]")) no_keys |}
    | Some close_index =>
        deref code (Z.of_nat close_index) = "]"%char /\
        step t_int code {| codeptr := 1; env := mk_env [3; 0] 0 0 1; con := no_keys |} =
          Next {| codeptr := if v =? 0 then Z.of_nat close_index + 1 else 1 + 1;
                  env := mk_env [3; 0] 0 0 1; con := no_keys |}
    end.
Proof.
  intros code.
  apply (open_bracket_pass t_int code
           {| codeptr := 1; env := mk_env [3; 0] 0 0 1; con := no_keys |}).
  - repeat constructor; discriminate.
  - reflexivity.
  - split; reflexivity.
  - reflexivity.
Defined.

(** The search loop of the [']'] case computes the backward search of the
    Loop Matcher as long as the 32-bit counter cannot wrap. *)
Lemma search_backward_refines before : forall count,
  1 <= count ->
  count + Z.of_nat (length before) < 2 ^ 32 ->
  search_backward before (Z.of_nat (length before) - 1) count =
    (Z.of_nat <$> backward_depth_scan before (length before) (Z.to_nat count)).
Proof.
  induction before as [|c before IH]; intros count Hcount Hbound; [reflexivity|].
  simpl length in *. cbn [search_backward backward_depth_scan Nat.pred].
  replace (Z.of_nat (S (length before)) - 1 - 1) with (Z.of_nat (length before) - 1) by lia.
  destruct (Ascii.eqb_spec c "]") as [_|_].
  - rewrite wrap_unsigned_small by lia.
    rewrite IH by lia.
    replace (Z.to_nat (count + 1)) with (S (Z.to_nat count)) by lia.
    reflexivity.
  - destruct (Ascii.eqb_spec c "[") as [_|_].
    + rewrite wrap_unsigned_small by lia.
      destruct (Z.eqb_spec (count - 1) 0) as [H0|H0].
      * replace (Z.to_nat count) with 1%nat by lia. simpl. f_equal. lia.
      * destruct (Z.to_nat count) as [|[|d]] eqn:Hd; [lia|lia|].
        rewrite IH by lia.
        replace (Z.to_nat (count - 1)) with (S d) by lia.
        reflexivity.
    + rewrite IH by lia. reflexivity.
Qed.

(** The backward search answers with the position of a ['['] to the left. *)
Lemma backward_depth_scan_finds prefix_rev : forall depth j,
  backward_depth_scan prefix_rev (length prefix_rev) depth = Some j ->
  (j < length prefix_rev)%nat /\ rev prefix_rev !! j = Some "["%char.
Proof.
  induction prefix_rev as [|c prefix_rev IH]; intros depth j; [discriminate|].
  simpl length. cbn [backward_depth_scan Nat.pred].
  assert (Hrec : forall d, backward_depth_scan prefix_rev (length prefix_rev) d = Some j ->
            (j < S (length prefix_rev))%nat /\ rev (c :: prefix_rev) !! j = Some "["%char).
  { intros d Hd. apply IH in Hd as [Hlt Hget]. split; [lia|].
    simpl. now apply lookup_app_l_Some. }
  destruct (Ascii.eqb_spec c "]"); [apply Hrec|].
  destruct (Ascii.eqb_spec c "[") as [->|]; [|apply Hrec].
  destruct depth as [|[|d]]; [| |apply Hrec];
    intros [= <-]; (split; [lia|]); simpl;
    rewrite lookup_app_r by (rewrite length_rev; lia);
    now rewrite length_rev, Nat.sub_diag.
Qed.

(** C6. At a [']'] of a stream shorter than 2^32 characters the pass neither
    checks the cursor nor touches the environment: when the backward search
    of the Loop Matcher finds [open_index], a ['['] to the left, [codeptr]
    is set to [open_index], so the next pass is the loop check at that
    ['[']; when the search reaches the start of the stream, the pass returns
    a syntax error (missing ['[']). *)
Theorem close_bracket_pass (t : storage_t) (code : list ascii) (s : istate) :
  Z.of_nat (length code) < 2 ^ 32 ->
  deref code (codeptr s) = "]"%char ->
  match find_backward_match code (Z.to_nat (codeptr s)) with
  | Some open_index =>
      step t code s =
        Next {| codeptr := Z.of_nat open_index; env := env s; con := con s |} /\
      Z.of_nat open_index < codeptr s /\
      deref code (Z.of_nat open_index) = "["%char
  | None =>
      step t code s =
        Stop (Failure (SyntaxError "["))
          {| codeptr := codeptr s; env := env s;
             con := printf (diagnostic (SyntaxError "[")) (con s) |}
  end.
Proof.
  intros Hlen Hc.
  destruct (deref_in_string _ _ _ Hc) as [Hrange _]; [discriminate|].
  unfold step. known_char Hc.
  set (before := rev (take (Z.to_nat (codeptr s)) code)).
  assert (Hbefore : length before = Z.to_nat (codeptr s)).
  { unfold before. rewrite length_rev, length_take. lia. }
  replace (codeptr s - 1) with (Z.of_nat (length before) - 1) by lia.
  rewrite search_backward_refines by lia.
  unfold find_backward_match. fold before. rewrite <- Hbefore.
  destruct (backward_depth_scan _ _ _) as [open_index|] eqn:Hscan; simpl.
  - apply backward_depth_scan_finds in Hscan as [Hlt Hget].
    split; [reflexivity|]. split; [lia|].
    apply deref_lookup. unfold before in Hget.
    rewrite rev_involutive in Hget.
    rewrite lookup_take_Some in Hget. apply Hget.
  - reflexivity.
Qed.

Lemma close_bracket_pass_witness :
  let code := list_ascii_of_string "+[[-]>]<" in
  let s := {| codeptr := 6; env := mk_env [0; 5] 1 0 1; con := no_keys |} in
  match find_backward_match code 6 with
  | Some open_index =>
      step t_int code s =
        Next {| codeptr := Z.of_nat open_index; env := env s; con := con s |} /\
      Z.of_nat open_index < codeptr s /\
      deref code (Z.of_nat open_index) = "["%char
  | None =>
      step t_int code s =
        Stop (Failure (SyntaxError "["))
          {| codeptr := codeptr s; env := env s;
             con := printf (diagnostic (SyntaxError "[")) (con s) |}
  end.
Proof.
  intros code s.
  apply (close_bracket_pass t_int code s); reflexivity.
Defined.

(** ** The translator *)

Lemma occurrences_app c s1 s2 :
  occurrences c (s1 ++ s2) = occurrences c s1 + occurrences c s2.
Proof. induction s1 as [|d s1 IH]; simpl; [reflexivity | rewrite IH; lia]. Qed.

Lemma occurrences_bounds c s : 0 <= occurrences c s <= Z.of_nat (length s).
Proof.
  induction s as [|d s IH]; simpl; [lia|].
  destruct (d =? c)%char; lia.
Qed.

Lemma occurrences_take_succ c code (p : nat) d :
  code !! p = Some d ->
  occurrences c (take (S p) code) =
    occurrences c (take p code) + (if (d =? c)%char then 1 else 0).
Proof.
  intros H. erewrite take_S_r by exact H.
  rewrite occurrences_app. simpl. lia.
Qed.

Lemma wrap_signed_small w z :
  0 < w -> - 2 ^ (w - 1) <= z < 2 ^ (w - 1) -> wrap_signed w z = z.
Proof.
  intros Hw H. unfold wrap_signed.
  assert (2 ^ w = 2 * 2 ^ (w - 1)) as ->.
  { replace w with (Z.succ (w - 1)) at 1 by lia. apply Z.pow_succ_r. lia. }
  rewrite Z.mod_small by lia. lia.
Qed.

(** The collating loop stops inside the string, passes only over its two
    characters, and passes over the first one when it is one of them. *)
Lemma collate_span t up down rest : forall p total p' total',
  collate t up down rest p total = (p', total') ->
  p <= p' <= p + Z.of_nat (length rest) /\
  (forall c, c <> up -> c <> down ->
     occurrences c (take (Z.to_nat (p' - p)) rest) = 0) /\
  (forall c rest', rest = c :: rest' -> c = up \/ c = down -> p < p').
Proof.
  induction rest as [|c rest IH]; intros p total p' total'; simpl.
  - intros [= <- <-]. repeat split; try lia.
    + intros c _ _. now rewrite take_nil.
    + discriminate.
  - assert (Hrec : forall total1,
              collate t up down rest (p + 1) total1 = (p', total') ->
              c = up \/ c = down ->
              p <= p' <= p + Z.of_nat (S (length rest)) /\
              (forall c0, c0 <> up -> c0 <> down ->
                 occurrences c0 (take (Z.to_nat (p' - p)) (c :: rest)) = 0) /\
              (forall c0 rest', c :: rest = c0 :: rest' -> c0 = up \/ c0 = down -> p < p')).
    { intros total1 H Hc. apply IH in H as (Hle & Hocc & _).
      split; [lia|]. split.
      - intros c0 Hup Hdown.
        replace (Z.to_nat (p' - p)) with (S (Z.to_nat (p' - (p + 1)))) by lia.
        simpl. rewrite Hocc by assumption.
        destruct (Ascii.eqb_spec c c0); [|reflexivity].
        subst c0. destruct Hc; congruence.
      - intros. lia. }
    destruct (Ascii.eqb_spec c up) as [Hup|Hup]; [intros H; eapply Hrec; eauto|].
    destruct (Ascii.eqb_spec c down) as [Hdown|Hdown]; [intros H; eapply Hrec; eauto|].
    intros [= <- <-]. split; [lia|]. split.
    + intros c0 _ _. now rewrite Z.sub_diag.
    + intros c0 rest' [= <- _] [?|?]; congruence.
Qed.

Lemma emit_adjust_locals target ending total ts :
  bfptr (emit_adjust target ending total ts) = bfptr ts /\
  indentlevel (emit_adjust target ending total ts) = indentlevel ts.
Proof.
  unfold emit_adjust.
  destruct (total >? 0), (total =? 1), (total <? 0), (total =? -1); split; reflexivity.
Qed.

Lemma level_at_next code p c :
  0 <= p -> code !! Z.to_nat p = Some c ->
  level_at code (p + 1) =
    level_at code p + (if (c =? "[")%char then 1 else 0)
                    - (if (c =? "]")%char then 1 else 0).
Proof.
  intros Hp Hc. unfold level_at.
  replace (Z.to_nat (p + 1)) with (S (Z.to_nat p)) by lia.
  rewrite !(occurrences_take_succ _ _ _ _ Hc). lia.
Qed.

Lemma level_at_skip code p p' :
  0 <= p <= p' ->
  occurrences "[" (take (Z.to_nat (p' - p)) (drop (Z.to_nat p) code)) = 0 ->
  occurrences "]" (take (Z.to_nat (p' - p)) (drop (Z.to_nat p) code)) = 0 ->
  level_at code p' = level_at code p.
Proof.
  intros Hp H1 H2. unfold level_at.
  replace (Z.to_nat p') with (Z.to_nat p + Z.to_nat (p' - p))%nat by lia.
  rewrite <- !take_take_drop, !occurrences_app, H1, H2. lia.
Qed.

Lemma level_at_bounds code p :
  0 <= p -> - p <= level_at code p - 1 <= p.
Proof.
  intros Hp. unfold level_at.
  pose proof (occurrences_bounds "[" (take (Z.to_nat p) code)).
  pose proof (occurrences_bounds "]" (take (Z.to_nat p) code)).
  pose proof (length_take_le code (Z.to_nat p)).
  rewrite length_take in *. lia.
Qed.

Lemma drop_deref code p :
  0 <= p -> deref code p <> NUL ->
  exists rest, drop (Z.to_nat p) code = deref code p :: rest.
Proof.
  intros Hp Hc.
  destruct (deref_in_string code p _ eq_refl Hc) as [_ Hget].
  exists (drop (S (Z.to_nat p)) code).
  apply drop_S. exact Hget.
Qed.

(** One pass of the loop of [translate] moves [bfptr] forward inside the
    string and keeps [indentlevel] equal to the nesting depth at [bfptr]. *)
Lemma translate_step_inv t code ts :
  Z.of_nat (length code) < 2 ^ 31 - 1 ->
  0 <= bfptr ts -> deref code (bfptr ts) <> NUL ->
  indentlevel ts = level_at code (bfptr ts) ->
  bfptr ts < bfptr (translate_step t code ts) <= Z.of_nat (length code) /\
  indentlevel (translate_step t code ts) =
    level_at code (bfptr (translate_step t code ts)).
Proof.
  intros Hlen Hp Hc Hlevel.
  destruct (deref_in_string code (bfptr ts) _ eq_refl Hc) as [Hrange Hget].
  destruct (drop_deref code (bfptr ts) Hp Hc) as [rest Hdrop].
  pose proof (level_at_next code (bfptr ts) _ Hp Hget) as Hnext.
  assert (Hopen : deref code (bfptr ts) = "["%char ->
            level_at code (bfptr ts + 1) = level_at code (bfptr ts) + 1).
  { intros E. rewrite Hnext, E.
    change ("[" =? "[")%char with true. change ("[" =? "]")%char with false. cbv iota. lia. }
  assert (Hclose : deref code (bfptr ts) = "]"%char ->
            level_at code (bfptr ts + 1) = level_at code (bfptr ts) - 1).
  { intros E. rewrite Hnext, E.
    change ("]" =? "[")%char with false. change ("]" =? "]")%char with true. cbv iota. lia. }
  assert (Hother : deref code (bfptr ts) <> "["%char -> deref code (bfptr ts) <> "]"%char ->
            level_at code (bfptr ts + 1) = level_at code (bfptr ts)).
  { intros E E'. rewrite Hnext.
    destruct (Ascii.eqb_spec (deref code (bfptr ts)) "["); [contradiction|].
    destruct (Ascii.eqb_spec (deref code (bfptr ts)) "]"); [contradiction|]. lia. }
  clear Hnext.
  pose proof (level_at_bounds code (bfptr ts) Hp) as Hb.
  assert (Hcollate : forall up down ts1,
            deref code (bfptr ts) = up \/ deref code (bfptr ts) = down ->
            up <> "["%char -> down <> "["%char -> up <> "]"%char -> down <> "]"%char ->
            indentlevel ts1 = indentlevel ts ->
            forall p' total',
              collate t up down (drop (Z.to_nat (bfptr ts)) code) (bfptr ts) 0 = (p', total') ->
              bfptr ts < p' <= Z.of_nat (length code) /\
              indentlevel ts1 = level_at code p').
  { intros up down ts1 Hud H1 H2 H3 H4 Hts1 p' total' Hcol.
    apply collate_span in Hcol as (Hle & Hocc & Hadv).
    rewrite length_drop in Hle.
    specialize (Hadv _ _ Hdrop Hud).
    split; [lia|].
    rewrite Hts1, Hlevel. symmetry. apply level_at_skip; [lia| |];
      apply Hocc; congruence. }
  unfold translate_step.
  destruct (Ascii.eqb_spec (deref code (bfptr ts)) ">") as [E1|E1];
    [|destruct (Ascii.eqb_spec (deref code (bfptr ts)) "<") as [E2|E2]];
    cbn [orb].
  1,2: destruct (collate t ">" "<" _ _ _) as [p' total'] eqn:Hcol;
       destruct ((deref code p' =? "+")%char || (deref code p' =? "-")%char);
       cbn [set_bfptr bfptr indentlevel emit];
       (eapply (Hcollate ">"%char "<"%char); [| | | | | | exact Hcol]; try discriminate;
        [ auto | rewrite (proj2 (emit_adjust_locals _ _ _ _)); reflexivity ]).
  destruct (Ascii.eqb_spec (deref code (bfptr ts)) "+") as [E3|E3];
    [|destruct (Ascii.eqb_spec (deref code (bfptr ts)) "-") as [E4|E4]];
    cbn [orb].
  1,2: destruct (collate t "+" "-" _ _ _) as [p' total'] eqn:Hcol;
       cbn [set_bfptr bfptr indentlevel];
       (eapply (Hcollate "+"%char "-"%char); [| | | | | | exact Hcol]; try discriminate;
        [ auto
        | rewrite (proj2 (emit_adjust_locals _ _ _ _));
          destruct (_ || _); reflexivity ]).
  assert (Hwrap : forall z, - bfptr ts - 1 <= z - 1 <= bfptr ts + 1 -> wrap_signed 32 z = z).
  { intros z Hz. apply wrap_signed_small; [lia|].
    change (2 ^ (32 - 1)) with 2147483648.
    change (2 ^ 31) with 2147483648 in Hlen. lia. }
  destruct (Ascii.eqb_spec (deref code (bfptr ts)) ".") as [E5|E5];
    [|destruct (Ascii.eqb_spec (deref code (bfptr ts)) ",") as [E6|E6]].
  1,2: cbn [set_bfptr bfptr indentlevel emit emit_indent];
       rewrite Hother by (intros E; rewrite E in *; discriminate); split; lia.
  destruct (Ascii.eqb_spec (deref code (bfptr ts)) "[") as [E7|E7].
  { cbn [set_bfptr set_indentlevel bfptr indentlevel emit emit_indent].
    rewrite Hopen, Hwrap by (assumption || lia). split; lia. }
  destruct (Ascii.eqb_spec (deref code (bfptr ts)) "]") as [E8|E8].
  { cbn [set_bfptr set_indentlevel bfptr indentlevel emit emit_indent].
    rewrite Hclose, Hwrap by (assumption || lia). split; lia. }
  cbn [set_bfptr bfptr indentlevel].
  rewrite Hother by assumption. split; lia.
Qed.

(** One pass moves [bfptr] forward and keeps it inside the string, whatever
    the string is. *)
Lemma translate_step_advances t code ts :
  0 <= bfptr ts -> deref code (bfptr ts) <> NUL ->
  bfptr ts < bfptr (translate_step t code ts) <= Z.of_nat (length code).
Proof.
  intros Hp Hc.
  destruct (deref_in_string code (bfptr ts) _ eq_refl Hc) as [Hrange _].
  destruct (drop_deref code (bfptr ts) Hp Hc) as [rest Hdrop].
  assert (Hcollate : forall up down,
            deref code (bfptr ts) = up \/ deref code (bfptr ts) = down ->
            forall p' total',
              collate t up down (drop (Z.to_nat (bfptr ts)) code) (bfptr ts) 0 = (p', total') ->
              bfptr ts < p' <= Z.of_nat (length code)).
  { intros up down Hud p' total' Hcol.
    apply collate_span in Hcol as (Hle & _ & Hadv).
    rewrite length_drop in Hle. specialize (Hadv _ _ Hdrop Hud). lia. }
  unfold translate_step.
  destruct (Ascii.eqb_spec (deref code (bfptr ts)) ">") as [E1|E1];
    [|destruct (Ascii.eqb_spec (deref code (bfptr ts)) "<") as [E2|E2]];
    cbn [orb].
  1,2: destruct (collate t ">" "<" _ _ _) as [p' total'] eqn:Hcol;
       cbn [set_bfptr bfptr]; eapply Hcollate; [|exact Hcol]; auto.
  destruct (Ascii.eqb_spec (deref code (bfptr ts)) "+") as [E3|E3];
    [|destruct (Ascii.eqb_spec (deref code (bfptr ts)) "-") as [E4|E4]];
    cbn [orb].
  1,2: destruct (collate t "+" "-" _ _ _) as [p' total'] eqn:Hcol;
       cbn [set_bfptr bfptr]; eapply Hcollate; [|exact Hcol]; auto.
  repeat match goal with
  | |- context [if (?a =? ?b)%char then _ else _] => destruct (a =? b)%char
  end; cbn [set_bfptr bfptr]; lia.
Qed.

(** The loop of [translate] ends, within one pass per character, with
    [bfptr] at a terminator. *)
Lemma translate_loop_total t code fuel : forall ts,
  0 <= bfptr ts ->
  Z.of_nat (length code) - bfptr ts <= Z.of_nat fuel ->
  exists ts',
    translate_loop t code fuel ts = Some ts' /\
    deref code (bfptr ts') = NUL /\
    bfptr ts <= bfptr ts'.
Proof.
  induction fuel as [|fuel IH]; intros ts Hp Hfuel; simpl.
  - destruct (Ascii.eqb_spec (deref code (bfptr ts)) NUL) as [E|E].
    + exists ts. repeat split; [assumption | lia].
    + destruct (deref_in_string code (bfptr ts) _ eq_refl E). lia.
  - destruct (Ascii.eqb_spec (deref code (bfptr ts)) NUL) as [E|E].
    + exists ts. repeat split; [assumption | lia].
    + pose proof (translate_step_advances t code ts Hp E) as Hadv.
      destruct (IH (translate_step t code ts)) as (ts' & Hrun & Hend & Hle); [lia|lia|].
      exists ts'. repeat split; [assumption | assumption | lia].
Qed.

(** The loop keeps [indentlevel] equal to the nesting depth at [bfptr]. *)
Lemma translate_loop_inv t code fuel : forall ts ts',
  Z.of_nat (length code) < 2 ^ 31 - 1 ->
  0 <= bfptr ts ->
  indentlevel ts = level_at code (bfptr ts) ->
  translate_loop t code fuel ts = Some ts' ->
  0 <= bfptr ts' /\ indentlevel ts' = level_at code (bfptr ts').
Proof.
  induction fuel as [|fuel IH]; intros ts ts' Hlen Hp Hlevel; simpl.
  - destruct (_ =? _)%char; [|discriminate]. intros [= <-]. auto.
  - destruct (Ascii.eqb_spec (deref code (bfptr ts)) NUL) as [E|E].
    + intros [= <-]. auto.
    + destruct (translate_step_inv t code ts Hlen Hp E Hlevel) as [Hadv Hlevel'].
      apply IH; [assumption | lia | assumption].
Qed.

Lemma c_string_end code p :
  c_string code -> 0 <= p -> deref code p = NUL -> Z.of_nat (length code) <= p.
Proof.
  intros Hstr Hp Hend.
  destruct (Z.le_gt_cases (Z.of_nat (length code)) p) as [|Hlt]; [assumption|].
  exfalso. unfold deref in Hend.
  destruct (Z.ltb_spec p 0); [lia|].
  destruct (lookup_lt_is_Some_2 code (Z.to_nat p)) as [c Hc]; [lia|].
  rewrite Hc in Hend. simpl in Hend. subst c.
  unfold c_string in Hstr. rewrite Forall_forall in Hstr.
  apply (Hstr NUL); [|reflexivity].
  apply list_elem_of_lookup. eauto.
Qed.

Lemma prologue_locals t this :
  bfptr (prologue t this) = 0 /\ indentlevel (prologue t this) = 1.
Proof. split; reflexivity. Qed.

Lemma epilogue_locals ts :
  bfptr (epilogue ts) = bfptr ts /\
  indentlevel (epilogue ts) = wrap_signed 32 (indentlevel ts - 1).
Proof. split; reflexivity. Qed.

(** C5. For every C string [bfcode] short enough for the [int] counter,
    [translate] runs its loop to the end of the string whatever the
    brackets are, and only then decides: the counter it is left with after
    the epilogue is the number of ['['] minus the number of [']'], and the
    returned status is nonzero exactly when that counter is nonzero, that is
    exactly when the two numbers differ.  Nothing else enters the status. *)
Theorem translate_status_is_bracket_count
    (t : storage_t) (this : xl_brainfuck_env) (bfcode : list ascii) :
  c_string bfcode -> Z.of_nat (length bfcode) < 2 ^ 31 - 1 ->
  exists ts tr,
    translate_body t this bfcode = Some ts /\
    bfptr ts = Z.of_nat (length bfcode) /\
    translate t this bfcode = Some tr /\
    indentlevel (epilogue ts) = occurrences "[" bfcode - occurrences "]" bfcode /\
    result tr = (if indentlevel (epilogue ts) =? 0 then 0 else 1) /\
    (result tr <> 0 <-> indentlevel (epilogue ts) <> 0) /\
    (result tr <> 0 <-> occurrences "[" bfcode <> occurrences "]" bfcode).
Proof.
  intros Hstr Hlen.
  destruct (prologue_locals t this) as [Hp0 Hl0].
  destruct (translate_loop_total t bfcode (length bfcode) (prologue t this))
    as (ts & Hrun & Hend & Hle); [lia | lia |].
  destruct (translate_loop_inv t bfcode (length bfcode) (prologue t this) ts)
    as [Hp Hlevel]; [assumption | lia | rewrite Hp0, Hl0; reflexivity | assumption |].
  assert (Hstop : bfptr ts = Z.of_nat (length bfcode)).
  { pose proof (c_string_end bfcode (bfptr ts) Hstr Hp Hend) as Hge.
    destruct (Z.eq_dec (bfptr ts) (Z.of_nat (length bfcode))) as [|Hne]; [assumption|].
    exfalso. clear Hlevel.
    assert (Hnone : forall fuel ts0 ts1,
              translate_loop t bfcode fuel ts0 = Some ts1 ->
              0 <= bfptr ts0 <= Z.of_nat (length bfcode) ->
              bfptr ts1 <= Z.of_nat (length bfcode)).
    { induction fuel as [|fuel IH]; intros ts0 ts1; simpl.
      - destruct (_ =? _)%char; [|discriminate]. intros [= <-]. lia.
      - destruct (Ascii.eqb_spec (deref bfcode (bfptr ts0)) NUL) as [E|E].
        + intros [= <-]. lia.
        + intros H Hr. apply IH in H; [assumption|].
          pose proof (translate_step_advances t bfcode ts0 (proj1 Hr) E). lia. }
    apply Hnone in Hrun; lia. }
  assert (Hres : indentlevel (epilogue ts)
                 = occurrences "[" bfcode - occurrences "]" bfcode).
  { rewrite (proj2 (epilogue_locals ts)), Hlevel, Hstop.
    unfold level_at. rewrite Nat2Z.id, firstn_all.
    pose proof (occurrences_bounds "[" bfcode).
    pose proof (occurrences_bounds "]" bfcode).
    rewrite wrap_signed_small; [lia | lia |].
    change (2 ^ (32 - 1)) with 2147483648.
    change (2 ^ 31) with 2147483648 in Hlen. lia. }
  exists ts. eexists. unfold translate, translate_body in *. rewrite Hrun.
  split; [reflexivity|]. split; [assumption|]. split; [reflexivity|].
  split; [assumption|]. cbn [result]. split; [reflexivity|].
  destruct (Z.eqb_spec (indentlevel (epilogue ts)) 0) as [E|E]; split; split; intros H;
    try assumption; try congruence; try lia.
Qed.

Lemma translate_status_is_bracket_count_witness :
  let bfcode := list_ascii_of_string "][[+]" in
  let this := xl_brainfuck_env_ctor 8 in
  exists ts tr,
    translate_body t_int this bfcode = Some ts /\
    bfptr ts = Z.of_nat (length bfcode) /\
    translate t_int this bfcode = Some tr /\
    indentlevel (epilogue ts) = occurrences "[" bfcode - occurrences "]" bfcode /\
    result tr = (if indentlevel (epilogue ts) =? 0 then 0 else 1) /\
    (result tr <> 0 <-> indentlevel (epilogue ts) <> 0) /\
    (result tr <> 0 <-> occurrences "[" bfcode <> occurrences "]" bfcode).
Proof.
  intros bfcode this.
  apply (translate_status_is_bracket_count t_int this bfcode).
  - repeat constructor; discriminate.
  - reflexivity.
Defined.

(** C10. For every instruction stream [translate] completes and leaves the
    object it was called on as it was: every cell and the cursor are the
    same after the call as before.  It does not read them either: the same
    call on an environment with other cells and another cursor, between the
    same bounds, writes the same text and returns the same status. *)
Theorem translate_leaves_environment
    (t : storage_t) (this : xl_brainfuck_env) (bfcode : list ascii) :
  exists tr,
    translate t this bfcode = Some tr /\
    this_after tr = this /\
    tape (this_after tr) = tape this /\
    ptr (this_after tr) = ptr this /\
    forall (cells' : list Z) (ptr' : Z),
    exists tr',
      translate t (mk_env cells' ptr' (minaddr this) (maxaddr this)) bfcode = Some tr' /\
      text tr' = text tr /\ result tr' = result tr /\
      tape (this_after tr') = cells' /\ ptr (this_after tr') = ptr'.
Proof.
  destruct (prologue_locals t this) as [Hp0 _].
  destruct (translate_loop_total t bfcode (length bfcode) (prologue t this))
    as (ts & Hrun & _ & _); [lia | lia |].
  unfold translate, translate_body. rewrite Hrun.
  eexists. split; [reflexivity|]. cbn [this_after text result].
  repeat split.
  intros cells' ptr'.
  change (prologue t (mk_env cells' ptr' (minaddr this) (maxaddr this)))
    with (prologue t this).
  rewrite Hrun. eexists. split; [reflexivity|]. repeat split.
Qed.

(** ** The emitted program against the interpreter *)

(** C1 fails on the code at the stream ["++++."], [int] cells, 1024 of them.
    [interpret] returns 0 having written the one character of code 4.
    [translate] returns 0 too, but the statement it emits for ['.'] is
    [printf("%%c", tape[i]);], copied with [strcpy] so that the doubled
    percent sign stays in the text: the emitted program, read back and run
    on a tape of the same capacity and width, writes the two characters
    [%c] whatever the cell holds. *)
Theorem emitted_putchar_writes_percent_c :
  let code := list_ascii_of_string "++++." in
  let this := xl_brainfuck_env_ctor 1024 in
  exists (s : istate) (tr : translation) (p : cprogram) (cs : cstate),
    interpret t_int code 5 this no_keys = Halted Success s /\
    stdout (con s) = String (ascii_of_nat 4) EmptyString /\
    translate t_int this code = Some tr /\
    result tr = 0 /\
    read_program (text tr) = Some p /\
    cell_type p = t_int /\ cells p = 1024 /\
    body p = [CCell 4; CPrintf (lit "%%c"); CFree; CWait; CReturn] /\
    run_emitted 6 (text tr) no_keys = Some (CReturned cs) /\
    stdout (c_con cs) = "%c"%string /\
    stdout (c_con cs) <> stdout (con s) /\
    forall v : Z, c_printf (lit "%%c") v = "%c"%string.
Proof.
  intros code this.
  eexists _, _, _, _.
  split; [vm_compute; reflexivity|].
  split; [reflexivity|].
  split; [vm_compute; reflexivity|].
  split; [reflexivity|].
  split; [vm_compute; reflexivity|].
  split; [reflexivity|]. split; [reflexivity|]. split; [reflexivity|].
  split; [vm_compute; reflexivity|].
  split; [reflexivity|].
  split; [discriminate|].
  intros v. reflexivity.
Qed.

(** C2 fails on the code at the stream [">>+<+"], [unsigned char] cells, 300
    of them.  The run ["<"] is collated in a variable of the cell type, so
    its total is 255 and the statement emitted for it is [i += 255;].
    [interpret] ends with the cursor on cell 1 and cells 1 and 2 set; the
    emitted program ends with its index on cell 257 and cells 2 and 257
    set.  Neither leaves its tape. *)
Theorem collated_move_wraps_in_cell_type :
  let code := list_ascii_of_string ">>+<+" in
  let this := xl_brainfuck_env_ctor 300 in
  exists (s : istate) (tr : translation) (p : cprogram) (cs : cstate),
    collate t_uchar ">" "<" (list_ascii_of_string "<+") 3 0 = (4, 255) /\
    interpret t_uchar code 5 this no_keys = Halted Success s /\
    ptr (env s) = 1 /\
    tape (env s) = [0; 1; 1] ++ replicate 297 0 /\
    translate t_uchar this code = Some tr /\
    result tr = 0 /\
    read_program (text tr) = Some p /\
    cell_type p = t_uchar /\ cells p = 300 /\
    body p = [CIndex 2; CCell 1; CIndex 255; CCell 1; CFree; CWait; CReturn] /\
    run_emitted 8 (text tr) no_keys = Some (CReturned cs) /\
    c_i cs = 257 /\
    c_tape cs = [0; 0; 1] ++ replicate 254 0 ++ [1] ++ replicate 42 0.
Proof.
  intros code this.
  eexists _, _, _, _.
  split; [reflexivity|].
  split; [vm_compute; reflexivity|].
  split; [reflexivity|].
  split; [vm_compute; reflexivity|].
  split; [vm_compute; reflexivity|].
  split; [reflexivity|].
  split; [vm_compute; reflexivity|].
  split; [reflexivity|]. split; [reflexivity|]. split; [reflexivity|].
  split; [vm_compute; reflexivity|].
  split; [reflexivity|].
  vm_compute; reflexivity.
Qed.

(** ** Further properties of the environment *)

(** [reset()] twice in a row leaves what one [reset()] leaves. *)
Theorem reset_idempotent (e e' : xl_brainfuck_env) :
  env_ok e -> reset e = Some e' -> reset e' = Some e' /\ env_ok e'.
Proof.
  intros Hok Hreset.
  destruct (reset_of_ok e Hok) as (e1 & H1 & Hcells & Hptr & Hmin & Hmax).
  rewrite Hreset in H1. injection H1 as <-.
  assert (Hok' : env_ok e').
  { destruct Hok as [Ha Hb]. split; [congruence|].
    rewrite Hmax, Hb, Hcells, length_replicate. reflexivity. }
  split; [|exact Hok'].
  destruct (reset_of_ok e' Hok') as (e2 & H2 & Hcells2 & Hptr2 & Hmin2 & Hmax2).
  rewrite H2. f_equal.
  destruct e' as [c p lo hi], e2 as [c2 p2 lo2 hi2]; simpl in *.
  subst. rewrite length_replicate. reflexivity.
Qed.

Lemma reset_idempotent_witness :
  reset (mk_env [0; 0; 0] 0 0 2) = Some (mk_env [0; 0; 0] 0 0 2) /\
  env_ok (mk_env [0; 0; 0] 0 0 2).
Proof.
  apply (reset_idempotent (mk_env [4; 5; 6] 9 0 2) (mk_env [0; 0; 0] 0 0 2)).
  - split; reflexivity.
  - reflexivity.
Defined.

(** A call of [interpret] that returns, with either status, leaves a tape
    with as many cells as before and the same bounds: only cell contents
    and the cursor change. *)
Theorem interpret_keeps_tape_length
    (t : storage_t) (code : list ascii) (fuel : nat)
    (e : xl_brainfuck_env) (c : console) (o : outcome) (s' : istate) :
  env_ok e ->
  interpret t code fuel e c = Halted o s' ->
  length (tape (env s')) = length (tape e) /\
  minaddr (env s') = minaddr e /\ maxaddr (env s') = maxaddr e /\
  env_ok (env s') /\
  (status o = Some 0 \/ status o = Some 1).
Proof.
  intros Hok Hrun. unfold interpret in Hrun.
  destruct (interpret_loop_defined t code fuel {| codeptr := 0; env := e; con := c |} o s' Hok Hrun)
    as (Ho & Hok' & Hlen).
  simpl in Hlen. destruct Hok as [H0 H1], Hok' as [H0' H1'].
  repeat split; try congruence.
  destruct Ho as [->|[err ->]]; simpl; auto.
Qed.

Lemma interpret_keeps_tape_length_witness :
  let s' := {| codeptr := 3; env := mk_env [2; 0] (-1) 0 1;
               con := printf (diagnostic (AccessViolation WriteIntent)) no_keys |} in
  length (tape (env s')) = length (tape (xl_brainfuck_env_ctor 2)) /\
  minaddr (env s') = minaddr (xl_brainfuck_env_ctor 2) /\
  maxaddr (env s') = maxaddr (xl_brainfuck_env_ctor 2) /\
  env_ok (env s') /\
  (status (Failure (AccessViolation WriteIntent)) = Some 0 \/
   status (Failure (AccessViolation WriteIntent)) = Some 1).
Proof.
  intros s'.
  apply (interpret_keeps_tape_length t_int (list_ascii_of_string "++<+") 9
           (xl_brainfuck_env_ctor 2) no_keys (Failure (AccessViolation WriteIntent)) s').
  - apply ctor_ok.
  - reflexivity.
Defined.

(** * The emitted program and the interpreter *)

(** ** The interpreter and the emitted program, side by side *)

Lemma wrap_signed_add w a b :
  0 < w -> wrap_signed w (wrap_signed w a + b) = wrap_signed w (a + b).
Proof.
  intros Hw. unfold wrap_signed.
  replace ((a + 2 ^ (w - 1)) mod 2 ^ w - 2 ^ (w - 1) + b + 2 ^ (w - 1))
    with ((a + 2 ^ (w - 1)) mod 2 ^ w + b) by lia.
  rewrite Z.add_mod_idemp_l by (apply Z.pow_nonzero; lia).
  f_equal. f_equal. lia.
Qed.

Lemma wrap_unsigned_add w a b :
  0 < w -> wrap_unsigned w (wrap_unsigned w a + b) = wrap_unsigned w (a + b).
Proof.
  intros Hw. unfold wrap_unsigned.
  apply Z.add_mod_idemp_l. apply Z.pow_nonzero; lia.
Qed.

Lemma bits_pos t : 0 < bits t.
Proof. destruct t; reflexivity. Qed.

(** Reduction to the cell type commutes with addition. *)
Lemma wrap_add t a b : wrap t (wrap t a + b) = wrap t (a + b).
Proof.
  unfold wrap. destruct (is_signed t).
  - apply wrap_signed_add, bits_pos.
  - apply wrap_unsigned_add, bits_pos.
Qed.

Lemma wrap_idem t a : wrap t (wrap t a) = wrap t a.
Proof.
  transitivity (wrap t (wrap t a + 0)); [f_equal; lia|].
  rewrite wrap_add. f_equal. lia.
Qed.

(** A run of [up] and [down] characters, as the collating loop sees it: the
    loop stops right after the longest such prefix of [rest], and its total
    is the number of [up] minus the number of [down], reduced to the cell
    type. *)
Lemma collate_run t up down rest : forall p total p' total',
  up <> down ->
  collate t up down rest p total = (p', total') ->
  exists seg rest',
    rest = seg ++ rest' /\
    Forall (fun c => c = up \/ c = down) seg /\
    p' = p + Z.of_nat (length seg) /\
    wrap t total' = wrap t (total + occurrences up seg - occurrences down seg) /\
    (seg = [] -> total' = total) /\
    (seg <> [] -> wrap t total' = total') /\
    (forall c rest'', rest' = c :: rest'' -> c <> up /\ c <> down).
Proof.
  intros p total p' total' Hne.
  revert p total. induction rest as [|c rest IH]; intros p total; simpl.
  - intros [= <- <-]. exists [], []. simpl.
    repeat split; try (f_equal; lia); try congruence; try lia. constructor.
  - assert (Hrec : forall total1,
              (c = up \/ c = down) ->
              wrap t total1 = wrap t (total + (if (c =? up)%char then 1 else 0)
                                            - (if (c =? down)%char then 1 else 0)) ->
              wrap t total1 = total1 ->
              collate t up down rest (p + 1) total1 = (p', total') ->
              exists seg rest',
                c :: rest = seg ++ rest' /\
                Forall (fun c => c = up \/ c = down) seg /\
                p' = p + Z.of_nat (length seg) /\
                wrap t total' = wrap t (total + occurrences up seg - occurrences down seg) /\
                (seg = [] -> total' = total) /\
                (seg <> [] -> wrap t total' = total') /\
                (forall c rest'', rest' = c :: rest'' -> c <> up /\ c <> down)).
    { intros total1 Hc Htot Hin H.
      apply IH in H as (seg & rest' & -> & Hall & -> & Hsum & Hnil & Hcons & Hstop).
      exists (c :: seg), rest'. simpl length.
      split; [reflexivity|]. split; [constructor; assumption|].
      split; [lia|]. split.
      { rewrite Hsum.
        replace (total1 + occurrences up seg - occurrences down seg)
          with (total1 + (occurrences up seg - occurrences down seg)) by lia.
        rewrite <- (wrap_add t total1), Htot, wrap_add. f_equal.
        cbn [occurrences]. lia. }
      split; [discriminate|]. split; [|exact Hstop].
      intros _. destruct seg as [|d seg].
      - rewrite (Hnil eq_refl). exact Hin.
      - apply Hcons. discriminate. }
    destruct (Ascii.eqb_spec c up) as [Hup|Hup].
    + apply Hrec; [auto | | apply wrap_idem].
      rewrite wrap_idem. f_equal.
      destruct (Ascii.eqb_spec c down); [congruence|]. lia.
    + destruct (Ascii.eqb_spec c down) as [Hdown|Hdown].
      * apply Hrec; [auto | | apply wrap_idem].
        rewrite wrap_idem. f_equal. lia.
      * intros [= <- <-]. exists [], (c :: rest). simpl.
        repeat split; try (f_equal; lia); try congruence; try lia.
        constructor.
Qed.

(** *** Passes of the interpreter *)

Lemma passes_app t code n : forall m s s1 r,
  passes t code n s = Some s1 -> passes t code m s1 = r ->
  passes t code (n + m) s = r.
Proof.
  induction n as [|n IH]; intros m s s1 r; simpl.
  - intros [= <-]. auto.
  - destruct (_ =? _)%char; [discriminate|].
    destruct (step t code s) as [s'|]; [|discriminate]. apply IH.
Qed.

Lemma passes_one t code s s' :
  deref code (codeptr s) <> NUL -> step t code s = Next s' ->
  passes t code 1 s = Some s'.
Proof.
  intros Hc Hs. simpl.
  destruct (Ascii.eqb_spec (deref code (codeptr s)) NUL); [contradiction|].
  now rewrite Hs.
Qed.

(** Passes are deterministic: a state at the terminator is the last one. *)
Lemma passes_end t code n : forall n' s s1 s2,
  passes t code n s = Some s1 -> deref code (codeptr s1) = NUL ->
  passes t code n' s = Some s2 ->
  (n' <= n)%nat /\ (deref code (codeptr s2) = NUL -> n' = n /\ s2 = s1).
Proof.
  induction n as [|n IH]; intros n' s s1 s2; simpl.
  - intros [= <-] Hend. destruct n' as [|n']; simpl.
    + intros [= <-]. auto.
    + rewrite Hend. discriminate.
  - destruct (Ascii.eqb_spec (deref code (codeptr s)) NUL) as [E|E]; [discriminate|].
    destruct (step t code s) as [s'|] eqn:Hs; [|discriminate].
    intros H1 Hend. destruct n' as [|n']; simpl.
    + intros [= <-]. split; [lia|]. intros; contradiction.
    + destruct (Ascii.eqb_spec (deref code (codeptr s)) NUL); [contradiction|].
      rewrite Hs. intros H2.
      destruct (IH _ _ _ _ H1 Hend H2) as [Hle Heq].
      split; [lia|]. intros H. destruct (Heq H) as [-> ->]. auto.
Qed.

(** A pass that returns is the last one too. *)
Lemma passes_stop t code n : forall n' s s1 s2 o s3,
  passes t code n s = Some s1 ->
  deref code (codeptr s1) <> NUL -> step t code s1 = Stop o s3 ->
  passes t code n' s = Some s2 ->
  (n' <= n)%nat /\ (deref code (codeptr s2) = NUL -> False).
Proof.
  induction n as [|n IH]; intros n' s s1 s2 o s3; simpl.
  - intros [= <-] Hc Hstop. destruct n' as [|n']; simpl.
    + intros [= <-]. split; [lia | assumption].
    + destruct (_ =? _)%char; [discriminate|]. rewrite Hstop. discriminate.
  - destruct (Ascii.eqb_spec (deref code (codeptr s)) NUL) as [E|E]; [discriminate|].
    destruct (step t code s) as [s'|] eqn:Hs; [|discriminate].
    intros H1 Hc Hstop. destruct n' as [|n']; simpl.
    + intros [= <-]. split; [lia | assumption].
    + destruct (Ascii.eqb_spec (deref code (codeptr s)) NUL); [contradiction|].
      rewrite Hs. intros H2.
      destruct (IH _ _ _ _ _ _ H1 Hc Hstop H2) as [Hle Heq].
      split; [lia | assumption].
Qed.

(** *** Brackets of a compiled block *)

Lemma drop_app_at {A} (l seg rest : list A) (p : nat) :
  drop p l = seg ++ rest -> drop (p + length seg) l = rest.
Proof.
  intros H. rewrite <- drop_drop, H.
  now rewrite drop_app_length.
Qed.

Lemma take_app_at {A} (l seg rest : list A) (p : nat) :
  drop p l = seg ++ rest -> take (p + length seg) l = take p l ++ seg.
Proof.
  intros H. rewrite <- take_take_drop, H. f_equal.
  now rewrite take_app_length.
Qed.

Lemma search_forward_skip seg : forall rest p count,
  Forall (fun c => c <> "["%char /\ c <> "]"%char /\ c <> NUL) seg ->
  search_forward (seg ++ rest) p count =
    search_forward rest (p + Z.of_nat (length seg)) count.
Proof.
  induction seg as [|c seg IH]; intros rest p count Hall; simpl.
  - f_equal. lia.
  - apply Forall_cons in Hall as [(H1 & H2 & H3) Hall].
    destruct (Ascii.eqb_spec c NUL); [contradiction|].
    destruct (Ascii.eqb_spec c "["); [contradiction|].
    destruct (Ascii.eqb_spec c "]"); [contradiction|].
    rewrite IH by assumption. f_equal. lia.
Qed.

Lemma search_backward_skip seg : forall rest p count,
  Forall (fun c => c <> "["%char /\ c <> "]"%char) seg ->
  search_backward (seg ++ rest) p count =
    search_backward rest (p - Z.of_nat (length seg)) count.
Proof.
  induction seg as [|c seg IH]; intros rest p count Hall; simpl.
  - f_equal. lia.
  - apply Forall_cons in Hall as [(H1 & H2) Hall].
    destruct (Ascii.eqb_spec c "]"); [contradiction|].
    destruct (Ascii.eqb_spec c "["); [contradiction|].
    rewrite IH by assumption. f_equal. lia.
Qed.

Lemma run_no_bracket up down (seg : list ascii) :
  up <> "["%char -> up <> "]"%char -> up <> NUL ->
  down <> "["%char -> down <> "]"%char -> down <> NUL ->
  Forall (fun c => c = up \/ c = down) seg ->
  Forall (fun c => c <> "["%char /\ c <> "]"%char /\ c <> NUL) seg.
Proof.
  intros. eapply Forall_impl; [eassumption|].
  intros c [->| ->]; auto.
Qed.

(** What [compile_block] went over between [p] and [q], as far as the two
    searches of [interpret] are concerned: a stretch that both cross with
    the counter they came in with. *)
Lemma compile_block_brackets fmt t code fuel : forall p stmts q,
  c_string code -> Z.of_nat (length code) < 2 ^ 31 ->
  compile_block fmt t code fuel p = Some (stmts, q) -> 0 <= p ->
  p <= q /\
  (deref code q = NUL \/ deref code q = "]"%char) /\
  forall count, 1 <= count ->
    (count + (Z.of_nat (length code) - p) < 2 ^ 32 ->
     search_forward (drop (Z.to_nat p) code) p count =
       search_forward (drop (Z.to_nat q) code) q count) /\
    (count + q < 2 ^ 32 ->
     search_backward (rev (take (Z.to_nat q) code)) (q - 1) count =
       search_backward (rev (take (Z.to_nat p) code)) (p - 1) count).
Proof.
  intros p stmts q Hstr Hlen.
  revert p stmts q. induction fuel as [|fuel IH]; intros p stmts q; [discriminate|].
  intros Hc Hp. cbn [compile_block] in Hc.
  (* the stretch covered by a run *)
  assert (Hrun : forall up down p' total more,
            up <> down ->
            up <> "["%char -> up <> "]"%char -> up <> NUL ->
            down <> "["%char -> down <> "]"%char -> down <> NUL ->
            collate t up down (drop (Z.to_nat p) code) p 0 = (p', total) ->
            compile_block fmt t code fuel p' = Some (more, q) ->
            p <= q /\
            (deref code q = NUL \/ deref code q = "]"%char) /\
            forall count, 1 <= count ->
              (count + (Z.of_nat (length code) - p) < 2 ^ 32 ->
               search_forward (drop (Z.to_nat p) code) p count =
                 search_forward (drop (Z.to_nat q) code) q count) /\
              (count + q < 2 ^ 32 ->
               search_backward (rev (take (Z.to_nat q) code)) (q - 1) count =
                 search_backward (rev (take (Z.to_nat p) code)) (p - 1) count)).
  { intros up down p' total more Hne U1 U2 U3 D1 D2 D3 Hcol Hmore.
    apply collate_run in Hcol as (seg & rest' & Hdrop & Hall & -> & _); [|assumption].
    apply IH in Hmore as (Hle & Hend & Hsearch); [|lia].
    split; [lia|]. split; [assumption|].
    intros count Hcount. destruct (Hsearch count Hcount) as [Hf Hb].
    pose proof (run_no_bracket up down seg U1 U2 U3 D1 D2 D3 Hall) as Hnb.
    replace (Z.to_nat (p + Z.of_nat (length seg)))
      with (Z.to_nat p + length seg)%nat in * by lia.
    rewrite (drop_app_at _ _ _ _ Hdrop) in Hf.
    rewrite (take_app_at _ _ _ _ Hdrop) in Hb.
    split.
    - intros Hbound. rewrite Hdrop, search_forward_skip by assumption.
      apply Hf. lia.
    - intros Hbound. rewrite Hb by assumption.
      rewrite rev_app_distr, search_backward_skip.
      + rewrite length_rev. f_equal. lia.
      + apply Forall_rev. eapply Forall_impl; [exact Hnb|]. intros c (?&?&?); auto. }
  (* the stretch covered by one character that is no bracket *)
  assert (Hone : forall more,
            deref code p <> NUL -> deref code p <> "["%char -> deref code p <> "]"%char ->
            compile_block fmt t code fuel (p + 1) = Some (more, q) ->
            p <= q /\
            (deref code q = NUL \/ deref code q = "]"%char) /\
            forall count, 1 <= count ->
              (count + (Z.of_nat (length code) - p) < 2 ^ 32 ->
               search_forward (drop (Z.to_nat p) code) p count =
                 search_forward (drop (Z.to_nat q) code) q count) /\
              (count + q < 2 ^ 32 ->
               search_backward (rev (take (Z.to_nat q) code)) (q - 1) count =
                 search_backward (rev (take (Z.to_nat p) code)) (p - 1) count)).
  { intros more N1 N2 N3 Hmore.
    destruct (drop_deref code p Hp N1) as [rest Hdrop].
    apply IH in Hmore as (Hle & Hend & Hsearch); [|lia].
    split; [lia|]. split; [assumption|].
    intros count Hcount. destruct (Hsearch count Hcount) as [Hf Hb].
    replace (Z.to_nat (p + 1)) with (Z.to_nat p + length [deref code p])%nat in * by (simpl; lia).
    rewrite (drop_app_at _ [deref code p] rest _ Hdrop) in Hf.
    rewrite (take_app_at _ [deref code p] rest _ Hdrop) in Hb.
    split.
    - intros Hbound. rewrite Hdrop.
      change (deref code p :: rest) with ([deref code p] ++ rest).
      rewrite search_forward_skip by (repeat constructor; assumption).
      apply Hf. lia.
    - intros Hbound. rewrite Hb by assumption. rewrite rev_app_distr.
      rewrite search_backward_skip by (repeat constructor; assumption).
      f_equal. simpl. lia. }
  destruct (Ascii.eqb_spec (deref code p) NUL) as [E0|E0];
    [|destruct (Ascii.eqb_spec (deref code p) "]") as [E9|E9]]; cbn [orb] in Hc.
  1,2: injection Hc as <- <-; split; [lia|]; split; [auto|]; intros; auto.
  destruct (Ascii.eqb_spec (deref code p) ">") as [E1|E1];
    [|destruct (Ascii.eqb_spec (deref code p) "<") as [E2|E2]]; cbn [orb] in Hc.
  1,2: destruct (collate t ">" "<" _ _ _) as [p' total] eqn:Hcol;
       destruct (compile_block fmt t code fuel p') as [[more q']|] eqn:Hmore; [|discriminate];
       injection Hc as <- <-;
       eapply (Hrun ">"%char "<"%char); try eassumption; discriminate.
  destruct (Ascii.eqb_spec (deref code p) "+") as [E3|E3];
    [|destruct (Ascii.eqb_spec (deref code p) "-") as [E4|E4]]; cbn [orb] in Hc.
  1,2: destruct (collate t "+" "-" _ _ _) as [p' total] eqn:Hcol;
       destruct (compile_block fmt t code fuel p') as [[more q']|] eqn:Hmore; [|discriminate];
       injection Hc as <- <-;
       eapply (Hrun "+"%char "-"%char); try eassumption; discriminate.
  destruct (Ascii.eqb_spec (deref code p) ".") as [E5|E5].
  { destruct (compile_block fmt t code fuel (p + 1)) as [[more q']|] eqn:Hmore; [|discriminate].
    injection Hc as <- <-. eapply Hone; try eassumption; try reflexivity; rewrite E5; discriminate. }
  destruct (Ascii.eqb_spec (deref code p) ",") as [E6|E6].
  { destruct (compile_block fmt t code fuel (p + 1)) as [[more q']|] eqn:Hmore; [|discriminate].
    injection Hc as <- <-. eapply Hone; try eassumption; try reflexivity; rewrite E6; discriminate. }
  destruct (Ascii.eqb_spec (deref code p) "[") as [E7|E7].
  - destruct (compile_block fmt t code fuel (p + 1)) as [[body m]|] eqn:Hbody; [|discriminate].
    destruct (Ascii.eqb_spec (deref code m) "]") as [Em|Em]; [|discriminate].
    destruct (compile_block fmt t code fuel (m + 1)) as [[more q']|] eqn:Hmore; [|discriminate].
    injection Hc as <- <-.
    apply IH in Hbody as (Hle1 & _ & Hs1); [|lia].
    apply IH in Hmore as (Hle2 & Hend & Hs2); [|lia].
    split; [lia|]. split; [assumption|].
    intros count Hcount.
    destruct (deref_in_string code m _ Em) as [Hm _]; [discriminate|].
    destruct (deref_in_string code p _ E7) as [Hp' _]; [discriminate|].
    destruct (drop_deref code p Hp) as [rest Hdrop]; [rewrite E7; discriminate|].
    destruct (drop_deref code m) as [restm Hdropm]; [lia | rewrite Em; discriminate|].
    rewrite E7 in Hdrop. rewrite Em in Hdropm.
    destruct (Hs1 (count + 1)) as [Hf1 Hb1]; [lia|].
    destruct (Hs2 count Hcount) as [Hf2 Hb2].
    pose proof (drop_app_at _ ["["%char] rest _ Hdrop) as Hd1.
    pose proof (take_app_at _ ["["%char] rest _ Hdrop) as Ht1.
    pose proof (drop_app_at _ ["]"%char] restm _ Hdropm) as Hd2.
    pose proof (take_app_at _ ["]"%char] restm _ Hdropm) as Ht2.
    simpl length in *.
    replace (Z.to_nat p + 1)%nat with (Z.to_nat (p + 1)) in * by lia.
    replace (Z.to_nat m + 1)%nat with (Z.to_nat (m + 1)) in * by lia.
    split.
    + intros Hbound. rewrite Hdrop. cbn [search_forward].
      change ("[" =? NUL)%char with false. change ("[" =? "[")%char with true. cbv iota.
      rewrite wrap_unsigned_small by lia.
      rewrite <- Hd1, Hf1 by lia.
      rewrite Hdropm. cbn [search_forward].
      change ("]" =? NUL)%char with false. change ("]" =? "[")%char with false.
      change ("]" =? "]")%char with true. cbv iota.
      replace (count + 1 - 1) with count by lia.
      rewrite wrap_unsigned_small by lia.
      destruct (Z.eqb_spec count 0); [lia|].
      rewrite <- Hd2. apply Hf2. lia.
    + intros Hbound. rewrite Hb2 by assumption.
      rewrite Ht2, rev_app_distr. cbn [rev app search_backward].
      change ("]" =? "]")%char with true. cbv iota.
      rewrite wrap_unsigned_small by lia.
      replace (m + 1 - 1 - 1) with (m - 1) by lia.
      rewrite Hb1 by lia.
      rewrite Ht1, rev_app_distr. cbn [rev app search_backward].
      change ("[" =? "]")%char with false. change ("[" =? "[")%char with true. cbv iota.
      replace (count + 1 - 1) with count by lia.
      rewrite wrap_unsigned_small by lia.
      destruct (Z.eqb_spec count 0); [lia|].
      f_equal. lia.
  - eapply Hone; eassumption.
Qed.

(** *** Runs, as the interpreter executes them *)

Lemma step_default t code s :
  let c := deref code (codeptr s) in
  c <> ">"%char -> c <> "<"%char -> c <> "+"%char -> c <> "-"%char ->
  c <> "."%char -> c <> ":"%char -> c <> ","%char -> c <> "["%char -> c <> "]"%char ->
  step t code s = Next {| codeptr := codeptr s + 1; env := env s; con := con s |}.
Proof.
  intros c. subst c. intros. unfold step.
  repeat match goal with
  | |- context [if (?a =? ?b)%char then _ else _] =>
      destruct (Ascii.eqb_spec a b); [contradiction|]
  end.
  reflexivity.
Qed.

(** A run of ['>'] and ['<']: one pass per character, none of which can
    fail; the cursor moves by the number of ['>'] minus the number of
    ['<']. *)
Lemma interpret_move_run t code seg : forall s rest,
  0 <= codeptr s ->
  drop (Z.to_nat (codeptr s)) code = seg ++ rest ->
  Forall (fun c => c = ">"%char \/ c = "<"%char) seg ->
  exists s',
    passes t code (length seg) s = Some s' /\
    codeptr s' = codeptr s + Z.of_nat (length seg) /\
    tape (env s') = tape (env s) /\
    ptr (env s') = ptr (env s) + occurrences ">" seg - occurrences "<" seg /\
    minaddr (env s') = minaddr (env s) /\ maxaddr (env s') = maxaddr (env s) /\
    con s' = con s.
Proof.
  induction seg as [|c seg IH]; intros s rest Hp Hdrop Hall.
  - exists s. simpl. repeat split; lia.
  - apply Forall_cons in Hall as [Hc Hall].
    assert (Hget : code !! Z.to_nat (codeptr s) = Some c).
    { rewrite <- (Nat.add_0_r (Z.to_nat (codeptr s))), <- lookup_drop, Hdrop. reflexivity. }
    assert (Hderef : deref code (codeptr s) = c).
    { unfold deref. destruct (Z.ltb_spec (codeptr s) 0); [lia|]. now rewrite Hget. }
    set (s1 := {| codeptr := codeptr s + 1;
                  env := set_ptr (env s) (ptr (env s) + (if (c =? ">")%char then 1 else -1));
                  con := con s |}).
    assert (Hstep : step t code s = Next s1).
    { unfold step. rewrite Hderef. destruct Hc as [-> | ->]; reflexivity. }
    destruct (IH s1 rest) as (s' & Hrun & Hpc & Htape & Hptr & Hmin & Hmax & Hcon).
    + simpl. lia.
    + simpl. replace (Z.to_nat (codeptr s + 1)) with (Z.to_nat (codeptr s) + length [c])%nat
        by (simpl; lia).
      apply (drop_app_at code [c] (seg ++ rest)). exact Hdrop.
    + exact Hall.
    + exists s'. split.
      { change (length (c :: seg)) with (1 + length seg)%nat.
        eapply passes_app; [|exact Hrun].
        apply passes_one; [|exact Hstep].
        rewrite Hderef. destruct Hc as [-> | ->]; discriminate. }
      simpl in *. repeat split; try congruence; try lia.
      rewrite Hptr. destruct Hc as [-> | ->]; simpl; lia.
Qed.

(** A run of ['+'] and ['-'] with the cursor in range: one pass per
    character; the cell under the cursor ends as its value plus the number
    of ['+'] minus the number of ['-'], reduced to the cell type. *)
Lemma interpret_cell_run t code seg : forall s rest v,
  0 <= codeptr s ->
  drop (Z.to_nat (codeptr s)) code = seg ++ rest ->
  Forall (fun c => c = "+"%char \/ c = "-"%char) seg ->
  env_ok (env s) -> ptroutofrange (env s) = false ->
  load (tape (env s)) (ptr (env s)) = Some v ->
  exists s',
    passes t code (length seg) s = Some s' /\
    codeptr s' = codeptr s + Z.of_nat (length seg) /\
    tape (env s') =
      (if decide (seg = []) then tape (env s)
       else <[Z.to_nat (ptr (env s)) :=
                wrap t (v + occurrences "+" seg - occurrences "-" seg)]> (tape (env s))) /\
    ptr (env s') = ptr (env s) /\
    minaddr (env s') = minaddr (env s) /\ maxaddr (env s') = maxaddr (env s) /\
    con s' = con s.
Proof.
  induction seg as [|c seg IH]; intros s rest v Hp Hdrop Hall Hok Hin Hv.
  - exists s. simpl. repeat split; lia.
  - apply Forall_cons in Hall as [Hc Hall].
    assert (Hget : code !! Z.to_nat (codeptr s) = Some c).
    { rewrite <- (Nat.add_0_r (Z.to_nat (codeptr s))), <- lookup_drop, Hdrop. reflexivity. }
    assert (Hderef : deref code (codeptr s) = c).
    { unfold deref. destruct (Z.ltb_spec (codeptr s) 0); [lia|]. now rewrite Hget. }
    pose proof (ptr_in_block _ Hok Hin) as Hrange.
    set (v1 := wrap t (v + (if (c =? "+")%char then 1 else -1))).
    set (s1 := {| codeptr := codeptr s + 1;
                  env := set_tape (env s) (<[Z.to_nat (ptr (env s)) := v1]> (tape (env s)));
                  con := con s |}).
    assert (Hstep : step t code s = Next s1).
    { unfold step. rewrite Hderef.
      destruct Hc as [-> | ->]; cbn [Ascii.eqb Bool.eqb]; rewrite Hin, Hv;
        unfold write_cell_and_advance; rewrite store_in_block by assumption; reflexivity. }
    destruct (IH s1 rest v1) as (s' & Hrun & Hpc & Htape & Hptr & Hmin & Hmax & Hcon).
    + simpl. lia.
    + simpl. replace (Z.to_nat (codeptr s + 1)) with (Z.to_nat (codeptr s) + length [c])%nat
        by (simpl; lia).
      apply (drop_app_at code [c] (seg ++ rest)). exact Hdrop.
    + exact Hall.
    + apply set_tape_ok; [assumption | apply length_insert].
    + unfold ptroutofrange in *. exact Hin.
    + simpl. unfold load. destruct (Z.ltb_spec (ptr (env s)) 0); [lia|].
      apply list_lookup_insert_eq. lia.
    + exists s'. split.
      { change (length (c :: seg)) with (1 + length seg)%nat.
        eapply passes_app; [|exact Hrun].
        apply passes_one; [|exact Hstep].
        rewrite Hderef. destruct Hc as [-> | ->]; discriminate. }
      simpl in *. split; [lia|]. split; [|repeat split; congruence].
      rewrite Htape. destruct (decide (c :: seg = [])) as [|_]; [discriminate|].
      destruct (decide (seg = [])) as [-> | _].
      * simpl. f_equal. unfold v1. f_equal.
        destruct Hc as [-> | ->]; simpl; lia.
      * rewrite list_insert_insert_eq. f_equal.
        replace (v1 + occurrences "+" seg - occurrences "-" seg)
          with (v1 + (occurrences "+" seg - occurrences "-" seg)) by lia.
        unfold v1. rewrite wrap_add. f_equal.
        destruct Hc as [-> | ->]; simpl; lia.
Qed.

(** With cells of 32 bits or more and a run shorter than 2^31, the amount
    read back from the emitted statement is the net effect of the run. *)
Lemma adjust_amount_exact t total net :
  32 <= bits t -> - 2 ^ 31 < net < 2 ^ 31 ->
  wrap t total = wrap t net -> wrap t total = total ->
  adjust_amount total = if net =? 0 then None else Some net.
Proof.
  intros Hbits Hnet Hsum Hin. rewrite Hsum in Hin. subst total.
  unfold adjust_amount, wrap, wrap_signed, wrap_unsigned.
  change (2 ^ 31) with 2147483648 in Hnet.
  destruct t; simpl in Hbits; try lia; simpl;
    (destruct (Z.eqb_spec net 0) as [-> | Hnz]; [reflexivity|]);
    repeat match goal with
    | |- context [?a >? ?b] => rewrite (Z.gtb_ltb a b)
    end;
    repeat match goal with
    | |- context [if ?a <? ?b then _ else _] => destruct (Z.ltb_spec a b)
    | |- context [if ?a =? ?b then _ else _] => destruct (Z.eqb_spec a b)
    end;
    try (f_equal; Z.div_mod_to_equations; lia);
    try (exfalso; Z.div_mod_to_equations; lia).
Qed.

(** *** The simulation *)

Lemma append_assoc (a b c : string) :
  String.append (String.append a b) c = String.append a (String.append b c).
Proof. induction a as [|x a IH]; simpl; [reflexivity | now rewrite IH]. Qed.

Lemma length_append (a b : string) :
  String.length (String.append a b) = (String.length a + String.length b)%nat.
Proof. induction a as [|x a IH]; simpl; [reflexivity | now rewrite IH]. Qed.

Lemma append_empty_r (a : string) : String.append a EmptyString = a.
Proof. induction a as [|c a IH]; simpl; [reflexivity | now rewrite IH]. Qed.

Lemma outputs_snoc pr vs v :
  outputs pr (vs ++ [v]) = String.append (outputs pr vs) (pr v).
Proof.
  induction vs as [|x vs IH]; simpl; [now rewrite append_empty_r|].
  now rewrite IH, append_assoc.
Qed.

Lemma agrees_prefix fmt t code out0 f q k s s1 r :
  passes t code k s = Some s1 ->
  agrees fmt t code out0 f q s1 r -> agrees fmt t code out0 f q s r.
Proof.
  intros Hk [(n & s_n & i & s' & Hn & Hc & Hs) | H].
  - left. exists (k + n)%nat, s_n, i, s'. split; [|auto].
    eapply passes_app; eassumption.
  - right. destruct r as [cs' | cs' | |]; try assumption.
    + destruct H as (n & s' & Hn & Hrest). exists (k + n)%nat, s'.
      split; [eapply passes_app; eassumption | assumption].
    + destruct H as (n & s' & Hn & Hle). exists (k + n)%nat, s'.
      split; [eapply passes_app; eassumption | lia].
Qed.

Lemma agrees_prefix_fuel fmt t code out0 f q k s s1 r :
  passes t code k s = Some s1 -> (1 <= k)%nat ->
  agrees fmt t code out0 f q s1 r -> agrees fmt t code out0 (S f) q s r.
Proof.
  intros Hk Hpos [(n & s_n & i & s' & Hn & Hc & Hs) | H].
  - left. exists (k + n)%nat, s_n, i, s'. split; [|auto].
    eapply passes_app; eassumption.
  - right. destruct r as [cs' | cs' | |]; try assumption.
    + destruct H as (n & s' & Hn & Hrest). exists (k + n)%nat, s'.
      split; [eapply passes_app; eassumption | assumption].
    + destruct H as (n & s' & Hn & Hle). exists (k + n)%nat, s'.
      split; [eapply passes_app; eassumption | lia].
Qed.

Lemma violates_now fmt t code out0 f q s r i s' :
  deref code (codeptr s) <> NUL ->
  step t code s = Stop (Failure (AccessViolation i)) s' ->
  agrees fmt t code out0 f q s r.
Proof. intros Hc Hs. left. exists 0%nat, s, i, s'. auto. Qed.

Lemma run_length_bound (code seg rest : list ascii) (p : nat) (a b : ascii) :
  drop p code = seg ++ rest ->
  Z.of_nat (length code) < 2 ^ 31 ->
  - 2 ^ 31 < occurrences a seg - occurrences b seg < 2 ^ 31.
Proof.
  intros Hdrop Hlen.
  pose proof (occurrences_bounds a seg). pose proof (occurrences_bounds b seg).
  assert (length seg <= length code)%nat.
  { pose proof (f_equal length Hdrop) as H1.
    rewrite length_drop, length_app in H1. lia. }
  lia.
Qed.

Lemma run_nonempty up down (c : ascii) (rest seg rest' : list ascii) :
  c :: rest = seg ++ rest' -> c = up \/ c = down ->
  (forall c' rest'', rest' = c' :: rest'' -> c' <> up /\ c' <> down) ->
  seg <> [].
Proof.
  intros Heq Hc Hstop ->. simpl in Heq. symmetry in Heq.
  destruct (Hstop _ _ Heq) as [H1 H2]. destruct Hc; contradiction.
Qed.

Lemma sim_same_con fmt t out0 s cs s1 cs1 :
  sim fmt t out0 s cs ->
  tape (env s1) = c_tape cs1 -> ptr (env s1) = c_i cs1 ->
  con s1 = con s -> c_con cs1 = c_con cs ->
  Forall (fun v => wrap t v = v) (tape (env s1)) ->
  sim fmt t out0 s1 cs1.
Proof.
  intros (_ & _ & Hkeys & Hcons & Hout & _) Htape Hptr Hcon Hccon Hw.
  unfold sim. rewrite Hcon, Hccon. auto 10.
Qed.

Lemma sim_putchar fmt t out0 s cs v pc :
  sim fmt t out0 s cs ->
  sim fmt t out0
    {| codeptr := pc; env := env s; con := printf (format_c v) (con s) |}
    {| c_tape := c_tape cs; c_i := c_i cs;
       c_con := printf (c_printf fmt v) (c_con cs) |}.
Proof.
  intros (Htape & Hptr & Hkeys & Hcons & (vs & Hw1 & Hw2) & Hwrapped).
  unfold sim. simpl. repeat split; try assumption.
  exists (vs ++ [v]). rewrite !outputs_snoc. split.
  - rewrite Hw1. apply append_assoc.
  - rewrite Hw2. apply append_assoc.
Qed.

Lemma sim_getch fmt t out0 s cs pc cells' :
  sim fmt t out0 s cs ->
  Forall (fun v => wrap t v = v) cells' ->
  sim fmt t out0
    {| codeptr := pc; env := set_tape (env s) cells'; con := snd (_getch (con s)) |}
    {| c_tape := cells'; c_i := c_i cs; c_con := snd (_getch (c_con cs)) |} /\
  fst (_getch (c_con cs)) = fst (_getch (con s)).
Proof.
  intros (Htape & Hptr & Hkeys & Hcons & Hout & Hwrapped) Hw.
  unfold sim. simpl. rewrite Hkeys, Hcons. repeat split; assumption.
Qed.

(** The forward search from a ['['] whose body was compiled up to a [']']
    answers with that [']']. *)
Lemma open_finds_close fmt t code fuel p body m :
  c_string code -> Z.of_nat (length code) < 2 ^ 31 ->
  compile_block fmt t code fuel (p + 1) = Some (body, m) ->
  deref code m = "]"%char -> 0 <= p ->
  search_forward (drop (Z.to_nat (p + 1)) code) (p + 1) 1 = Some m.
Proof.
  intros Hstr Hlen Hbody Em Hp.
  destruct (compile_block_brackets fmt t code fuel _ _ _ Hstr Hlen Hbody) as (Hle & _ & Hs); [lia|].
  destruct (Hs 1) as [Hf _]; [lia|].
  change (2 ^ 31) with 2147483648 in Hlen.
  destruct (deref_in_string code m _ Em) as [Hm _]; [discriminate|].
  rewrite Hf by (change (2 ^ 32) with 4294967296; lia).
  destruct (drop_deref code m) as [rest Hdrop]; [lia | rewrite Em; discriminate|].
  rewrite Hdrop, Em. reflexivity.
Qed.

(** The backward search from that [']'] answers with the ['[']. *)
Lemma close_finds_open fmt t code fuel p body m :
  c_string code -> Z.of_nat (length code) < 2 ^ 31 ->
  compile_block fmt t code fuel (p + 1) = Some (body, m) ->
  deref code p = "["%char -> 0 <= p ->
  Z.of_nat (length code) >= m ->
  search_backward (rev (take (Z.to_nat m) code)) (m - 1) 1 = Some p.
Proof.
  intros Hstr Hlen Hbody Ep Hp Hm.
  destruct (compile_block_brackets fmt t code fuel _ _ _ Hstr Hlen Hbody) as (Hle & _ & Hs); [lia|].
  destruct (Hs 1) as [_ Hb]; [lia|].
  change (2 ^ 31) with 2147483648 in Hlen.
  rewrite Hb by (change (2 ^ 32) with 4294967296; lia).
  destruct (drop_deref code p Hp) as [rest Hdrop]; [rewrite Ep; discriminate|].
  rewrite Ep in Hdrop.
  pose proof (take_app_at _ ["["%char] rest _ Hdrop) as Ht. simpl length in Ht.
  replace (Z.to_nat (p + 1)) with (Z.to_nat p + 1)%nat by lia.
  rewrite Ht, rev_app_distr. simpl. f_equal. lia.
Qed.

Lemma sim_fields fmt t out0 s cs s1 cs1 :
  sim fmt t out0 s cs ->
  tape (env s1) = tape (env s) -> c_tape cs1 = c_tape cs ->
  ptr (env s1) = ptr (env s) -> c_i cs1 = c_i cs ->
  con s1 = con s -> c_con cs1 = c_con cs ->
  sim fmt t out0 s1 cs1.
Proof.
  intros (H1 & H2 & H3 & H4 & H5 & H6) E1 E2 E3 E4 E5 E6.
  unfold sim. rewrite E1, E2, E3, E4, E5, E6. auto 10.
Qed.

(** The emitted statements of a block, run with any amount of fuel, agree
    with the interpreter run from the start of the block. *)
Lemma compile_block_agrees fmt t code out0 :
  c_string code -> Z.of_nat (length code) < 2 ^ 31 ->
  32 <= bits t -> ~ In ":"%char code ->
  forall f fuel p stmts q s cs,
    compile_block fmt t code fuel p = Some (stmts, q) ->
    codeptr s = p -> 0 <= p -> env_ok (env s) -> sim fmt t out0 s cs ->
    agrees fmt t code out0 f q s (c_exec t f stmts cs).
Proof.
  intros Hstr Hlen Hbits Hcolon.
  induction f as [|f IHf].
  { intros fuel p stmts q s cs _ _ _ _ _. right. simpl. exists 0%nat, s. split; [reflexivity | lia]. }
  induction fuel as [|fuel IHfuel]; intros p stmts q s cs Hc Hpc Hp Hok Hsim; [discriminate|].
  pose proof Hc as Hwhole. cbn [compile_block] in Hc.
  pose proof Hsim as (Htape & Hptr & Hkeys & Hcons & Hout & Hwrapped).
  (* the end of the block *)
  destruct (Ascii.eqb_spec (deref code p) NUL) as [E0|E0];
    [|destruct (Ascii.eqb_spec (deref code p) "]") as [E9|E9]]; cbn [orb] in Hc.
  1,2: injection Hc as <- <-; right; simpl; exists 0%nat, s;
       split; [reflexivity|]; split; [assumption|]; split; assumption.
  destruct (deref_in_string code p _ eq_refl E0) as [Hrange Hget].
  destruct (drop_deref code p Hp E0) as [rest0 Hdrop0].
  assert (Hnow : deref code (codeptr s) <> NUL) by (rewrite Hpc; exact E0).
  (* a run of > and < *)
  destruct (Ascii.eqb_spec (deref code p) ">") as [E1|E1];
    [|destruct (Ascii.eqb_spec (deref code p) "<") as [E2|E2]]; cbn [orb] in Hc.
  1,2: destruct (collate t ">" "<" _ _ _) as [p' total] eqn:Hcol;
       destruct (compile_block fmt t code fuel p') as [[more q']|] eqn:Hmore; [|discriminate];
       injection Hc as <- <-;
       apply collate_run in Hcol as (seg & rest' & Hdrop & Hall & -> & Hsum & _ & Hin & Hstop);
         [|discriminate];
       (assert (Hseg : seg <> []) by
          (eapply (run_nonempty ">"%char "<"%char); [rewrite <- Hdrop0; exact Hdrop | auto | exact Hstop]));
       pose proof (run_length_bound _ _ _ _ ">"%char "<"%char Hdrop Hlen) as Hnet;
       unfold adjust_stmt;
       rewrite (adjust_amount_exact t total (occurrences ">" seg - occurrences "<" seg))
         by (try assumption; try (apply Hin; assumption); rewrite Hsum; f_equal; lia);
       (destruct (interpret_move_run t code seg s rest') as
          (s1 & Hrun & Hpc1 & Htape1 & Hptr1 & Hmin1 & Hmax1 & Hcon1);
          [lia | rewrite Hpc; exact Hdrop | exact Hall |]);
       (assert (Hok1 : env_ok (env s1)) by
          (destruct Hok; split; congruence));
       (destruct (Z.eqb_spec (occurrences ">" seg - occurrences "<" seg) 0) as [Hz|Hz];
        [ eapply agrees_prefix; [exact Hrun|];
          eapply IHfuel; [exact Hmore | lia | lia | exact Hok1 |];
          eapply sim_same_con; [exact Hsim | congruence | lia | exact Hcon1 | reflexivity |];
          rewrite Htape1; exact Hwrapped
        | eapply agrees_prefix_fuel; [exact Hrun | destruct seg; [contradiction | simpl; lia] |];
          cbn [app c_exec];
          eapply IHf; [exact Hmore | lia | lia | exact Hok1 |];
          eapply sim_same_con; [exact Hsim | simpl; congruence | simpl; lia | exact Hcon1
                               | reflexivity |];
          rewrite Htape1; exact Hwrapped ]).
  (* a run of + and - *)
  destruct (Ascii.eqb_spec (deref code p) "+") as [E3|E3];
    [|destruct (Ascii.eqb_spec (deref code p) "-") as [E4|E4]]; cbn [orb] in Hc.
  1,2: destruct (ptroutofrange (env s)) eqn:Hrange_s;
       [ eapply violates_now; [exact Hnow|];
         unfold step; rewrite Hpc;
         match goal with E : deref _ _ = _ |- _ => known_char E end;
         rewrite Hrange_s; reflexivity |];
       destruct (collate t "+" "-" _ _ _) as [p' total] eqn:Hcol;
       destruct (compile_block fmt t code fuel p') as [[more q']|] eqn:Hmore; [|discriminate];
       injection Hc as <- <-;
       apply collate_run in Hcol as (seg & rest' & Hdrop & Hall & -> & Hsum & _ & Hin & Hstop);
         [|discriminate];
       (assert (Hseg : seg <> []) by
          (eapply (run_nonempty "+"%char "-"%char); [rewrite <- Hdrop0; exact Hdrop | auto | exact Hstop]));
       pose proof (run_length_bound _ _ _ _ "+"%char "-"%char Hdrop Hlen) as Hnet;
       unfold adjust_stmt;
       rewrite (adjust_amount_exact t total (occurrences "+" seg - occurrences "-" seg))
         by (try assumption; try (apply Hin; assumption); rewrite Hsum; f_equal; lia);
       pose proof (ptr_in_block _ Hok Hrange_s) as Hblock;
       destruct (load_in_block (tape (env s)) (ptr (env s)) Hblock) as [v Hv];
       (assert (Hvw : wrap t v = v) by
          (unfold load in Hv; destruct (ptr (env s) <? 0); [discriminate|];
           rewrite Forall_lookup in Hwrapped; exact (Hwrapped _ _ Hv)));
       (destruct (interpret_cell_run t code seg s rest' v) as
          (s1 & Hrun & Hpc1 & Htape1 & Hptr1 & Hmin1 & Hmax1 & Hcon1);
          [lia | rewrite Hpc; exact Hdrop | exact Hall | exact Hok | exact Hrange_s | exact Hv |]);
       (destruct (decide (seg = [])) as [|_]; [contradiction|]);
       (assert (Hok1 : env_ok (env s1)) by
          (destruct Hok; split; [congruence|];
           rewrite Hmax1, Htape1, length_insert; assumption));
       (assert (Hw1 : Forall (fun v => wrap t v = v) (tape (env s1))) by
          (rewrite Htape1; apply Forall_insert; [exact Hwrapped | apply wrap_idem]));
       (destruct (Z.eqb_spec (occurrences "+" seg - occurrences "-" seg) 0) as [Hz|Hz];
        [ eapply agrees_prefix; [exact Hrun|];
          eapply IHfuel; [exact Hmore | lia | lia | exact Hok1 |];
          eapply sim_same_con; [exact Hsim | | congruence | exact Hcon1 | reflexivity | exact Hw1];
          rewrite Htape1, <- Htape;
          replace (v + occurrences "+" seg - occurrences "-" seg) with v by lia;
          rewrite Hvw; apply list_insert_id;
          unfold load in Hv; destruct (ptr (env s) <? 0); [discriminate | exact Hv]
        | eapply agrees_prefix_fuel; [exact Hrun | destruct seg; [contradiction | simpl; lia] |];
          cbn [app c_exec];
          rewrite <- Htape, <- Hptr, Hv, store_in_block by exact Hblock;
          eapply IHf; [exact Hmore | lia | lia | exact Hok1 |];
          eapply sim_same_con; [exact Hsim | simpl | simpl; congruence | exact Hcon1
                               | reflexivity | exact Hw1];
          rewrite Htape1; f_equal; f_equal; lia ]).
  (* . *)
  destruct (Ascii.eqb_spec (deref code p) ".") as [E5|E5].
  { destruct (compile_block fmt t code fuel (p + 1)) as [[more q']|] eqn:Hmore; [|discriminate].
    injection Hc as <- <-.
    destruct (ptroutofrange (env s)) eqn:Hrange_s.
    { eapply violates_now; [exact Hnow|].
      unfold step. rewrite Hpc. known_char E5. rewrite Hrange_s. reflexivity. }
    pose proof (ptr_in_block _ Hok Hrange_s) as Hblock.
    destruct (load_in_block (tape (env s)) (ptr (env s)) Hblock) as [v Hv].
    eapply agrees_prefix_fuel.
    - apply passes_one; [exact Hnow|].
      unfold step. rewrite Hpc. known_char E5. rewrite Hrange_s, Hv. reflexivity.
    - lia.
    - cbn [c_exec].
      replace (load (c_tape cs) (c_i cs)) with (Some v) by (rewrite <- Htape, <- Hptr, Hv; reflexivity).
      eapply IHf; [exact Hmore | simpl; lia | lia | exact Hok |].
      apply sim_putchar. exact Hsim. }
  (* , *)
  destruct (Ascii.eqb_spec (deref code p) ",") as [E6|E6].
  { destruct (compile_block fmt t code fuel (p + 1)) as [[more q']|] eqn:Hmore; [|discriminate].
    injection Hc as <- <-.
    destruct (ptroutofrange (env s)) eqn:Hrange_s.
    { eapply violates_now; [exact Hnow|].
      unfold step. rewrite Hpc. known_char E6. rewrite Hrange_s. reflexivity. }
    pose proof (ptr_in_block _ Hok Hrange_s) as Hblock.
    set (cells' := <[Z.to_nat (ptr (env s)) := wrap t (fst (_getch (con s)))]> (tape (env s))).
    assert (Hw1 : Forall (fun v => wrap t v = v) cells').
    { apply Forall_insert; [exact Hwrapped | apply wrap_idem]. }
    destruct (sim_getch fmt t out0 s cs (p + 1) cells' Hsim Hw1) as [Hsim1 Hkey].
    eapply (agrees_prefix_fuel _ _ _ _ _ _ 1 s
              {| codeptr := p + 1; env := set_tape (env s) cells';
                 con := snd (_getch (con s)) |}).
    - apply passes_one; [exact Hnow|].
      unfold step. rewrite Hpc. known_char E6. rewrite Hrange_s.
      unfold _getch, write_cell_and_advance. cbn [fst snd].
      rewrite store_in_block by exact Hblock.
      rewrite Hpc. reflexivity.
    - lia.
    - cbn [c_exec]. unfold _getch in *. cbn [fst snd] in *.
      replace (store (c_tape cs) (c_i cs) (wrap t (keys (c_con cs) (consumed (c_con cs)))))
        with (Some cells')
        by (unfold cells'; rewrite Hkey, <- Htape, <- Hptr, store_in_block by exact Hblock;
            reflexivity).
      eapply IHf; [exact Hmore | simpl; lia | lia | |].
      + simpl. apply set_tape_ok; [exact Hok | apply length_insert].
      + exact Hsim1. }
  (* [ *)
  destruct (Ascii.eqb_spec (deref code p) "[") as [E7|E7].
  { destruct (compile_block fmt t code fuel (p + 1)) as [[body m]|] eqn:Hbody; [|discriminate].
    destruct (Ascii.eqb_spec (deref code m) "]") as [Em|Em]; [|discriminate].
    destruct (compile_block fmt t code fuel (m + 1)) as [[more q']|] eqn:Hmore; [|discriminate].
    injection Hc as <- <-.
    destruct (ptroutofrange (env s)) eqn:Hrange_s.
    { eapply violates_now; [exact Hnow|].
      unfold step. rewrite Hpc. known_char E7. rewrite Hrange_s. reflexivity. }
    pose proof (ptr_in_block _ Hok Hrange_s) as Hblock.
    destruct (load_in_block (tape (env s)) (ptr (env s)) Hblock) as [v Hv].
    destruct (deref_in_string code m _ Em) as [Hm _]; [discriminate|].
    destruct (compile_block_brackets fmt t code fuel _ _ _ Hstr Hlen Hbody) as (Hle & _ & _); [lia|].
    assert (Hstep : step t code s =
              Next {| codeptr := if v =? 0 then m + 1 else p + 1; env := env s; con := con s |}).
    { unfold step. rewrite Hpc. known_char E7. rewrite Hrange_s.
      rewrite (open_finds_close fmt t code fuel p body m) by assumption.
      rewrite Hv. destruct (v =? 0); reflexivity. }
    cbn [c_exec].
    replace (load (c_tape cs) (c_i cs)) with (Some v) by (rewrite <- Htape, <- Hptr, Hv; reflexivity).
    destruct (Z.eqb_spec v 0) as [Hv0|Hv0].
    - eapply agrees_prefix_fuel; [apply passes_one; [exact Hnow | exact Hstep] | lia |].
      eapply IHf; [exact Hmore | reflexivity | lia | exact Hok |].
      eapply sim_same_con; [exact Hsim | | | | |]; try reflexivity; assumption.
    - set (s1 := {| codeptr := p + 1; env := env s; con := con s |}) in *.
      assert (Hone : passes t code 1 s = Some s1) by (apply passes_one; assumption).
      assert (Hsim1 : sim fmt t out0 s1 cs).
      { eapply sim_same_con; [exact Hsim | | | | |]; try reflexivity; assumption. }
      pose proof (IHf fuel (p + 1) body m s1 cs Hbody eq_refl ltac:(lia) Hok Hsim1) as Hag.
      destruct Hag as [Hviol | Hag].
      { eapply agrees_prefix; [exact Hone|]. left. exact Hviol. }
      destruct (c_exec t f body cs) as [cs' | cs' | |] eqn:Hexec; try contradiction.
      + destruct Hag as (n & s2 & Hn & Hpc2 & Hok2 & Hsim2).
        set (s3 := {| codeptr := p; env := env s2; con := con s2 |}).
        assert (Hback : passes t code 1 s2 = Some s3).
        { apply passes_one; [rewrite Hpc2, Em; discriminate|].
          unfold step. rewrite Hpc2. known_char Em.
          rewrite (close_finds_open fmt t code fuel p body m) by (assumption || lia).
          reflexivity. }
        eapply (agrees_prefix_fuel _ _ _ _ _ _ (1 + (n + 1))); [| lia |].
        * eapply passes_app; [exact Hone|]. eapply passes_app; [exact Hn | exact Hback].
        * eapply IHf; [exact Hwhole | reflexivity | lia | exact Hok2 |].
          eapply sim_same_con; [exact Hsim2 | | | | |]; try reflexivity.
          -- apply Hsim2.
          -- apply Hsim2.
          -- apply Hsim2.
      + destruct Hag as (n & s2 & Hn & Hle2).
        right. exists (1 + n)%nat, s2. split; [|lia].
        eapply passes_app; [exact Hone | exact Hn]. }
  (* any other character *)
  assert (E8 : deref code p <> ":"%char).
  { intros E. apply Hcolon. rewrite <- E. apply list_elem_of_In.
    apply list_elem_of_lookup. eauto. }
  eapply agrees_prefix.
  - apply passes_one; [exact Hnow|].
    apply step_default; rewrite Hpc; assumption.
  - eapply IHfuel; [exact Hc | simpl; lia | lia | exact Hok |].
    eapply sim_same_con; [exact Hsim | | | | |]; try reflexivity; assumption.
Qed.

(** *** Putting the block lemma to use *)

Lemma step_stop_not_success t code s s' : step t code s <> Stop Success s'.
Proof.
  unfold step, write_cell_and_advance, raise, _getch.
  repeat match goal with
  | |- context [if ?b then _ else _] => destruct b
  | |- context [match ?x with Some _ => _ | None => _ end] => destruct x
  end; discriminate.
Qed.

Lemma interpret_loop_success_inv t code fuel : forall s s',
  interpret_loop t code fuel s = Halted Success s' ->
  exists n, passes t code n s = Some s' /\ deref code (codeptr s') = NUL.
Proof.
  induction fuel as [|fuel IH]; intros s s'; simpl.
  - destruct (Ascii.eqb_spec (deref code (codeptr s)) NUL); [|discriminate].
    intros [= <-]. exists 0%nat. auto.
  - destruct (Ascii.eqb_spec (deref code (codeptr s)) NUL) as [E|E].
    + intros [= <-]. exists 0%nat. auto.
    + destruct (step t code s) as [s1|o s1] eqn:Hs.
      * intros H. destruct (IH _ _ H) as (n & Hn & Hend).
        exists (S n). simpl.
        destruct (Ascii.eqb_spec (deref code (codeptr s)) NUL); [contradiction|].
        rewrite Hs. auto.
      * intros [= -> ->]. exfalso. exact (step_stop_not_success _ _ _ _ Hs).
Qed.

(** More fuel does not change a result. *)
Lemma c_exec_mono t f : forall stmts cs r k,
  c_exec t f stmts cs = r -> r <> CTimeout -> c_exec t (f + k) stmts cs = r.
Proof.
  induction f as [|f IH]; intros stmts cs r k; simpl; [congruence|].
  destruct stmts as [|st more]; [auto|].
  destruct st as [d | d | fmt | | loop | | |]; try (apply IH).
  - destruct (load _ _); [|auto]. destruct (store _ _ _); [apply IH | auto].
  - destruct (load _ _); [apply IH | auto].
  - destruct (store _ _ _); [apply IH | auto].
  - destruct (load _ _) as [v|]; [|auto].
    destruct (v =? 0); [apply IH|].
    destruct (c_exec t f loop cs) as [cs1 | cs1 | |] eqn:Hbody.
    + rewrite (IH _ _ _ k Hbody) by discriminate. apply IH.
    + rewrite (IH _ _ _ k Hbody) by discriminate. auto.
    + rewrite (IH _ _ _ k Hbody) by discriminate. auto.
    + congruence.
  - auto.
Qed.

(** Statements after a block that ends normally run from where it ends. *)
Lemma c_exec_app t f : forall a cs cs' g b r,
  c_exec t f a cs = CNormal cs' ->
  c_exec t g b cs' = r -> r <> CTimeout ->
  c_exec t (f + g) (a ++ b) cs = r.
Proof.
  induction f as [|f IH]; intros a cs cs' g b r; [discriminate|].
  destruct a as [|st more].
  - simpl c_exec at 1. intros [= <-] Hb Hr.
    rewrite Nat.add_comm. simpl app. now apply c_exec_mono.
  - simpl.
    destruct st as [d | d | fmt | | loop | | |]; try (apply IH).
    + destruct (load _ _); [|discriminate]. destruct (store _ _ _); [apply IH | discriminate].
    + destruct (load _ _); [apply IH | discriminate].
    + destruct (store _ _ _); [apply IH | discriminate].
    + destruct (load _ _) as [v|]; [|discriminate].
      destruct (v =? 0); [apply IH|].
      destruct (c_exec t f loop cs) as [cs1 | cs1 | |] eqn:Hbody; try discriminate.
      rewrite (c_exec_mono _ _ _ _ _ g Hbody) by discriminate.
      intros Hloop Hb Hr. exact (IH (CWhile loop :: more) cs1 cs' g b r Hloop Hb Hr).
    + discriminate.
Qed.

Lemma balanced_from_skip seg : forall depth rest,
  Forall (fun c => c <> "["%char /\ c <> "]"%char /\ c <> NUL) seg ->
  balanced_from depth (seg ++ rest) = balanced_from depth rest.
Proof.
  induction seg as [|c seg IH]; intros depth rest Hall; [reflexivity|].
  apply Forall_cons in Hall as [(H1 & H2 & _) Hall]. simpl.
  destruct (Ascii.eqb_spec c "["); [contradiction|].
  destruct (Ascii.eqb_spec c "]"); [contradiction|].
  apply IH. exact Hall.
Qed.

(** A balanced stream compiles: from [depth] open loops, the block ends at
    the [']'] that closes the innermost one, or at the end of the stream
    when none is open. *)
Lemma compile_block_total fmt t code fuel : forall p depth,
  c_string code -> 0 <= p <= Z.of_nat (length code) ->
  balanced_from depth (drop (Z.to_nat p) code) = true ->
  Z.of_nat (length code) - p < Z.of_nat fuel ->
  exists stmts q,
    compile_block fmt t code fuel p = Some (stmts, q) /\
    p <= q <= Z.of_nat (length code) /\
    match depth with
    | O => q = Z.of_nat (length code)
    | S depth' =>
        deref code q = "]"%char /\
        balanced_from depth' (drop (Z.to_nat (q + 1)) code) = true
    end.
Proof.
  intros p depth Hstr. revert p depth.
  induction fuel as [|fuel IH]; intros p depth Hp Hbal Hfuel; [lia|].
  cbn [compile_block].
  (* a run *)
  assert (Hrun : forall up down make,
            up <> down ->
            up <> "["%char -> up <> "]"%char -> up <> NUL ->
            down <> "["%char -> down <> "]"%char -> down <> NUL ->
            deref code p = up \/ deref code p = down ->
            exists stmts q,
              (let '(p', total) := collate t up down (drop (Z.to_nat p) code) p 0 in
               match compile_block fmt t code fuel p' with
               | Some (more, q) => Some (adjust_stmt make total ++ more, q)
               | None => None
               end) = Some (stmts, q) /\
              p <= q <= Z.of_nat (length code) /\
              match depth with
              | O => q = Z.of_nat (length code)
              | S depth' =>
                  deref code q = "]"%char /\
                  balanced_from depth' (drop (Z.to_nat (q + 1)) code) = true
              end).
  { intros up down make Hne U1 U2 U3 D1 D2 D3 Hc.
    assert (E0 : deref code p <> NUL) by (destruct Hc as [-> | ->]; assumption).
    destruct (drop_deref code p (proj1 Hp) E0) as [rest0 Hdrop0].
    destruct (collate t up down _ _ _) as [p' total] eqn:Hcol.
    apply collate_run in Hcol as (seg & rest' & Hdrop & Hall & -> & _ & _ & _ & Hstop);
      [|assumption].
    assert (Hseg : seg <> []).
    { eapply (run_nonempty up down); [rewrite <- Hdrop0; exact Hdrop | exact Hc | exact Hstop]. }
    assert (Hsegl : (1 <= length seg)%nat) by (destruct seg; [contradiction | simpl; lia]).
    assert (Hfit : (length seg <= length code - Z.to_nat p)%nat).
    { pose proof (f_equal length Hdrop) as H1.
      rewrite length_drop, length_app in H1. lia. }
    destruct (IH (p + Z.of_nat (length seg)) depth) as (more & q & Hmore & Hq & Hd).
    - lia.
    - replace (Z.to_nat (p + Z.of_nat (length seg))) with (Z.to_nat p + length seg)%nat by lia.
      rewrite (drop_app_at _ _ _ _ Hdrop).
      rewrite Hdrop, balanced_from_skip in Hbal; [exact Hbal|].
      apply (run_no_bracket up down); assumption.
    - lia.
    - rewrite Hmore. eexists _, q. split; [reflexivity|]. split; [lia | exact Hd]. }
  (* one character that is no bracket *)
  assert (Hone : forall st : list cstmt,
            deref code p <> NUL -> deref code p <> "["%char -> deref code p <> "]"%char ->
            exists stmts q,
              match compile_block fmt t code fuel (p + 1) with
              | Some (more, q) => Some (st ++ more, q)
              | None => None
              end = Some (stmts, q) /\
              p <= q <= Z.of_nat (length code) /\
              match depth with
              | O => q = Z.of_nat (length code)
              | S depth' =>
                  deref code q = "]"%char /\
                  balanced_from depth' (drop (Z.to_nat (q + 1)) code) = true
              end).
  { intros st N1 N2 N3.
    destruct (deref_in_string code p _ eq_refl N1) as [Hrange _].
    destruct (drop_deref code p (proj1 Hp) N1) as [rest0 Hdrop0].
    destruct (IH (p + 1) depth) as (more & q & Hmore & Hq & Hd).
    - lia.
    - replace (Z.to_nat (p + 1)) with (Z.to_nat p + length [deref code p])%nat
        by (simpl; lia).
      rewrite (drop_app_at _ [deref code p] rest0 _ Hdrop0).
      rewrite Hdrop0 in Hbal.
      change (deref code p :: rest0) with ([deref code p] ++ rest0) in Hbal.
      rewrite balanced_from_skip in Hbal; [exact Hbal|].
      repeat constructor; assumption.
    - lia.
    - rewrite Hmore. eexists _, q. split; [reflexivity|]. split; [lia | exact Hd]. }
  destruct (Ascii.eqb_spec (deref code p) NUL) as [E0|E0].
  { cbn [orb]. exists [], p. split; [reflexivity|]. split; [lia|].
    pose proof (c_string_end code p Hstr (proj1 Hp) E0) as Hge.
    rewrite drop_ge in Hbal by lia. simpl in Hbal.
    destruct depth; [lia | discriminate]. }
  destruct (deref_in_string code p _ eq_refl E0) as [Hrange _].
  destruct (drop_deref code p (proj1 Hp) E0) as [rest0 Hdrop0].
  destruct (Ascii.eqb_spec (deref code p) "]") as [E9|E9].
  { cbn [orb]. exists [], p. split; [reflexivity|]. split; [lia|].
    rewrite Hdrop0, E9 in Hbal. simpl in Hbal.
    destruct depth as [|depth']; [discriminate|].
    split; [exact E9|].
    replace (Z.to_nat (p + 1)) with (Z.to_nat p + length [deref code p])%nat by (simpl; lia).
    rewrite (drop_app_at _ [deref code p] rest0 _ Hdrop0). exact Hbal. }
  cbn [orb].
  destruct (Ascii.eqb_spec (deref code p) ">") as [E1|E1];
    [|destruct (Ascii.eqb_spec (deref code p) "<") as [E2|E2]]; cbn [orb].
  1,2: apply (Hrun ">"%char "<"%char CIndex); auto; discriminate.
  destruct (Ascii.eqb_spec (deref code p) "+") as [E3|E3];
    [|destruct (Ascii.eqb_spec (deref code p) "-") as [E4|E4]]; cbn [orb].
  1,2: apply (Hrun "+"%char "-"%char CCell); auto; discriminate.
  destruct (Ascii.eqb_spec (deref code p) ".") as [E5|E5].
  { apply (Hone [CPrintf fmt]); rewrite E5; discriminate. }
  destruct (Ascii.eqb_spec (deref code p) ",") as [E6|E6].
  { apply (Hone [CRead]); rewrite E6; discriminate. }
  destruct (Ascii.eqb_spec (deref code p) "[") as [E7|E7].
  - rewrite Hdrop0, E7 in Hbal. simpl in Hbal.
    destruct (IH (p + 1) (S depth)) as (body & m & Hbody & Hm & Em & Hbal').
    + lia.
    + replace (Z.to_nat (p + 1)) with (Z.to_nat p + length [deref code p])%nat
        by (simpl; lia).
      rewrite (drop_app_at _ [deref code p] rest0 _ Hdrop0). exact Hbal.
    + lia.
    + destruct (deref_in_string code m _ Em) as [Hm' _]; [discriminate|].
      destruct (IH (m + 1) depth) as (more & q & Hmore & Hq & Hd); [lia | exact Hbal' | lia |].
      rewrite Hbody, Em. cbn [Ascii.eqb Bool.eqb]. rewrite Hmore.
      eexists _, q. split; [reflexivity|]. split; [lia | exact Hd].
  - destruct (Hone []) as (stmts & q & H1 & H2 & H3); try assumption.
    exists stmts, q. split; [|split; assumption].
    destruct (compile_block fmt t code fuel (p + 1)) as [[more q']|]; [|discriminate].
    exact H1.
Qed.

(** ** Reading the emitted text back *)

Lemma list_ascii_of_string_app (a b : string) :
  list_ascii_of_string (String.append a b) =
    list_ascii_of_string a ++ list_ascii_of_string b.
Proof. induction a as [|c a IH]; simpl; [reflexivity | now rewrite IH]. Qed.

Lemma chars_emit x ts : chars (emit x ts) = chars ts ++ list_ascii_of_string x.
Proof. apply list_ascii_of_string_app. Qed.

Lemma read_block_mono f : forall s x k,
  read_block f s = Some x -> read_block (f + k) s = Some x.
Proof.
  induction f as [|f IH]; intros s x k; [discriminate|].
  change (S f + k)%nat with (S (f + k)). cbn [read_block].
  destruct (skip_blank s) as [|c s']; [auto|].
  destruct (c =? "}")%char; [auto|].
  destruct (strip_prefix _ _) as [s1|].
  - destruct (read_block f s1) as [[loop s2]|] eqn:H1; [|discriminate].
    rewrite (IH _ _ k H1).
    destruct (strip_prefix _ s2) as [s3|]; [|discriminate].
    destruct (read_block f s3) as [[more rest]|] eqn:H3; [|discriminate].
    now rewrite (IH _ _ k H3).
  - destruct (read_simple _) as [[st s1]|]; [|discriminate].
    destruct (read_block f s1) as [[more rest]|] eqn:H1; [|discriminate].
    now rewrite (IH _ _ k H1).
Qed.

Lemma read_block_blank f b s :
  is_blank b = true -> read_block f (b :: s) = read_block f s.
Proof. intros Hb. destruct f; [reflexivity|]. cbn [read_block skip_blank]. now rewrite Hb. Qed.

Lemma Reads_nil : Reads [] [].
Proof.
  intros X f tl r H. simpl. rewrite Nat.add_0_r. exact H.
Qed.

Lemma Reads_app a b s1 s2 : Reads a s1 -> Reads b s2 -> Reads (a ++ b) (s1 ++ s2).
Proof.
  intros Ha Hb X f tl r H.
  rewrite <- !app_assoc, length_app.
  replace (f + (length a + length b))%nat with (f + length b + length a)%nat by lia.
  apply Ha, Hb, H.
Qed.

Lemma Reads_blanks bs : Forall (fun b => is_blank b = true) bs -> Reads bs [].
Proof.
  induction 1 as [|b bs Hb _ IH]; [apply Reads_nil|].
  intros X f tl r H. simpl.
  rewrite read_block_blank by exact Hb.
  replace (f + S (length bs))%nat with (f + length bs + 1)%nat by lia.
  apply read_block_mono. apply IH. exact H.
Qed.

(** A statement other than a loop. *)
Lemma Reads_simple c text st :
  is_blank c = false -> (c =? "}")%char = false ->
  (forall X, strip_prefix (lit "while (tape[i] != 0) {") (c :: text ++ X) = None) ->
  (forall X, read_simple (c :: text ++ X) = Some (st, X)) ->
  Reads (c :: text) [st].
Proof.
  intros Hb Hc Hw Hs X f tl r H.
  simpl length. replace (f + S (length text))%nat with (S (f + length text)) by lia.
  cbn [read_block app skip_blank]. rewrite Hb, Hc, Hw, Hs.
  rewrite (read_block_mono _ _ _ (length text) H). reflexivity.
Qed.

(** A loop around a body that reads. *)
Lemma Reads_while chunk loop :
  Reads chunk loop ->
  Reads (lit "while (tape[i] != 0) {" ++ chunk ++ lit "}") [CWhile loop].
Proof.
  intros Hbody X f tl r H.
  rewrite <- !app_assoc, !length_app.
  change (length (lit "while (tape[i] != 0) {")) with 22%nat.
  change (length (lit "}")) with 1%nat.
  replace (f + (22 + (length chunk + 1)))%nat with (S (f + 22 + length chunk)) by lia.
  change (lit "while (tape[i] != 0) {" ++ chunk ++ lit "}" ++ X)
    with ("w"%char :: (lit "hile (tape[i] != 0) {" ++ chunk ++ lit "}" ++ X)).
  cbn [read_block skip_blank is_blank Ascii.eqb Bool.eqb orb].
  change (strip_prefix (lit "while (tape[i] != 0) {")
            ("w"%char :: lit "hile (tape[i] != 0) {" ++ chunk ++ lit "}" ++ X))
    with (Some (chunk ++ lit "}" ++ X)).
  assert (Hclose : read_block (f + 21 + 1) (lit "}" ++ X) = Some ([], lit "}" ++ X)).
  { rewrite Nat.add_1_r. reflexivity. }
  pose proof (Hbody _ _ _ _ Hclose) as Hb. rewrite app_nil_r in Hb.
  replace (f + 22 + length chunk)%nat with (f + 21 + 1 + length chunk)%nat by lia.
  rewrite Hb. cbn [lit list_ascii_of_string app strip_prefix Ascii.eqb Bool.eqb].
  replace (f + 21 + 1 + length chunk)%nat with (f + (21 + 1 + length chunk))%nat by lia.
  rewrite (read_block_mono _ _ _ _ H). reflexivity.
Qed.

(** *** Decimal constants *)

Lemma uint_chars (x : ascii) (d : Decimal.uint) :
  x <> "0"%char -> x <> "1"%char -> x <> "2"%char -> x <> "3"%char -> x <> "4"%char ->
  x <> "5"%char -> x <> "6"%char -> x <> "7"%char -> x <> "8"%char -> x <> "9"%char ->
  Forall (fun c => c <> x) (list_ascii_of_string (NilEmpty.string_of_uint d)).
Proof.
  intros. induction d; simpl; constructor; auto.
Qed.

(** The digits ["%d"] prints hold no character that is neither a digit nor
    the sign. *)
Lemma format_d_chars (x : ascii) (z : Z) :
  x <> "0"%char -> x <> "1"%char -> x <> "2"%char -> x <> "3"%char -> x <> "4"%char ->
  x <> "5"%char -> x <> "6"%char -> x <> "7"%char -> x <> "8"%char -> x <> "9"%char ->
  x <> "-"%char ->
  Forall (fun c => c <> x) (list_ascii_of_string (format_d z)).
Proof.
  intros. unfold format_d.
  assert (Hu : forall d, Forall (fun c => c <> x)
                           (list_ascii_of_string (NilZero.string_of_uint d))).
  { intros d. destruct d; try (apply uint_chars; assumption).
    simpl. constructor; auto. }
  destruct (Z.to_int _) as [d|d]; simpl.
  - apply Hu.
  - constructor; [auto | apply Hu].
Qed.

(** They read back as the low 32 bits of the argument. *)
Lemma read_int_format_d (z : Z) :
  read_int (list_ascii_of_string (format_d z)) = Some (wrap_signed 32 z).
Proof.
  unfold read_int, format_d. rewrite string_of_list_ascii_of_string.
  rewrite NilZero.isi.
  - now rewrite DecimalZ.of_to.
  - destruct (wrap_signed 32 z); simpl; try discriminate.
    intros [= H]. exact (DecimalPos.Unsigned.to_uint_nonnil _ H).
  - destruct (wrap_signed 32 z); simpl; try discriminate.
    intros [= H]. exact (DecimalPos.Unsigned.to_uint_nonnil _ H).
Qed.

Lemma split_at_app stop a X :
  Forall (fun c => c <> stop) a ->
  split_at stop (a ++ stop :: X) = Some (a, X).
Proof.
  induction 1 as [|c a Hc _ IH]; simpl.
  - now rewrite Ascii.eqb_refl.
  - destruct (Ascii.eqb_spec c stop); [contradiction|]. now rewrite IH.
Qed.

Lemma strip_prefix_app p X : strip_prefix p (p ++ X) = Some X.
Proof.
  induction p as [|c p IH]; simpl; [reflexivity|].
  now rewrite Ascii.eqb_refl.
Qed.

(** *** The text of each statement *)

Lemma tabs_blank n :
  Forall (fun b => is_blank b = true) (list_ascii_of_string (tabs n)).
Proof.
  induction n as [|n IH]; simpl; constructor; [reflexivity | exact IH].
Qed.

Lemma chars_emit_adjust target ending total ts :
  chars (emit_adjust target ending total ts) =
    chars ts ++ list_ascii_of_string (adjust_text target ending total).
Proof.
  unfold adjust_text, emit_adjust.
  destruct (total >? 0), (total =? 1), (total <? 0), (total =? -1);
    try apply chars_emit; simpl; now rewrite app_nil_r.
Qed.

Lemma read_adjust_inc target X :
  read_adjust target (lit target ++ lit "++;" ++ X) = Some (1, X).
Proof. unfold read_adjust. rewrite strip_prefix_app. reflexivity. Qed.

Lemma read_adjust_dec target X :
  read_adjust target (lit target ++ lit "--;" ++ X) = Some (-1, X).
Proof. unfold read_adjust. rewrite strip_prefix_app. reflexivity. Qed.

Lemma read_adjust_add target z X :
  read_adjust target
    (lit target ++ lit " += " ++ list_ascii_of_string (format_d z) ++ ";"%char :: X)
  = Some (wrap_signed 32 z, X).
Proof.
  unfold read_adjust. rewrite strip_prefix_app.
  cbn [lit list_ascii_of_string app strip_prefix Ascii.eqb Bool.eqb].
  rewrite split_at_app by (apply format_d_chars; discriminate).
  now rewrite read_int_format_d.
Qed.

Lemma read_adjust_sub target z X :
  read_adjust target
    (lit target ++ lit " -= " ++ list_ascii_of_string (format_d z) ++ ";"%char :: X)
  = Some (- wrap_signed 32 z, X).
Proof.
  unfold read_adjust. rewrite strip_prefix_app.
  cbn [lit list_ascii_of_string app strip_prefix Ascii.eqb Bool.eqb].
  rewrite split_at_app by (apply format_d_chars; discriminate).
  now rewrite read_int_format_d.
Qed.

Lemma read_simple_index rest :
  read_simple ("i"%char :: rest) =
    match read_adjust "i" ("i"%char :: rest) with
    | Some (d, r) => Some (CIndex d, r)
    | None => None
    end.
Proof. reflexivity. Qed.

Lemma read_simple_cell (c : ascii) rest :
  c <> "="%char ->
  read_simple (lit "tape[i]" ++ " "%char :: c :: rest) =
    match read_adjust "tape[i]" (lit "tape[i]" ++ " "%char :: c :: rest) with
    | Some (d, r) => Some (CCell d, r)
    | None => None
    end.
Proof.
  intros Hc. unfold read_simple.
  cbn [lit list_ascii_of_string app strip_prefix Ascii.eqb Bool.eqb].
  destruct c as [[] [] [] [] [] [] [] []]; try reflexivity. contradiction.
Qed.

Lemma read_simple_cell_step (c : ascii) rest :
  c <> " "%char ->
  read_simple (lit "tape[i]" ++ c :: rest) =
    match read_adjust "tape[i]" (lit "tape[i]" ++ c :: rest) with
    | Some (d, r) => Some (CCell d, r)
    | None => None
    end.
Proof.
  intros Hc. unfold read_simple.
  cbn [lit list_ascii_of_string app strip_prefix Ascii.eqb Bool.eqb].
  destruct c as [[] [] [] [] [] [] [] []]; try reflexivity. contradiction.
Qed.

(** The statement emitted for a collated total reads as the statement that
    adds the amount it stands for. *)
Lemma Reads_adjust_text target make c0 t0 ending total :
  lit target = c0 :: t0 ->
  is_blank c0 = false -> (c0 =? "}")%char = false ->
  (forall X, strip_prefix (lit "while (tape[i] != 0) {") (lit target ++ X) = None) ->
  (forall c rest, c = "+"%char \/ c = "-"%char ->
     read_simple (lit target ++ c :: rest) =
       match read_adjust target (lit target ++ c :: rest) with
       | Some (d, r) => Some (make d, r)
       | None => None
       end /\
     read_simple (lit target ++ " "%char :: c :: rest) =
       match read_adjust target (lit target ++ " "%char :: c :: rest) with
       | Some (d, r) => Some (make d, r)
       | None => None
       end) ->
  Forall (fun b => is_blank b = true) (list_ascii_of_string ending) ->
  Reads (list_ascii_of_string (adjust_text target ending total)) (adjust_stmt make total).
Proof.
  intros Htarget Hb Hc Hwhile Hsimple Hend.
  assert (Hone : forall body d,
            (forall X, read_simple (lit target ++ body ++ X) = Some (make d, X)) ->
            Reads (lit target ++ body ++ list_ascii_of_string ending) [make d]).
  { intros body d Hread.
    rewrite app_assoc. change [make d] with ([make d] ++ []).
    apply Reads_app; [|apply Reads_blanks, Hend].
    rewrite Htarget. change ((c0 :: t0) ++ body) with (c0 :: (t0 ++ body)).
    apply Reads_simple; try assumption.
    - intros X. change (c0 :: (t0 ++ body) ++ X) with ((c0 :: t0 ++ body) ++ X).
      change (c0 :: t0 ++ body) with ((c0 :: t0) ++ body).
      rewrite <- Htarget, <- app_assoc. apply Hwhile.
    - intros X. change (c0 :: (t0 ++ body) ++ X) with ((c0 :: t0 ++ body) ++ X).
      change (c0 :: t0 ++ body) with ((c0 :: t0) ++ body).
      rewrite <- Htarget, <- app_assoc. apply Hread. }
  unfold adjust_text, emit_adjust, adjust_stmt, adjust_amount.
  destruct (total >? 0); [|destruct (total <? 0)].
  3: apply Reads_nil.
  all: match goal with |- context [if ?b then _ else _] => destruct b end;
       cbn [ccode emit]; rewrite !list_ascii_of_string_app;
       change (list_ascii_of_string "") with (@nil ascii); cbn [app];
       fold (lit target).
  - refine (Hone (lit "++;") 1 _). intros X.
    etransitivity;
      [apply (proj1 (Hsimple "+"%char ("+"%char :: ";"%char :: X) (or_introl eq_refl)))|].
    change (lit target ++ "+"%char :: "+"%char :: ";"%char :: X)
      with (lit target ++ lit "++;" ++ X).
    now rewrite read_adjust_inc.
  - rewrite <- ?app_assoc.
    replace (list_ascii_of_string " += " ++ list_ascii_of_string (format_d total)
               ++ list_ascii_of_string ";" ++ list_ascii_of_string ending)
      with (((list_ascii_of_string " += " ++ list_ascii_of_string (format_d total))
               ++ list_ascii_of_string ";") ++ list_ascii_of_string ending)
      by (now rewrite <- !app_assoc).
    refine (Hone ((list_ascii_of_string " += " ++ list_ascii_of_string (format_d total))
                   ++ list_ascii_of_string ";") _ _).
    intros X. rewrite <- !app_assoc.
    etransitivity;
      [apply (proj2 (Hsimple "+"%char ("="%char :: " "%char ::
                list_ascii_of_string (format_d total) ++ ";"%char :: X) (or_introl eq_refl)))|].
    change (lit target ++ " "%char :: "+"%char :: "="%char :: " "%char ::
              list_ascii_of_string (format_d total) ++ ";"%char :: X)
      with (lit target ++ lit " += " ++ list_ascii_of_string (format_d total) ++ ";"%char :: X).
    now rewrite read_adjust_add.
  - refine (Hone (lit "--;") (-1) _). intros X.
    etransitivity;
      [apply (proj1 (Hsimple "-"%char ("-"%char :: ";"%char :: X) (or_intror eq_refl)))|].
    change (lit target ++ "-"%char :: "-"%char :: ";"%char :: X)
      with (lit target ++ lit "--;" ++ X).
    now rewrite read_adjust_dec.
  - rewrite <- ?app_assoc.
    replace (list_ascii_of_string " -= " ++ list_ascii_of_string (format_d (- total))
               ++ list_ascii_of_string ";" ++ list_ascii_of_string ending)
      with (((list_ascii_of_string " -= " ++ list_ascii_of_string (format_d (- total)))
               ++ list_ascii_of_string ";") ++ list_ascii_of_string ending)
      by (now rewrite <- !app_assoc).
    refine (Hone ((list_ascii_of_string " -= " ++ list_ascii_of_string (format_d (- total)))
                   ++ list_ascii_of_string ";") _ _).
    intros X. rewrite <- !app_assoc.
    etransitivity;
      [apply (proj2 (Hsimple "-"%char ("="%char :: " "%char ::
                list_ascii_of_string (format_d (- total)) ++ ";"%char :: X) (or_intror eq_refl)))|].
    change (lit target ++ " "%char :: "-"%char :: "="%char :: " "%char ::
              list_ascii_of_string (format_d (- total)) ++ ";"%char :: X)
      with (lit target ++ lit " -= " ++ list_ascii_of_string (format_d (- total))
              ++ ";"%char :: X).
    now rewrite read_adjust_sub.
Qed.

Lemma Reads_index_text ending total :
  Forall (fun b => is_blank b = true) (list_ascii_of_string ending) ->
  Reads (list_ascii_of_string (adjust_text "i" ending total)) (adjust_stmt CIndex total).
Proof.
  apply (Reads_adjust_text "i" CIndex "i"%char []); try reflexivity.
  intros c rest _. split; apply read_simple_index.
Qed.

Lemma Reads_cell_text ending total :
  Forall (fun b => is_blank b = true) (list_ascii_of_string ending) ->
  Reads (list_ascii_of_string (adjust_text "tape[i]" ending total)) (adjust_stmt CCell total).
Proof.
  apply (Reads_adjust_text "tape[i]" CCell "t"%char (lit "ape[i]")); try reflexivity.
  intros c rest Hc. split.
  - apply read_simple_cell_step. destruct Hc as [-> | ->]; discriminate.
  - apply read_simple_cell. destruct Hc as [-> | ->]; discriminate.
Qed.

(** *** The loop of [translate] writes what [compile_block] reads *)

Lemma reaches_refl t code ts : reaches t code ts ts.
Proof. intros f r H. now exists f. Qed.

Lemma reaches_trans t code a b c :
  reaches t code a b -> reaches t code b c -> reaches t code a c.
Proof. intros Hab Hbc f r H. destruct (Hbc f r H) as [f' H']. exact (Hab f' r H'). Qed.

Lemma reaches_step t code ts :
  deref code (bfptr ts) <> NUL -> reaches t code ts (translate_step t code ts).
Proof.
  intros Hne f r H. exists (S f). cbn [translate_loop].
  destruct (Ascii.eqb_spec (deref code (bfptr ts)) NUL); [contradiction | exact H].
Qed.

Lemma Reads_pre bs chunk stmts :
  Forall (fun b => is_blank b = true) bs -> Reads chunk stmts -> Reads (bs ++ chunk) stmts.
Proof.
  intros Hb H. change stmts with ([] ++ stmts).
  apply Reads_app; [apply Reads_blanks, Hb | exact H].
Qed.

Lemma Reads_post chunk bs stmts :
  Reads chunk stmts -> Forall (fun b => is_blank b = true) bs -> Reads (chunk ++ bs) stmts.
Proof.
  intros H Hb. rewrite <- (app_nil_r stmts).
  apply Reads_app; [exact H | apply Reads_blanks, Hb].
Qed.

Lemma LF_blank : Forall (fun b => is_blank b = true) (lit LF).
Proof. repeat constructor. Qed.

Lemma Reads_putchar : Reads (lit putchar_text) [CPrintf (lit "%%c")].
Proof.
  change (lit putchar_text)
    with (("p"%char :: List.removelast (List.tail (lit putchar_text))) ++ lit LF).
  apply Reads_post; [|apply LF_blank].
  apply Reads_simple; reflexivity.
Qed.

Lemma Reads_getch : Reads (lit (String.append "tape[i] = _getch();" LF)) [CRead].
Proof.
  change (lit (String.append "tape[i] = _getch();" LF))
    with (("t"%char :: lit "ape[i] = _getch();") ++ lit LF).
  apply Reads_post; [|apply LF_blank].
  apply Reads_simple; reflexivity.
Qed.

Lemma blank_plain bs :
  Forall (fun b => is_blank b = true) bs -> Forall (fun c => c <> "%"%char) bs.
Proof.
  intros H. eapply Forall_impl; [exact H|].
  intros b Hb E. subst b. vm_compute in Hb. discriminate.
Qed.

Lemma adjust_text_plain target ending total :
  Forall (fun c => c <> "%"%char) (lit target) ->
  Forall (fun c => c <> "%"%char) (lit ending) ->
  Forall (fun c => c <> "%"%char) (list_ascii_of_string (adjust_text target ending total)).
Proof.
  intros Ht He. unfold adjust_text, emit_adjust.
  destruct (total >? 0); [|destruct (total <? 0)].
  3: constructor.
  all: match goal with |- context [if ?b then _ else _] => destruct b end;
       cbn [ccode emit]; rewrite !list_ascii_of_string_app;
       repeat (apply Forall_app; split);
       try assumption; try (apply format_d_chars; discriminate);
       repeat constructor; discriminate.
Qed.

Section Views.

Variable view : list ascii -> option (list ascii).
Variable fmt : list ascii.
Variable ptext : list ascii.

Hypothesis view_app : forall a a' b b',
  view a = Some a' -> view b = Some b' -> view (a ++ b) = Some (a' ++ b').
Hypothesis view_plain : forall a,
  Forall (fun c => c <> "%"%char) a -> view a = Some a.
Hypothesis view_putchar : view (lit putchar_text) = Some ptext.
Hypothesis ptext_reads : Reads ptext [CPrintf fmt].

Lemma Emits_app a b s1 s2 :
  Emits view a s1 -> Emits view b s2 -> Emits view (a ++ b) (s1 ++ s2).
Proof.
  intros (a' & Ha & Hra) (b' & Hb & Hrb).
  exists (a' ++ b'). split; [now apply view_app | now apply Reads_app].
Qed.

Lemma Emits_plain a s :
  Forall (fun c => c <> "%"%char) a -> Reads a s -> Emits view a s.
Proof. intros Ha Hr. exists a. split; [now apply view_plain | exact Hr]. Qed.

Lemma Emits_blanks bs : Forall (fun b => is_blank b = true) bs -> Emits view bs [].
Proof.
  intros Hb. apply Emits_plain; [now apply blank_plain | now apply Reads_blanks].
Qed.

Lemma Emits_pre bs chunk stmts :
  Forall (fun b => is_blank b = true) bs -> Emits view chunk stmts ->
  Emits view (bs ++ chunk) stmts.
Proof.
  intros Hb H. change stmts with ([] ++ stmts).
  apply Emits_app; [now apply Emits_blanks | exact H].
Qed.

Lemma Emits_post chunk bs stmts :
  Emits view chunk stmts -> Forall (fun b => is_blank b = true) bs ->
  Emits view (chunk ++ bs) stmts.
Proof.
  intros H Hb. rewrite <- (app_nil_r stmts).
  apply Emits_app; [exact H | now apply Emits_blanks].
Qed.

Lemma Emits_while chunk loop :
  Emits view chunk loop ->
  Emits view (lit "while (tape[i] != 0) {" ++ chunk ++ lit "}") [CWhile loop].
Proof.
  intros (chunk' & Hv & Hr).
  exists (lit "while (tape[i] != 0) {" ++ chunk' ++ lit "}"). split.
  - apply view_app; [apply view_plain; repeat constructor; discriminate|].
    apply view_app; [exact Hv | apply view_plain; repeat constructor; discriminate].
  - now apply Reads_while.
Qed.

Lemma translate_emits t code : forall fuel p stmts q,
  compile_block fmt t code fuel p = Some (stmts, q) ->
  forall ts, bfptr ts = p ->
  exists ts' chunk,
    reaches t code ts ts' /\ bfptr ts' = q /\
    chars ts' = chars ts ++ chunk /\ Emits view chunk stmts.
Proof.
  induction fuel as [|fuel IH]; intros p stmts q Hc ts Hp; [discriminate|].
  cbn [compile_block] in Hc.
  destruct (Ascii.eqb_spec (deref code p) NUL) as [E0|E0];
    [|destruct (Ascii.eqb_spec (deref code p) "]") as [E9|E9]]; cbn [orb] in Hc.
  1,2: injection Hc as <- <-; exists ts, []; split; [apply reaches_refl|];
       split; [exact Hp|]; split; [now rewrite app_nil_r | apply Emits_blanks; constructor].
  assert (Hstep : reaches t code ts (translate_step t code ts))
    by (apply reaches_step; rewrite Hp; exact E0).
  unfold translate_step in Hstep. rewrite Hp in Hstep.
  (* a run of > and < *)
  destruct (Ascii.eqb_spec (deref code p) ">") as [E1|E1];
    [|destruct (Ascii.eqb_spec (deref code p) "<") as [E2|E2]];
    cbn [orb] in Hc, Hstep.
  1,2: destruct (collate t ">" "<" _ _ _) as [p' total];
       destruct (compile_block fmt t code fuel p') as [[more q']|] eqn:Hmore; [|discriminate];
       injection Hc as <- <-;
       match type of Hstep with reaches _ _ _ (set_bfptr ?ts2 _) =>
         destruct (IH p' more q' Hmore (set_bfptr ts2 p') eq_refl)
           as (ts' & chunk & Hreach & Hq & Hchars & Hreads)
       end;
       exists ts',
         ((list_ascii_of_string (tabs (Z.to_nat (indentlevel ts)))
             ++ list_ascii_of_string (adjust_text "i" "" total)
             ++ (if ((deref code p' =? "+")%char || (deref code p' =? "-")%char)%bool
                 then lit " " else lit LF)) ++ chunk);
       (split; [eapply reaches_trans; [exact Hstep | exact Hreach]|]);
       (split; [exact Hq|]);
       (split;
        [ rewrite Hchars; change (chars (set_bfptr ?a _)) with (chars a);
          destruct (_ || _)%bool; rewrite chars_emit, chars_emit_adjust;
          unfold emit_indent; rewrite chars_emit; rewrite <- !app_assoc; reflexivity
        | apply Emits_app; [|exact Hreads];
          apply Emits_pre; [apply tabs_blank|];
          apply Emits_post;
            [ apply Emits_plain;
                [ apply adjust_text_plain; repeat constructor; discriminate
                | apply Reads_index_text; constructor ]
            | destruct (_ || _)%bool; repeat constructor ] ]).
  (* a run of + and - *)
  destruct (Ascii.eqb_spec (deref code p) "+") as [E3|E3];
    [|destruct (Ascii.eqb_spec (deref code p) "-") as [E4|E4]];
    cbn [orb] in Hc, Hstep.
  1,2: destruct (collate t "+" "-" _ _ _) as [p' total];
       destruct (compile_block fmt t code fuel p') as [[more q']|] eqn:Hmore; [|discriminate];
       injection Hc as <- <-;
       match type of Hstep with reaches _ _ _ (set_bfptr ?ts2 _) =>
         destruct (IH p' more q' Hmore (set_bfptr ts2 p') eq_refl)
           as (ts' & chunk & Hreach & Hq & Hchars & Hreads)
       end;
       match type of Hchars with context [if ?b then emit_indent _ else _] =>
         exists ts',
           (((if b then list_ascii_of_string (tabs (Z.to_nat (indentlevel ts))) else [])
               ++ list_ascii_of_string (adjust_text "tape[i]" LF total)) ++ chunk);
         (split; [eapply reaches_trans; [exact Hstep | exact Hreach]|]);
         (split; [exact Hq|]);
         (split;
          [ rewrite Hchars; change (chars (set_bfptr ?a _)) with (chars a);
            rewrite chars_emit_adjust; destruct b;
            [unfold emit_indent; rewrite chars_emit|];
            rewrite <- ?app_assoc; reflexivity
          | apply Emits_app; [|exact Hreads];
            apply Emits_pre; [destruct b; [apply tabs_blank | constructor]|];
            apply Emits_plain;
              [ apply adjust_text_plain; repeat constructor; discriminate
              | apply Reads_cell_text; apply LF_blank ] ])
       end.
  (* . *)
  destruct (Ascii.eqb_spec (deref code p) ".") as [E5|E5].
  { destruct (compile_block fmt t code fuel (p + 1)) as [[more q']|] eqn:Hmore; [|discriminate].
    injection Hc as <- <-.
    match type of Hstep with reaches _ _ _ ?ts1 =>
      destruct (IH (p + 1) more q' Hmore ts1 eq_refl)
        as (ts' & chunk & Hreach & Hq & Hchars & Hreads)
    end.
    exists ts', ((list_ascii_of_string (tabs (Z.to_nat (indentlevel ts)))
                    ++ lit putchar_text) ++ chunk).
    split; [eapply reaches_trans; [exact Hstep | exact Hreach]|].
    split; [exact Hq|]. split.
    - rewrite Hchars. change (chars (set_bfptr ?a _)) with (chars a).
      rewrite chars_emit. unfold emit_indent. rewrite chars_emit.
      rewrite <- !app_assoc. reflexivity.
    - refine (Emits_app _ _ [_] _ _ Hreads).
      apply Emits_pre; [apply tabs_blank|].
      exists ptext. split; [exact view_putchar | exact ptext_reads]. }
  (* , *)
  destruct (Ascii.eqb_spec (deref code p) ",") as [E6|E6].
  { destruct (compile_block fmt t code fuel (p + 1)) as [[more q']|] eqn:Hmore; [|discriminate].
    injection Hc as <- <-.
    match type of Hstep with reaches _ _ _ ?ts1 =>
      destruct (IH (p + 1) more q' Hmore ts1 eq_refl)
        as (ts' & chunk & Hreach & Hq & Hchars & Hreads)
    end.
    exists ts', ((list_ascii_of_string (tabs (Z.to_nat (indentlevel ts)))
                    ++ lit (String.append "tape[i] = _getch();" LF)) ++ chunk).
    split; [eapply reaches_trans; [exact Hstep | exact Hreach]|].
    split; [exact Hq|]. split.
    - rewrite Hchars. change (chars (set_bfptr ?a _)) with (chars a).
      rewrite chars_emit. unfold emit_indent. rewrite chars_emit.
      rewrite <- !app_assoc. reflexivity.
    - refine (Emits_app _ _ [_] _ _ Hreads).
      apply Emits_pre; [apply tabs_blank|].
      apply Emits_plain; [repeat constructor; discriminate | apply Reads_getch]. }
  (* [ *)
  destruct (Ascii.eqb_spec (deref code p) "[") as [E7|E7].
  { destruct (compile_block fmt t code fuel (p + 1)) as [[loop m]|] eqn:Hloop; [|discriminate].
    destruct (Ascii.eqb_spec (deref code m) "]") as [Em|Em]; [|discriminate].
    destruct (compile_block fmt t code fuel (m + 1)) as [[more q']|] eqn:Hmore; [|discriminate].
    injection Hc as <- <-.
    match type of Hstep with reaches _ _ _ ?ts1 =>
      destruct (IH (p + 1) loop m Hloop ts1 eq_refl)
        as (ts2 & chunk2 & Hreach2 & Hm & Hchars2 & Hreads2)
    end.
    assert (Hstep2 : reaches t code ts2 (translate_step t code ts2))
      by (apply reaches_step; rewrite Hm, Em; discriminate).
    unfold translate_step in Hstep2. rewrite Hm, Em in Hstep2.
    cbn [Ascii.eqb Bool.eqb orb andb] in Hstep2.
    match type of Hstep2 with reaches _ _ _ ?ts3 =>
      destruct (IH (m + 1) more q' Hmore ts3 eq_refl)
        as (ts' & chunk & Hreach & Hq & Hchars & Hreads)
    end.
    exists ts',
      ((list_ascii_of_string (tabs (Z.to_nat (indentlevel ts)))
          ++ (lit "while (tape[i] != 0) {"
                ++ (lit LF ++ chunk2
                      ++ list_ascii_of_string
                           (tabs (Z.to_nat (wrap_signed 32 (indentlevel ts2 - 1)))))
                ++ lit "}")
          ++ lit LF) ++ chunk).
    split; [eapply reaches_trans; [exact Hstep|];
            eapply reaches_trans; [exact Hreach2|];
            eapply reaches_trans; [exact Hstep2 | exact Hreach]|].
    split; [exact Hq|]. split.
    - rewrite Hchars. change (chars (set_bfptr ?a _)) with (chars a).
      rewrite chars_emit. unfold emit_indent. rewrite chars_emit.
      change (chars (set_indentlevel ?a _)) with (chars a).
      rewrite Hchars2. change (chars (set_bfptr ?a _)) with (chars a).
      change (chars (set_indentlevel ?a _)) with (chars a).
      rewrite chars_emit. unfold emit_indent. rewrite chars_emit.
      rewrite <- !app_assoc. reflexivity.
    - refine (Emits_app _ _ [_] _ _ Hreads).
      apply Emits_pre; [apply tabs_blank|].
      apply Emits_post; [|apply LF_blank].
      apply Emits_while.
      apply Emits_pre; [apply LF_blank|].
      apply Emits_post; [exact Hreads2 | apply tabs_blank]. }
  (* any other character *)
  destruct (Ascii.eqb_spec (deref code p) "]") as [E8|E8]; [contradiction|].
  destruct (IH (p + 1) stmts q Hc (set_bfptr ts (p + 1)) eq_refl)
    as (ts' & chunk & Hreach & Hq & Hchars & Hreads).
  exists ts', chunk.
  split; [eapply reaches_trans; [exact Hstep | exact Hreach]|].
  split; [exact Hq|]. split; [exact Hchars | exact Hreads].
Qed.

End Views.

(** The text in [ccode], as it is. *)
Lemma translate_reads t code fuel p stmts q :
  compile_block (lit "%%c") t code fuel p = Some (stmts, q) ->
  forall ts, bfptr ts = p ->
  exists ts' chunk,
    reaches t code ts ts' /\ bfptr ts' = q /\
    chars ts' = chars ts ++ chunk /\ Reads chunk stmts.
Proof.
  intros Hc ts Hp.
  destruct (translate_emits Some (lit "%%c") (lit putchar_text)
              (fun a a' b b' Ha Hb =>
                 match Ha in _ = x, Hb in _ = y
                 return Some (a ++ b) = match x, y with
                                        | Some u, Some v => Some (u ++ v)
                                        | _, _ => None
                                        end
                 with eq_refl, eq_refl => eq_refl end)
              (fun a _ => eq_refl) eq_refl Reads_putchar t code fuel p stmts q Hc ts Hp)
    as (ts' & chunk & Hreach & Hq & Hchars & chunk' & [= <-] & Hreads).
  now exists ts', chunk.
Qed.

(** *** The whole emitted text, read back *)

Lemma translate_loop_mono t code f : forall ts r k,
  translate_loop t code f ts = Some r -> translate_loop t code (f + k) ts = Some r.
Proof.
  induction f as [|f IH]; intros ts r k; simpl.
  - destruct (_ =? _)%char eqn:E; [|discriminate].
    intros H. destruct k; simpl; now rewrite E.
  - destruct (_ =? _)%char; [auto | apply IH].
Qed.

Lemma prologue_chars t e :
  chars (prologue t e) =
    chars headers ++ lit TAB ++ declaration t (maxaddr e - minaddr e + 1)
      ++ lit LF ++ lit TAB ++ lit "ptrdiff_t i = 0;" ++ lit LF ++ lit LF.
Proof.
  change (prologue t e) with
    (emit LF
       (emit (String.append "ptrdiff_t i = 0;" LF)
          (emit TAB
             (emit (String.append (DECLTYPE_STR t)
                      (String.append " *tape = ("
                         (String.append (DECLTYPE_STR t)
                            (String.append " *)calloc("
                               (String.append (format_d (maxaddr e - minaddr e + 1))
                                  (String.append ", sizeof("
                                     (String.append (DECLTYPE_STR t)
                                        (String.append "));" LF))))))))
                (emit TAB headers))))).
  rewrite !chars_emit, !list_ascii_of_string_app. unfold declaration, lit.
  rewrite <- !app_assoc. reflexivity.
Qed.

Lemma epilogue_chars ts :
  exists b1 b2 b3 b4,
    Forall (fun b => is_blank b = true) b1 /\ Forall (fun b => is_blank b = true) b2 /\
    Forall (fun b => is_blank b = true) b3 /\ Forall (fun b => is_blank b = true) b4 /\
    chars (epilogue ts) =
      chars ts ++ (b1 ++ lit "free(tape);" ++ b2 ++ lit "_getch();" ++ b3
                     ++ lit "return 0;" ++ b4) ++ lit "}" ++ lit LF.
Proof.
  unfold epilogue, emit_indent.
  cbn [indentlevel emit set_indentlevel].
  exists (list_ascii_of_string (tabs (Z.to_nat (indentlevel ts))) ++ lit LF
            ++ list_ascii_of_string (tabs (Z.to_nat (indentlevel ts)))).
  exists (lit LF ++ list_ascii_of_string (tabs (Z.to_nat (indentlevel ts)))).
  exists (lit LF ++ list_ascii_of_string (tabs (Z.to_nat (indentlevel ts))) ++ lit LF
            ++ list_ascii_of_string (tabs (Z.to_nat (indentlevel ts)))).
  exists (lit LF ++ list_ascii_of_string (tabs (Z.to_nat (indentlevel ts))) ++ lit LF
            ++ list_ascii_of_string
                 (tabs (Z.to_nat (wrap_signed 32 (indentlevel ts - 1))))).
  repeat (split; [repeat (apply Forall_app; split);
                  try apply tabs_blank; try apply LF_blank; constructor|]).
  repeat first [ rewrite chars_emit
               | progress change (chars (set_indentlevel ?a ?b)) with (chars a) ].
  rewrite ?list_ascii_of_string_app. unfold lit.
  rewrite <- !app_assoc. reflexivity.
Qed.

Lemma skip_headers k X :
  strip_prefix (lit "int main() {") (skip_directives (5 + k) (chars headers ++ X)) =
    Some (lit LF ++ lit TAB ++ lit LF ++ X).
Proof. reflexivity. Qed.

Lemma read_allocation_declaration t n X :
  read_allocation all_storage_t (declaration t n ++ X) = Some (t, wrap_signed 32 n, X).
Proof.
  unfold declaration. rewrite <- !app_assoc.
  destruct t; cbn -[format_d split_at read_int wrap_signed];
    rewrite split_at_app by (apply format_d_chars; discriminate);
    rewrite read_int_format_d; reflexivity.
Qed.

Lemma Reads_epilogue b1 b2 b3 b4 :
  Forall (fun b => is_blank b = true) b1 -> Forall (fun b => is_blank b = true) b2 ->
  Forall (fun b => is_blank b = true) b3 -> Forall (fun b => is_blank b = true) b4 ->
  Reads (b1 ++ lit "free(tape);" ++ b2 ++ lit "_getch();" ++ b3 ++ lit "return 0;" ++ b4)
    [CFree; CWait; CReturn].
Proof.
  intros H1 H2 H3 H4.
  apply Reads_pre; [exact H1|].
  refine (Reads_app _ _ [_] _ _ _); [apply Reads_simple; reflexivity|].
  apply Reads_pre; [exact H2|].
  refine (Reads_app _ _ [_] _ _ _); [apply Reads_simple; reflexivity|].
  apply Reads_pre; [exact H3|].
  apply Reads_post; [apply Reads_simple; reflexivity | exact H4].
Qed.

Lemma skip_headers_fuel fuel X :
  (5 <= fuel)%nat ->
  strip_prefix (lit "int main() {") (skip_directives fuel (chars headers ++ X)) =
    Some (lit LF ++ lit TAB ++ lit LF ++ X).
Proof.
  intros H. replace fuel with (5 + (fuel - 5))%nat by lia. apply skip_headers.
Qed.

Lemma skip_blank_declaration t n X :
  skip_blank (lit LF ++ lit TAB ++ lit LF ++ lit TAB ++ declaration t n ++ X) =
    declaration t n ++ X.
Proof. destruct t; reflexivity. Qed.

Lemma after_declaration Y :
  strip_prefix (lit "ptrdiff_t i = 0;")
    (skip_blank (lit LF ++ lit TAB ++ lit "ptrdiff_t i = 0;" ++ Y)) = Some Y.
Proof. reflexivity. Qed.

(** A text made of the headers, the declarations and statements that read
    as [stmts] is read as the program with these statements. *)
Lemma read_program_shape source t n chunk stmts :
  list_ascii_of_string source =
    chars headers ++ lit TAB ++ declaration t n ++ lit LF ++ lit TAB
      ++ lit "ptrdiff_t i = 0;" ++ chunk ++ lit "}" ++ lit LF ->
  Reads chunk stmts ->
  read_program source =
    Some {| cell_type := t; cells := wrap_signed 32 n; body := stmts |}.
Proof.
  intros Hs Hreads. unfold read_program. rewrite Hs.
  match goal with |- context [S (length ?w)] => remember (S (length w)) as fuel eqn:Hfuel end.
  assert (Hlarge : (5 <= fuel /\ 1 + length chunk <= fuel)%nat).
  { subst fuel. rewrite !length_app. simpl. lia. }
  destruct Hlarge as [H5 Hchunk].
  rewrite skip_headers_fuel by exact H5.
  rewrite skip_blank_declaration, read_allocation_declaration, after_declaration.
  replace fuel with (1 + length chunk + (fuel - (1 + length chunk)))%nat by lia.
  rewrite (read_block_mono _ _ (stmts ++ [], lit "}" ++ lit LF)).
  - rewrite app_nil_r. reflexivity.
  - apply Hreads. reflexivity.
Qed.

Lemma read_program_emitted t e ts chunk stmts :
  chars ts = chars (prologue t e) ++ chunk -> Reads chunk stmts ->
  read_program (ccode (epilogue ts)) =
    Some {| cell_type := t; cells := wrap_signed 32 (maxaddr e - minaddr e + 1);
            body := stmts ++ [CFree; CWait; CReturn] |}.
Proof.
  intros Hchars Hreads.
  destruct (epilogue_chars ts)
    as (b1 & b2 & b3 & b4 & Hb1 & Hb2 & Hb3 & Hb4 & Hep).
  apply (read_program_shape _ _ _
           (lit LF ++ lit LF ++ chunk
              ++ (b1 ++ lit "free(tape);" ++ b2 ++ lit "_getch();" ++ b3
                    ++ lit "return 0;" ++ b4))).
  - fold (chars (epilogue ts)). rewrite Hep, Hchars, prologue_chars.
    rewrite <- !app_assoc. reflexivity.
  - apply Reads_pre; [apply LF_blank|]. apply Reads_pre; [apply LF_blank|].
    apply Reads_app; [exact Hreads|]. now apply Reads_epilogue.
Qed.

Lemma outputs_percent_c vs :
  outputs (c_printf (lit "%%c")) vs = percent_c (length vs).
Proof.
  induction vs as [|v vs IH]; [reflexivity|].
  cbn [outputs]. rewrite IH. reflexivity.
Qed.

Lemma outputs_format_c_length vs : String.length (outputs format_c vs) = length vs.
Proof. induction vs as [|v vs IH]; simpl; [reflexivity | now rewrite IH]. Qed.

Lemma deref_past_end code : deref code (Z.of_nat (length code)) = NUL.
Proof.
  unfold deref. destruct (Z.ltb_spec (Z.of_nat (length code)) 0); [reflexivity|].
  rewrite lookup_ge_None_2 by lia. reflexivity.
Qed.

(** A state the loop of [translate] passes through with [bfptr] at the end
    of the stream is the one it exits with. *)
Lemma translate_body_reached t e code ts :
  reaches t code (prologue t e) ts -> bfptr ts = Z.of_nat (length code) ->
  translate_body t e code = Some ts.
Proof.
  intros Hreach Hts.
  destruct (Hreach 0%nat ts) as [f' Hf'].
  { simpl. now rewrite Hts, deref_past_end. }
  destruct (translate_loop_total t code (length code) (prologue t e))
    as (ts2 & H2 & _); [simpl; lia | simpl; lia |].
  unfold translate_body. rewrite H2. f_equal.
  apply (translate_loop_mono _ _ _ _ _ (length code)) in Hf'.
  apply (translate_loop_mono _ _ _ _ _ f') in H2.
  rewrite Nat.add_comm in H2. congruence.
Qed.

(** For a balanced stream the loop of [translate] exits with the text that
    reads as the statements of the stream. *)
Lemma translate_body_reads t e code :
  c_string code -> balanced code = true ->
  exists ts chunk stmts,
    translate_body t e code = Some ts /\
    compile_block (lit "%%c") t code (S (length code)) 0 = Some (stmts, Z.of_nat (length code)) /\
    chars ts = chars (prologue t e) ++ chunk /\ Reads chunk stmts.
Proof.
  intros Hstr Hbal.
  destruct (compile_block_total (lit "%%c") t code (S (length code)) 0 0%nat Hstr)
    as (stmts & q & Hc & _ & Hq); [lia | exact Hbal | lia |].
  subst q.
  destruct (translate_reads t code _ _ _ _ Hc (prologue t e) eq_refl)
    as (ts & chunk & Hreach & Hts & Hchars & Hreads).
  exists ts, chunk, stmts. repeat split; try assumption.
  now apply translate_body_reached.
Qed.

(** The statements of a whole stream, followed by those of the epilogue,
    run as [interpret] does when it returns success: same cells, same
    cursor, one more key read, and the same cell values printed, each with
    the format of the statements. *)
Lemma emitted_statements_run fmt t (tapesize : N) code c fuel s' stmts :
  32 <= bits t ->
  c_string code -> Z.of_nat (length code) < 2 ^ 31 -> ~ In ":"%char code ->
  compile_block fmt t code (S (length code)) 0 = Some (stmts, Z.of_nat (length code)) ->
  interpret t code fuel (xl_brainfuck_env_ctor tapesize) c = Halted Success s' ->
  exists fuel' cs vs,
    c_exec t fuel' (stmts ++ [CFree; CWait; CReturn])
      {| c_tape := replicate (N.to_nat tapesize) 0; c_i := 0; c_con := c |}
      = CReturned cs /\
    c_tape cs = tape (env s') /\ c_i cs = ptr (env s') /\
    stdout (con s') = String.append (stdout c) (outputs format_c vs) /\
    stdout (c_con cs) = String.append (stdout c) (outputs (c_printf fmt) vs) /\
    consumed (c_con cs) = S (consumed (con s')).
Proof.
  intros Hbits Hstr Hlen Hcolon Hc Hrun.
  set (this := xl_brainfuck_env_ctor tapesize) in *.
  unfold interpret in Hrun.
  apply interpret_loop_success_inv in Hrun as (n0 & Hpass & Hnul).
  set (s0 := {| codeptr := 0; env := this; con := c |}) in *.
  set (cs0 := {| c_tape := replicate (N.to_nat tapesize) 0; c_i := 0; c_con := c |}).
  assert (Hsim : sim fmt t (stdout c) s0 cs0).
  { repeat split; try reflexivity.
    - exists []. split; simpl; now rewrite append_empty_r.
    - simpl. apply Forall_replicate. destruct t; reflexivity. }
  assert (Hok : env_ok (env s0)) by apply ctor_ok.
  pose proof (compile_block_agrees fmt t code (stdout c) Hstr Hlen Hbits Hcolon
                (S (S n0)) _ _ _ _ s0 cs0 Hc eq_refl (Z.le_refl 0) Hok Hsim) as Hag.
  destruct Hag as [(n & s_n & i & sv & Hp & Hne & Hstop) | Hres].
  { destruct (passes_stop _ _ _ _ _ _ _ _ _ Hp Hne Hstop Hpass) as [_ Hno].
    destruct (Hno Hnul). }
  destruct (c_exec t (S (S n0)) stmts cs0) as [cs1 | cs1 | |] eqn:Hex; try contradiction.
  2: { destruct Hres as (n & s1 & Hp & Hle).
       destruct (passes_end _ _ _ _ _ _ _ Hpass Hnul Hp) as [Hn _]. lia. }
  destruct Hres as (n & s1 & Hp & Hcp & _ & Hsim1).
  destruct (passes_end _ _ _ _ _ _ _ Hpass Hnul Hp) as [_ Hsame].
  destruct Hsame as [_ ->]; [rewrite Hcp; apply deref_past_end|].
  destruct Hsim1 as (Htape & Hptr & _ & Hcons & (vs & Hw1 & Hw2) & _).
  exists (S (S n0) + 4)%nat.
  exists {| c_tape := c_tape cs1; c_i := c_i cs1; c_con := snd (_getch (c_con cs1)) |}.
  exists vs.
  split; [eapply c_exec_app; [exact Hex | reflexivity | discriminate]|].
  cbn [c_tape c_i c_con _getch snd stdout consumed].
  repeat split; congruence.
Qed.

(** The count in the emitted declaration is the capacity when it is below
    2^31. *)
Lemma capacity_printed (tapesize : N) :
  Z.of_N tapesize < 2 ^ 31 ->
  Z.to_nat (wrap_signed 32 (maxaddr (xl_brainfuck_env_ctor tapesize)
                             - minaddr (xl_brainfuck_env_ctor tapesize) + 1))
    = N.to_nat tapesize.
Proof.
  intros Hsize. rewrite wrap_signed_small; [|lia|].
  - simpl. replace (0 + Z.of_N tapesize - 1 - 0 + 1) with (Z.of_N tapesize) by lia.
    rewrite <- N_nat_Z. now rewrite Nat2Z.id.
  - simpl. change (2 ^ (32 - 1)) with (2 ^ 31). lia.
Qed.

(** For a cell type of 32 bits or more, a tape of fewer than 2^31 cells
    and a balanced stream without [':'] shorter than 2^31: when [interpret]
    on a fresh environment returns success, [translate] succeeds on the same
    stream, and its text, read back and run on the same console, returns
    with the same cells and the index on the cursor, after reading one more
    key (the final [_getch();]) and writing the two characters [%c] for
    each character [interpret] wrote. *)
Theorem emitted_program_follows_interpret
    (t : storage_t) (tapesize : N) (code : list ascii) (c : console)
    (fuel : nat) (s' : istate) :
  32 <= bits t ->
  Z.of_N tapesize < 2 ^ 31 ->
  c_string code -> Z.of_nat (length code) < 2 ^ 31 ->
  balanced code = true -> ~ In ":"%char code ->
  interpret t code fuel (xl_brainfuck_env_ctor tapesize) c = Halted Success s' ->
  exists tr fuel' cs w,
    translate t (xl_brainfuck_env_ctor tapesize) code = Some tr /\
    run_emitted fuel' (text tr) c = Some (CReturned cs) /\
    c_tape cs = tape (env s') /\ c_i cs = ptr (env s') /\
    stdout (con s') = String.append (stdout c) w /\
    stdout (c_con cs) = String.append (stdout c) (percent_c (String.length w)) /\
    consumed (c_con cs) = S (consumed (con s')).
Proof.
  intros Hbits Hsize Hstr Hlen Hbal Hcolon Hrun.
  set (this := xl_brainfuck_env_ctor tapesize) in *.
  destruct (translate_body_reads t this code Hstr Hbal)
    as (ts & chunk & stmts & Hbody & Hc & Hchars & Hreads).
  destruct (emitted_statements_run _ t tapesize code c fuel s' stmts
              Hbits Hstr Hlen Hcolon Hc Hrun)
    as (fuel' & cs & vs & Hex & Htape & Hptr & Hw1 & Hw2 & Hcons).
  rewrite outputs_percent_c, <- (outputs_format_c_length vs) in Hw2.
  exists {| text := ccode (epilogue ts);
            result := if indentlevel (epilogue ts) =? 0 then 0 else 1;
            this_after := this |}.
  exists fuel', cs, (outputs format_c vs).
  split; [unfold translate; now rewrite Hbody|].
  split; [|auto].
  unfold run_emitted. cbn [text].
  rewrite (read_program_emitted t this ts chunk stmts Hchars Hreads).
  f_equal. unfold c_run. cbn [cell_type cells body].
  unfold this. rewrite capacity_printed by exact Hsize. exact Hex.
Qed.

Lemma emitted_program_follows_interpret_witness :
  exists tr fuel' cs w,
    translate t_int (xl_brainfuck_env_ctor 4) (list_ascii_of_string "+[-]>++.") = Some tr /\
    run_emitted fuel' (text tr) no_keys = Some (CReturned cs) /\
    c_tape cs = [0; 2; 0; 0] /\ c_i cs = 1 /\
    String (ascii_of_nat 2) EmptyString = String.append EmptyString w /\
    stdout (c_con cs) = String.append EmptyString (percent_c (String.length w)) /\
    consumed (c_con cs) = 1%nat.
Proof.
  apply (emitted_program_follows_interpret t_int 4 (list_ascii_of_string "+[-]>++.")
           no_keys 20
           {| codeptr := 8; env := mk_env [0; 2; 0; 0] 1 0 3;
              con := printf (format_c 2) no_keys |}).
  - simpl. lia.
  - reflexivity.
  - repeat constructor; discriminate.
  - reflexivity.
  - reflexivity.
  - simpl. intros H. repeat (destruct H as [H|H]; [discriminate|]). exact H.
  - reflexivity.
Defined.

(** * The translator program *)

(** ** The format pass of [fprintf] *)

Lemma fprintf_plain_app a : forall a' b b',
  fprintf_plain a = Some a' -> fprintf_plain b = Some b' ->
  fprintf_plain (a ++ b) = Some (a' ++ b').
Proof.
  assert (H : forall n a, (length a <= n)%nat -> forall a' b b',
            fprintf_plain a = Some a' -> fprintf_plain b = Some b' ->
            fprintf_plain (a ++ b) = Some (a' ++ b')).
  { induction n as [|n IH]; intros [|c s] Hn a' b b' Ha Hb;
      try (injection Ha as <-; exact Hb); [simpl in Hn; lia|].
    cbn [fprintf_plain app] in *. destruct (c =? "%")%char.
    - destruct s as [|d s]; [discriminate|]. cbn [app].
      destruct (d =? "%")%char; [|discriminate].
      destruct (fprintf_plain s) as [o|] eqn:E; [|discriminate].
      injection Ha as <-.
      rewrite (IH s ltac:(simpl in Hn; lia) o b b' E Hb). reflexivity.
    - destruct (fprintf_plain s) as [o|] eqn:E; [|discriminate].
      injection Ha as <-.
      rewrite (IH s ltac:(simpl in Hn; lia) o b b' E Hb). reflexivity. }
  intros a' b b'. exact (H (length a) a (Nat.le_refl _) a' b b').
Qed.

Lemma fprintf_plain_plain a :
  Forall (fun c => c <> "%"%char) a -> fprintf_plain a = Some a.
Proof.
  induction 1 as [|c a Hc _ IH]; [reflexivity|].
  cbn [fprintf_plain]. destruct (Ascii.eqb_spec c "%"); [contradiction|].
  now rewrite IH.
Qed.

Lemma fprintf_plain_putchar :
  fprintf_plain (lit putchar_text) = Some (lit putchar_written).
Proof. reflexivity. Qed.

Lemma Reads_putchar_written : Reads (lit putchar_written) [CPrintf (lit "%c")].
Proof.
  change (lit putchar_written)
    with (("p"%char :: List.removelast (List.tail (lit putchar_written))) ++ lit LF).
  apply Reads_post; [|apply LF_blank].
  apply Reads_simple; reflexivity.
Qed.

(** The text of a block, once through [fprintf], reads as the statements of
    the block with the format ["%c"]. *)
Lemma translate_writes t code fuel p stmts q :
  compile_block (lit "%c") t code fuel p = Some (stmts, q) ->
  forall ts, bfptr ts = p ->
  exists ts' chunk,
    reaches t code ts ts' /\ bfptr ts' = q /\
    chars ts' = chars ts ++ chunk /\ Emits fprintf_plain chunk stmts.
Proof.
  apply (translate_emits fprintf_plain (lit "%c") (lit putchar_written)).
  - intros a a' b b'. apply fprintf_plain_app.
  - apply fprintf_plain_plain.
  - apply fprintf_plain_putchar.
  - apply Reads_putchar_written.
Qed.

(** ** What [translate] writes for any stream *)

Lemma string_length_chars (s : string) :
  String.length s = length (list_ascii_of_string s).
Proof. induction s as [|c s IH]; simpl; [reflexivity | now rewrite IH]. Qed.

(** A pass of the loop appends a text that [fprintf] takes without a
    fault. *)
Lemma translate_step_writes t code ts :
  exists chunk chunk',
    chars (translate_step t code ts) = chars ts ++ chunk /\
    fprintf_plain chunk = Some chunk'.
Proof.
  assert (Hplain : forall ts1 chunk,
            chars ts1 = chars ts ++ chunk -> Forall (fun c => c <> "%"%char) chunk ->
            exists chunk chunk',
              chars ts1 = chars ts ++ chunk /\ fprintf_plain chunk = Some chunk').
  { intros ts1 chunk H1 H2. exists chunk, chunk. split; [exact H1|].
    now apply fprintf_plain_plain. }
  assert (Htabs : forall n, Forall (fun c => c <> "%"%char) (list_ascii_of_string (tabs n)))
    by (intros n; apply blank_plain, tabs_blank).
  unfold translate_step.
  destruct (_ || _)%bool.
  { destruct (collate t ">" "<" _ _ _) as [p' total].
    change (chars (set_bfptr ?a _)) with (chars a).
    match goal with
    | |- context [if ?b then emit " " _ else _] =>
        apply (Hplain _ (list_ascii_of_string (tabs (Z.to_nat (indentlevel ts)))
                           ++ list_ascii_of_string (adjust_text "i" "" total)
                           ++ (if b then lit " " else lit LF)))
    end.
    - destruct (_ || _)%bool; rewrite chars_emit, chars_emit_adjust;
        unfold emit_indent; rewrite chars_emit, <- !app_assoc; reflexivity.
    - destruct (_ || _)%bool; repeat (apply Forall_app; split); try apply Htabs;
        try (apply adjust_text_plain; repeat constructor; discriminate);
        repeat constructor; discriminate. }
  destruct (_ || _)%bool.
  { destruct (collate t "+" "-" _ _ _) as [p' total].
    change (chars (set_bfptr ?a _)) with (chars a).
    destruct (_ || _)%bool.
    - eapply Hplain.
      + rewrite chars_emit_adjust. unfold emit_indent.
        rewrite chars_emit, <- !app_assoc. reflexivity.
      + apply Forall_app; split; [apply Htabs|].
        apply adjust_text_plain; repeat constructor; discriminate.
    - eapply Hplain; [apply chars_emit_adjust|].
      apply adjust_text_plain; repeat constructor; discriminate. }
  destruct (_ =? _)%char.
  { change (chars (set_bfptr ?a _)) with (chars a).
    exists (list_ascii_of_string (tabs (Z.to_nat (indentlevel ts))) ++ lit putchar_text).
    exists (list_ascii_of_string (tabs (Z.to_nat (indentlevel ts))) ++ lit putchar_written).
    split.
    - rewrite chars_emit. unfold emit_indent. rewrite chars_emit, <- !app_assoc. reflexivity.
    - apply fprintf_plain_app; [apply fprintf_plain_plain, Htabs|].
      apply fprintf_plain_putchar. }
  destruct (_ =? _)%char.
  { change (chars (set_bfptr ?a _)) with (chars a).
    eapply Hplain.
    - rewrite chars_emit. unfold emit_indent. rewrite chars_emit, <- !app_assoc. reflexivity.
    - apply Forall_app; split; [apply Htabs | repeat constructor; discriminate]. }
  destruct (_ =? _)%char.
  { change (chars (set_bfptr ?a _)) with (chars a).
    change (chars (set_indentlevel ?a _)) with (chars a).
    eapply Hplain.
    - rewrite chars_emit. unfold emit_indent. rewrite chars_emit, <- !app_assoc. reflexivity.
    - apply Forall_app; split; [apply Htabs | repeat constructor; discriminate]. }
  destruct (_ =? _)%char.
  { change (chars (set_bfptr ?a _)) with (chars a).
    eapply Hplain.
    - rewrite chars_emit. unfold emit_indent. rewrite chars_emit, <- !app_assoc.
      change (chars (set_indentlevel ?a _)) with (chars a). reflexivity.
    - apply Forall_app; split; [apply Htabs | repeat constructor; discriminate]. }
  change (chars (set_bfptr ?a _)) with (chars a).
  exists [], []. split; [now rewrite app_nil_r | reflexivity].
Qed.

Lemma translate_loop_writes t code fuel : forall ts ts',
  translate_loop t code fuel ts = Some ts' ->
  exists chunk chunk',
    chars ts' = chars ts ++ chunk /\ fprintf_plain chunk = Some chunk'.
Proof.
  assert (Hnil : forall ts, exists chunk chunk',
            chars ts = chars ts ++ chunk /\ fprintf_plain chunk = Some chunk').
  { intros ts. exists [], []. split; [now rewrite app_nil_r | reflexivity]. }
  induction fuel as [|fuel IH]; intros ts ts'; simpl;
    destruct (_ =? _)%char; try discriminate;
    try (intros [= <-]; apply Hnil).
  intros H. destruct (IH _ _ H) as (c2 & c2' & H2 & Hw2).
  destruct (translate_step_writes t code ts) as (c1 & c1' & H1 & Hw1).
  exists (c1 ++ c2), (c1' ++ c2'). split.
  - rewrite H2, H1, app_assoc. reflexivity.
  - now apply fprintf_plain_app.
Qed.

(** ** The whole text *)

Lemma prologue_plain t e : Forall (fun c => c <> "%"%char) (chars (prologue t e)).
Proof.
  rewrite prologue_chars. unfold declaration.
  repeat (apply Forall_app; split);
    try (apply format_d_chars; discriminate);
    try (destruct t; repeat constructor; discriminate);
    repeat constructor; discriminate.
Qed.

Lemma prologue_length e : (156 <= length (chars (prologue t_int e)))%nat.
Proof.
  rewrite prologue_chars. unfold declaration. rewrite !length_app.
  change (length (chars headers)) with 94%nat. simpl. lia.
Qed.

Lemma epilogue_length ts : (length (chars ts) + 37 <= length (chars (epilogue ts)))%nat.
Proof.
  unfold epilogue, emit_indent.
  repeat first [ rewrite chars_emit
               | progress change (chars (set_indentlevel ?a ?b)) with (chars a) ].
  rewrite !length_app. simpl. lia.
Qed.

Lemma c_str_string bytes : c_string (c_str bytes).
Proof.
  induction bytes as [|c bytes IH]; simpl; [constructor|].
  destruct (Ascii.eqb_spec c NUL); constructor; assumption.
Qed.

Lemma c_str_length bytes : (length (c_str bytes) <= length bytes)%nat.
Proof.
  induction bytes as [|c bytes IH]; simpl; [lia|].
  destruct (c =? NUL)%char; simpl; lia.
Qed.

Lemma c_str_of_string bytes : c_string bytes -> c_str bytes = bytes.
Proof.
  induction 1 as [|c bytes Hc _ IH]; simpl; [reflexivity|].
  destruct (Ascii.eqb_spec c NUL); [contradiction | now rewrite IH].
Qed.

(** [translate] comes to its end on every C string, and [fprintf] takes its
    text without a fault: the only percent signs in it are the pairs of the
    statements for ['.']. *)
Lemma translate_text_writes t e code :
  exists ts written,
    translate_body t e code = Some ts /\
    translate t e code =
      Some {| text := ccode (epilogue ts);
              result := if indentlevel (epilogue ts) =? 0 then 0 else 1;
              this_after := e |} /\
    fprintf_plain (chars (epilogue ts)) = Some written /\
    (length (chars (prologue t e)) + 37 <= length (chars (epilogue ts)))%nat.
Proof.
  destruct (translate_loop_total t code (length code) (prologue t e))
    as (ts & Hloop & _); [simpl; lia | simpl; lia |].
  destruct (translate_loop_writes _ _ _ _ _ Hloop) as (chunk & chunk' & Hchars & Hw).
  destruct (epilogue_chars ts) as (b1 & b2 & b3 & b4 & Hb1 & Hb2 & Hb3 & Hb4 & Hep).
  exists ts. eexists. split; [exact Hloop|]. split; [|split].
  - unfold translate, translate_body. now rewrite Hloop.
  - rewrite Hep, Hchars.
    apply fprintf_plain_app;
      [apply fprintf_plain_app; [apply fprintf_plain_plain, prologue_plain | exact Hw]|].
    apply fprintf_plain_plain.
    repeat (apply Forall_app; split); try (now apply blank_plain);
      repeat constructor; discriminate.
  - pose proof (epilogue_length ts) as H. rewrite Hchars, length_app in H.
    lia.
Qed.

(** ** [main] of the translator *)

Lemma outputs_percent_c_arg vs : outputs (c_printf (lit "%c")) vs = outputs format_c vs.
Proof.
  induction vs as [|v vs IH]; [reflexivity|].
  cbn [outputs]. rewrite IH. reflexivity.
Qed.

(** Past the checks of its arguments, with a source file that opens, [main]
    is at the call of [translate]. *)
Lemma xlbftranslator_main_translates memsize content cdest :
  0 < memsize ->
  exists err,
    xlbftranslator_main 4 memsize (Some content) cdest =
      match translate t_int (xl_brainfuck_env_ctor (Z.to_N memsize)) (c_str content) with
      | None => Faulted Unfinished err
      | Some tr =>
          if Z.of_nat (String.length (text tr))
               >? wrap_unsigned 64 (Z.of_nat (length content) * 32)
          then Faulted Overflow err
          else
            let err :=
              String.append
                (String.append err
                   (String.append (line "Translated C code:") (line (text tr))))
                (line "Writing into C destination file ...") in
            if cdest then
              match fprintf_plain (list_ascii_of_string (text tr)) with
              | Some written =>
                  Returned 0 (String.append err (line "Operation complete."))
                    (Some written)
              | None => Faulted BadFormat err
              end
            else Faulted NullDestination err
      end.
Proof.
  intros Hmem. unfold xlbftranslator_main.
  change (negb (4 =? 4)) with false. cbv iota.
  destruct (Z.leb_spec memsize 0); [lia|].
  eexists. reflexivity.
Qed.

(** Every source file of at most six bytes makes [translate] write past the
    end of [ccodebuffer]: [main] allocates [filesize * 32 + 1] bytes, and
    the text of an empty stream is already longer than 192 characters. *)
Theorem translator_overflows_on_short_sources
    (memsize : Z) (content : list ascii) (cdest : bool) :
  0 < memsize -> (length content <= 6)%nat ->
  exists err, xlbftranslator_main 4 memsize (Some content) cdest = Faulted Overflow err.
Proof.
  intros Hmem Hlen.
  destruct (xlbftranslator_main_translates memsize content cdest Hmem) as [err ->].
  destruct (translate_text_writes t_int (xl_brainfuck_env_ctor (Z.to_N memsize))
              (c_str content)) as (ts & written & _ & -> & _ & Hlong).
  cbn [text]. exists err.
  pose proof (prologue_length (xl_brainfuck_env_ctor (Z.to_N memsize))) as Hpro.
  rewrite string_length_chars. fold (chars (epilogue ts)).
  unfold wrap_unsigned. rewrite Z.mod_small by (change (2 ^ 64) with 18446744073709551616; lia).
  rewrite Z.gtb_ltb. destruct (Z.ltb_spec (Z.of_nat (length content) * 32)
                                 (Z.of_nat (length (chars (epilogue ts))))); [reflexivity | lia].
Qed.

Lemma translator_overflows_on_short_sources_witness :
  exists err,
    xlbftranslator_main 4 30000 (Some (list_ascii_of_string "+.")) true
      = Faulted Overflow err.
Proof.
  apply (translator_overflows_on_short_sources 30000 (list_ascii_of_string "+.") true).
  - lia.
  - simpl. lia.
Defined.

(** With its four arguments in order and both files open, [main] has two
    ends only, whatever the source file holds: the text does not fit in
    [ccodebuffer], or [main] writes the text, with each pair of percent
    signs made one, and returns 0.  The [int] that [translate] returns is
    not looked at: a source with unmatched brackets gives a file and the
    exit code 0 as well. *)
Theorem translator_exit_code_ignores_brackets (memsize : Z) (content : list ascii) :
  0 < memsize -> Z.of_nat (length content) < 2 ^ 59 ->
  exists tr written,
    translate t_int (xl_brainfuck_env_ctor (Z.to_N memsize)) (c_str content) = Some tr /\
    fprintf_plain (list_ascii_of_string (text tr)) = Some written /\
    ((Z.of_nat (String.length (text tr)) <= 32 * Z.of_nat (length content) /\
      exists err,
        xlbftranslator_main 4 memsize (Some content) true = Returned 0 err (Some written))
     \/
     (32 * Z.of_nat (length content) < Z.of_nat (String.length (text tr)) /\
      exists err,
        xlbftranslator_main 4 memsize (Some content) true = Faulted Overflow err)).
Proof.
  intros Hmem Hlen.
  destruct (xlbftranslator_main_translates memsize content true Hmem) as [err ->].
  destruct (translate_text_writes t_int (xl_brainfuck_env_ctor (Z.to_N memsize))
              (c_str content)) as (ts & written & _ & -> & Hw & _).
  eexists. exists written. split; [reflexivity|].
  cbn [text]. fold (chars (epilogue ts)). split; [exact Hw|].
  rewrite Hw.
  unfold wrap_unsigned.
  rewrite Z.mod_small
    by (change (2 ^ 64) with (32 * 2 ^ 59); change (2 ^ 59) with 576460752303423488 in *; lia).
  rewrite Z.gtb_ltb.
  destruct (Z.ltb_spec (Z.of_nat (length content) * 32)
              (Z.of_nat (String.length (ccode (epilogue ts))))).
  - right. split; [lia | eexists; reflexivity].
  - left. split; [lia | eexists; reflexivity].
Qed.

Lemma translator_exit_code_ignores_brackets_witness :
  exists tr written,
    translate t_int (xl_brainfuck_env_ctor (Z.to_N 16))
      (c_str (list_ascii_of_string "[+++++++++")) = Some tr /\
    fprintf_plain (list_ascii_of_string (text tr)) = Some written /\
    ((Z.of_nat (String.length (text tr))
        <= 32 * Z.of_nat (length (list_ascii_of_string "[+++++++++")) /\
      exists err,
        xlbftranslator_main 4 16 (Some (list_ascii_of_string "[+++++++++")) true
          = Returned 0 err (Some written))
     \/
     (32 * Z.of_nat (length (list_ascii_of_string "[+++++++++"))
        < Z.of_nat (String.length (text tr)) /\
      exists err,
        xlbftranslator_main 4 16 (Some (list_ascii_of_string "[+++++++++")) true
          = Faulted Overflow err)).
Proof.
  apply (translator_exit_code_ignores_brackets 16 (list_ascii_of_string "[+++++++++")).
  - lia.
  - simpl. lia.
Defined.

(** For a balanced stream the destination file reads as the program whose
    statements are those of the stream, with the format ["%c"], followed
    by those of the epilogue. *)
Lemma written_file_reads t e code :
  c_string code -> balanced code = true ->
  exists ts file stmts,
    translate_body t e code = Some ts /\
    fprintf_plain (chars (epilogue ts)) = Some file /\
    compile_block (lit "%c") t code (S (length code)) 0
      = Some (stmts, Z.of_nat (length code)) /\
    read_program (string_of_list_ascii file) =
      Some {| cell_type := t; cells := wrap_signed 32 (maxaddr e - minaddr e + 1);
              body := stmts ++ [CFree; CWait; CReturn] |}.
Proof.
  intros Hstr Hbal.
  destruct (compile_block_total (lit "%c") t code (S (length code)) 0 0%nat Hstr)
    as (stmts & q & Hc & _ & Hq); [lia | exact Hbal | lia |].
  subst q.
  destruct (translate_writes t code _ _ _ _ Hc (prologue t e) eq_refl)
    as (ts & chunk & Hreach & Hts & Hchars & chunk' & Hview & Hreads).
  destruct (epilogue_chars ts) as (b1 & b2 & b3 & b4 & Hb1 & Hb2 & Hb3 & Hb4 & Hep).
  set (ending := b1 ++ lit "free(tape);" ++ b2 ++ lit "_getch();" ++ b3
                   ++ lit "return 0;" ++ b4) in *.
  assert (Hending : Forall (fun c => c <> "%"%char) ending).
  { unfold ending. repeat (apply Forall_app; split); try (now apply blank_plain);
      repeat constructor; discriminate. }
  exists ts, ((chars (prologue t e) ++ chunk') ++ ending ++ lit "}" ++ lit LF), stmts.
  split; [now apply translate_body_reached|]. split; [|split; [exact Hc|]].
  - rewrite Hep, Hchars.
    apply fprintf_plain_app;
      [apply fprintf_plain_app; [apply fprintf_plain_plain, prologue_plain | exact Hview]|].
    apply fprintf_plain_plain.
    apply Forall_app; split; [exact Hending | repeat constructor; discriminate].
  - apply (read_program_shape _ _ _ (lit LF ++ lit LF ++ chunk' ++ ending)).
    + rewrite list_ascii_of_string_of_list_ascii, prologue_chars.
      rewrite <- !app_assoc. reflexivity.
    + apply Reads_pre; [apply LF_blank|]. apply Reads_pre; [apply LF_blank|].
      apply Reads_app; [exact Hreads|]. now apply Reads_epilogue.
Qed.

(** The program in the file the translator writes does what [interpret]
    does.  For a tape of fewer than 2^31 cells and a source file that holds
    a balanced stream without [':']: when [main] returns and [interpret]
    returns success on the same stream in a fresh environment, [main] has
    returned 0 and the file, read back and run on the same console, returns
    with the same cells, its index on the cursor, and exactly the output of
    [interpret], after reading one more key (the final [_getch();]). *)
Theorem translated_file_runs_as_interpret
    (memsize : Z) (content : list ascii) (c : console) (fuel : nat) (s' : istate)
    (exit_code : Z) (err : string) (written : option (list ascii)) :
  0 < memsize < 2 ^ 31 ->
  Z.of_nat (length content) < 2 ^ 31 ->
  balanced (c_str content) = true -> ~ In ":"%char (c_str content) ->
  xlbftranslator_main 4 memsize (Some content) true = Returned exit_code err written ->
  interpret t_int (c_str content) fuel (xl_brainfuck_env_ctor (Z.to_N memsize)) c
    = Halted Success s' ->
  exit_code = 0 /\
  exists file fuel' cs,
    written = Some file /\
    run_emitted fuel' (string_of_list_ascii file) c = Some (CReturned cs) /\
    c_tape cs = tape (env s') /\ c_i cs = ptr (env s') /\
    stdout (c_con cs) = stdout (con s') /\
    consumed (c_con cs) = S (consumed (con s')).
Proof.
  intros Hmem Hlen Hbal Hcolon Hmain Hrun.
  set (code := c_str content) in *.
  set (this := xl_brainfuck_env_ctor (Z.to_N memsize)) in *.
  pose proof (c_str_string content) as Hstr. fold code in Hstr.
  pose proof (c_str_length content) as Hshort. fold code in Hshort.
  destruct (written_file_reads t_int this code Hstr Hbal)
    as (ts & file & stmts & Hbody & Hfile & Hc & Hread).
  destruct (xlbftranslator_main_translates memsize content true (proj1 Hmem)) as [err0 Hm].
  rewrite Hm in Hmain. fold this code in Hmain.
  unfold translate in Hmain. rewrite Hbody in Hmain. cbn [text] in Hmain.
  fold (chars (epilogue ts)) in Hmain. rewrite Hfile in Hmain.
  destruct (_ >? _); [discriminate|].
  injection Hmain as <- _ <-. split; [reflexivity|].
  destruct (emitted_statements_run (lit "%c") t_int (Z.to_N memsize) code c fuel s' stmts)
    as (fuel' & cs & vs & Hex & Htape & Hptr & Hw1 & Hw2 & Hcons);
    try assumption; [simpl; lia | lia |].
  exists file, fuel', cs. split; [reflexivity|].
  split; [|repeat split; try assumption;
           rewrite Hw2, outputs_percent_c_arg; now symmetry].
  unfold run_emitted. rewrite Hread. f_equal.
  unfold c_run. cbn [cell_type cells body].
  unfold this. rewrite capacity_printed by (rewrite Z2N.id; lia). exact Hex.
Qed.

Lemma translated_file_runs_as_interpret_witness :
  let content := list_ascii_of_string "++++++++[>++++++++<-]>+." in
  let s' := {| codeptr := 24; env := mk_env [0; 65; 0; 0; 0; 0; 0; 0] 1 0 7;
               con := printf (format_c 65) no_keys |} in
  let written := match xlbftranslator_main 4 8 (Some content) true with
                 | Returned _ _ written => written
                 | Faulted _ _ => None
                 end in
  0 = 0 /\
  exists file fuel' cs,
    written = Some file /\
    run_emitted fuel' (string_of_list_ascii file) no_keys = Some (CReturned cs) /\
    c_tape cs = tape (env s') /\ c_i cs = ptr (env s') /\
    stdout (c_con cs) = stdout (con s') /\
    consumed (c_con cs) = S (consumed (con s')).
Proof.
  intros content s' written.
  apply (translated_file_runs_as_interpret 8 content no_keys 200 s' 0
           match xlbftranslator_main 4 8 (Some content) true with
           | Returned _ err _ => err
           | Faulted _ err => err
           end
           written).
  - split; [lia | reflexivity].
  - reflexivity.
  - reflexivity.
  - simpl. intros H. repeat (destruct H as [H|H]; [discriminate|]). exact H.
  - vm_compute. reflexivity.
  - vm_compute. reflexivity.
Defined.

(** * Writing into a buffer *)

Lemma gotoend_loop_spec rest : forall ptr,
  match gotoend_loop rest ptr with
  | Some q =>
      (ptr <= q)%nat /\ rest !! (q - ptr)%nat = Some NUL /\
      forall i, (i < q - ptr)%nat -> exists c, rest !! i = Some c /\ c <> NUL
  | None => Forall (fun c => c <> NUL) rest
  end.
Proof.
  induction rest as [|c rest IH]; intros ptr; simpl; [constructor|].
  destruct (Ascii.eqb_spec c NUL) as [->|Hc].
  - split; [lia|]. rewrite Nat.sub_diag. split; [reflexivity|]. intros i Hi. lia.
  - specialize (IH (S ptr)). destruct (gotoend_loop rest (S ptr)) as [q|].
    + destruct IH as (Hle & Hq & Hbefore). split; [lia|].
      replace (q - ptr)%nat with (S (q - S ptr)) by lia. split; [exact Hq|].
      intros [|i] Hi; [exists c; auto|]. apply Hbefore. lia.
    + constructor; assumption.
Qed.

(** [gotoend] stops on the first zero byte at or after the pointer, and
    leaves the buffer when there is none. *)
Theorem gotoend_finds_first_terminator (buf : list ascii) (ptr : nat) :
  match gotoend buf ptr with
  | Some q =>
      (ptr <= q)%nat /\ buf !! q = Some NUL /\
      forall i, (ptr <= i < q)%nat -> exists c, buf !! i = Some c /\ c <> NUL
  | None =>
      forall i c, (ptr <= i)%nat -> buf !! i = Some c -> c <> NUL
  end.
Proof.
  unfold gotoend. pose proof (gotoend_loop_spec (drop ptr buf) ptr) as H.
  destruct (gotoend_loop (drop ptr buf) ptr) as [q|].
  - destruct H as (Hle & Hq & Hbefore). split; [exact Hle|].
    rewrite lookup_drop in Hq. replace (ptr + (q - ptr))%nat with q in Hq by lia.
    split; [exact Hq|]. intros i Hi.
    destruct (Hbefore (i - ptr)%nat) as (c & Hc & Hne); [lia|].
    rewrite lookup_drop in Hc. replace (ptr + (i - ptr))%nat with i in Hc by lia.
    now exists c.
  - intros i c Hi Hc. rewrite Forall_lookup in H.
    apply (H (i - ptr)%nat). rewrite lookup_drop.
    now replace (ptr + (i - ptr))%nat with i by lia.
Qed.

Lemma strcpy_holds buf cptr ts (s : string) :
  take cptr buf = chars ts ->
  c_string (list_ascii_of_string s) ->
  (cptr + String.length s < length buf)%nat ->
  exists buf',
    strcpy buf cptr (list_ascii_of_string s) = Some buf' /\
    length buf' = length buf /\
    gotoend buf' cptr = Some (cptr + String.length s)%nat /\
    holds buf' (cptr + String.length s) (emit s ts).
Proof.
  intros Htext Hs Hroom. rewrite string_length_chars in *.
  set (l := list_ascii_of_string s) in *.
  assert (Hcptr : length (take cptr buf) = cptr) by (rewrite length_take; lia).
  unfold strcpy.
  destruct (Nat.leb_spec (cptr + length l + 1) (length buf)); [|lia].
  eexists. split; [reflexivity|]. split; [|split].
  - rewrite !length_app. simpl. rewrite length_drop, Hcptr. lia.
  - unfold gotoend. rewrite drop_app_length' by (symmetry; exact Hcptr).
    generalize (drop (cptr + length l + 1) buf). intros rest.
    clear -Hs. revert cptr. induction Hs as [|c l Hc _ IH]; intros cptr; simpl.
    + f_equal. lia.
    + destruct (Ascii.eqb_spec c NUL); [contradiction|].
      rewrite IH. f_equal. lia.
  - split.
    + rewrite app_assoc, take_app_length'
        by (rewrite length_app, Hcptr; reflexivity).
      rewrite chars_emit, Htext. reflexivity.
    + rewrite app_assoc, lookup_app_r by (rewrite length_app, Hcptr; lia).
      rewrite length_app, Hcptr, Nat.sub_diag. reflexivity.
Qed.

(** Each [sprintf(cptr, text); gotoend(&cptr);] of [translate] is an
    [emit]: when the buffer holds the text written so far, with [cptr] at
    its end, and has room for [text] and a terminator, the pair leaves a
    buffer that holds the text with [text] appended, with [cptr] at the new
    end.  [text] is a literal without a percent sign, or the formatted
    output of the call. *)
Theorem sprintf_gotoend_is_emit
    (buf : list ascii) (cptr : nat) (ts : tstate) (text : string) :
  take cptr buf = chars ts ->
  c_string (list_ascii_of_string text) ->
  Forall (fun c => c <> "%"%char) (list_ascii_of_string text) ->
  (cptr + String.length text < length buf)%nat ->
  exists buf' cptr',
    sprintf buf cptr (list_ascii_of_string text) = Some buf' /\
    gotoend buf' cptr = Some cptr' /\
    length buf' = length buf /\
    holds buf' cptr' (emit text ts).
Proof.
  intros Htext Hs Hplain Hroom.
  destruct (strcpy_holds buf cptr ts text Htext Hs Hroom) as (buf' & Hcpy & Hlen & Hgo & Hholds).
  exists buf', (cptr + String.length text)%nat.
  unfold sprintf. rewrite fprintf_plain_plain by exact Hplain. auto.
Qed.

Lemma sprintf_gotoend_is_emit_witness :
  exists buf' cptr',
    sprintf (lit "i++;" ++ replicate 12 NUL) 4 (list_ascii_of_string "tape[i]--;")
      = Some buf' /\
    gotoend buf' 4 = Some cptr' /\
    length buf' = length (lit "i++;" ++ replicate 12 NUL) /\
    holds buf' cptr'
      (emit "tape[i]--;" {| bfptr := 4; ccode := "i++;"; indentlevel := 1 |}).
Proof.
  apply (sprintf_gotoend_is_emit (lit "i++;" ++ replicate 12 NUL) 4
           {| bfptr := 4; ccode := "i++;"; indentlevel := 1 |} "tape[i]--;").
  - reflexivity.
  - repeat constructor; discriminate.
  - repeat constructor; discriminate.
  - simpl. lia.
Defined.

(** * Collation of cell changes *)

(** Whatever the cell type, the amount read back from the statement
    emitted for a total is the net effect of a run shorter than 2^31,
    modulo the width of the cell. *)
Lemma adjust_amount_congruent t total net v :
  - 2 ^ 31 < net < 2 ^ 31 ->
  wrap t total = wrap t net -> wrap t total = total ->
  wrap t (v + match adjust_amount total with Some d => d | None => 0 end)
    = wrap t (v + net).
Proof.
  intros Hnet Hsum Hin.
  unfold adjust_amount, wrap, wrap_signed, wrap_unsigned in *.
  change (2 ^ 31) with 2147483648 in Hnet.
  destruct t; simpl in *;
    repeat match goal with
    | |- context [?a >? ?b] => rewrite (Z.gtb_ltb a b)
    end;
    repeat match goal with
    | |- context [if ?a <? ?b then _ else _] => destruct (Z.ltb_spec a b)
    | |- context [if ?a =? ?b then _ else _] => destruct (Z.eqb_spec a b)
    end;
    try (f_equal; Z.div_mod_to_equations; lia);
    try (Z.div_mod_to_equations; lia).
Qed.

(** For every cell type, signed or unsigned, of 8 to 64 bits, the one
    statement [translate] emits for a run of ['+'] and ['-'] shorter than
    2^31 leaves the tape that the passes of [interpret] over the run leave:
    collation of cell changes is transparent, wrap-around included. *)
Theorem cell_run_collation_is_transparent
    (t : storage_t) (code : list ascii) (s : istate) (cs : cstate) :
  Z.of_nat (length code) < 2 ^ 31 ->
  0 <= codeptr s ->
  deref code (codeptr s) = "+"%char \/ deref code (codeptr s) = "-"%char ->
  env_ok (env s) -> ptroutofrange (env s) = false ->
  Forall (fun v => wrap t v = v) (tape (env s)) ->
  c_tape cs = tape (env s) -> c_i cs = ptr (env s) ->
  exists n s' cs',
    passes t code n s = Some s' /\
    codeptr s' =
      fst (collate t "+" "-" (drop (Z.to_nat (codeptr s)) code) (codeptr s) 0) /\
    c_exec t 2
      (adjust_stmt CCell
         (snd (collate t "+" "-" (drop (Z.to_nat (codeptr s)) code) (codeptr s) 0)))
      cs = CNormal cs' /\
    c_tape cs' = tape (env s') /\ c_i cs' = ptr (env s') /\
    ptr (env s') = ptr (env s).
Proof.
  intros Hlen Hp Hc Hok Hrange Hwrapped Htape Hptr.
  assert (E0 : deref code (codeptr s) <> NUL) by (destruct Hc as [-> | ->]; discriminate).
  destruct (drop_deref code (codeptr s) Hp E0) as [rest0 Hdrop0].
  destruct (collate t "+" "-" _ _ _) as [p' total] eqn:Hcol. cbn [fst snd].
  apply collate_run in Hcol as (seg & rest' & Hdrop & Hall & -> & Hsum & _ & Hin & Hstop);
    [|discriminate].
  assert (Hseg : seg <> []).
  { eapply (run_nonempty "+"%char "-"%char); [rewrite <- Hdrop0; exact Hdrop | | exact Hstop].
    destruct Hc; auto. }
  pose proof (run_length_bound _ _ _ _ "+"%char "-"%char Hdrop Hlen) as Hnet.
  pose proof (ptr_in_block _ Hok Hrange) as Hblock.
  destruct (load_in_block (tape (env s)) (ptr (env s)) Hblock) as [v Hv].
  assert (Hvw : wrap t v = v).
  { unfold load in Hv. destruct (ptr (env s) <? 0); [discriminate|].
    rewrite Forall_lookup in Hwrapped. exact (Hwrapped _ _ Hv). }
  destruct (interpret_cell_run t code seg s rest' v) as
    (s1 & Hrun & Hpc1 & Htape1 & Hptr1 & _ & _ & _);
    [lia | exact Hdrop | exact Hall | exact Hok | exact Hrange | exact Hv |].
  destruct (decide (seg = [])) as [|_]; [contradiction|].
  pose proof (adjust_amount_congruent t total
                (occurrences "+" seg - occurrences "-" seg) v Hnet) as Hamount.
  rewrite Hsum in Hamount. specialize (Hamount ltac:(f_equal; lia)).
  rewrite <- Hsum in Hamount. specialize (Hamount (Hin Hseg)).
  exists (length seg), s1. unfold adjust_stmt.
  destruct (adjust_amount total) as [d|]; cbn [c_exec].
  - rewrite Htape, Hptr, Hv, store_in_block by exact Hblock.
    eexists. split; [exact Hrun|]. split; [exact Hpc1|]. split; [reflexivity|].
    cbn [c_tape c_i]. split; [|split; congruence].
    rewrite Htape1, Hamount. f_equal. f_equal. lia.
  - exists cs. split; [exact Hrun|]. split; [exact Hpc1|]. split; [reflexivity|].
    split; [|split; congruence].
    rewrite Htape, Htape1. symmetry.
    replace (v + occurrences "+" seg - occurrences "-" seg)
      with (v + (occurrences "+" seg - occurrences "-" seg)) by lia.
    rewrite <- Hamount, Z.add_0_r, Hvw. apply list_insert_id.
    unfold load in Hv. destruct (ptr (env s) <? 0); [discriminate | exact Hv].
Qed.

Lemma cell_run_collation_is_transparent_witness :
  let code := list_ascii_of_string "--->" in
  let s := {| codeptr := 0; env := mk_env [1; 0] 0 0 1; con := no_keys |} in
  let cs := {| c_tape := [1; 0]; c_i := 0; c_con := no_keys |} in
  exists n s' cs',
    passes t_uchar code n s = Some s' /\
    codeptr s' =
      fst (collate t_uchar "+" "-" (drop (Z.to_nat (codeptr s)) code) (codeptr s) 0) /\
    c_exec t_uchar 2
      (adjust_stmt CCell
         (snd (collate t_uchar "+" "-" (drop (Z.to_nat (codeptr s)) code) (codeptr s) 0)))
      cs = CNormal cs' /\
    c_tape cs' = tape (env s') /\ c_i cs' = ptr (env s') /\
    ptr (env s') = ptr (env s).
Proof.
  intros code s cs.
  apply (cell_run_collation_is_transparent t_uchar code s cs).
  - reflexivity.
  - simpl. lia.
  - right. reflexivity.
  - split; reflexivity.
  - reflexivity.
  - repeat constructor.
  - reflexivity.
  - reflexivity.
Defined.

(** * Streams without a closing bracket *)

Lemma search_forward_no_close rest : forall p count,
  ~ In "]"%char rest -> search_forward rest p count = None.
Proof.
  induction rest as [|c rest IH]; intros p count Hno; [reflexivity|].
  simpl. destruct (c =? NUL)%char; [reflexivity|].
  assert (Hrest : ~ In "]"%char rest) by (intros H; apply Hno; now right).
  destruct (c =? "[")%char; [now apply IH|].
  destruct (Ascii.eqb_spec c "]") as [->|]; [|now apply IH].
  exfalso. apply Hno. now left.
Qed.

Lemma In_drop {A} (x : A) n (l : list A) : In x (drop n l) -> In x l.
Proof.
  intros H. apply list_elem_of_In. apply list_elem_of_In in H.
  rewrite <- (take_drop n l). apply elem_of_app. now right.
Qed.

(** Without a [']'] in the stream a pass moves [codeptr] to the next
    character or returns, and a syntax error is a missing [']']. *)
Lemma step_no_close t code s :
  ~ In "]"%char code -> 0 <= codeptr s -> env_ok (env s) ->
  deref code (codeptr s) <> NUL ->
  match step t code s with
  | Next s1 => codeptr s1 = codeptr s + 1 /\ env_ok (env s1)
  | Stop Success _ => False
  | Stop (Failure (AccessViolation _)) _ => True
  | Stop (Failure (SyntaxError b)) _ => b = "]"%char /\ In "["%char code
  | Stop Undefined _ => False
  end.
Proof.
  intros Hno Hp Hok Hc.
  destruct (deref_in_string code (codeptr s) _ eq_refl Hc) as [_ Hget].
  assert (Hin : In (deref code (codeptr s)) code).
  { apply list_elem_of_In, list_elem_of_lookup. eauto. }
  assert (Hsearch : forall q count,
            search_forward (drop (Z.to_nat (codeptr s + 1)) code) q count = None).
  { intros q count. apply search_forward_no_close.
    intros H. apply Hno. eapply In_drop. exact H. }
  destruct (step t code s) as [s1 | o s1] eqn:Hstep.
  - split; [|eapply step_next_ok; eassumption].
    revert Hstep. unfold step, write_cell_and_advance, _getch, raise.
    rewrite Hsearch.
    repeat match goal with
    | |- context [if ?b then _ else _] => destruct b eqn:?
    | |- context [match ?x with Some _ => _ | None => _ end] => destruct x eqn:?
    end; intros H; inversion H; subst; simpl; try reflexivity.
    exfalso. apply Hno.
    match goal with E : (_ =? "]")%char = true |- _ => apply Ascii.eqb_eq in E; congruence end.
  - destruct o as [|[i|b]|].
    + exact (step_stop_not_success _ _ _ _ Hstep).
    + exact I.
    + revert Hstep. unfold step, write_cell_and_advance, _getch, raise.
      rewrite Hsearch.
      repeat match goal with
      | |- context [if ?b then _ else _] => destruct b eqn:?
      | |- context [match ?x with Some _ => _ | None => _ end] => destruct x eqn:?
      end; intros H; inversion H; subst.
      * split; [reflexivity|].
        match goal with E : (_ =? "[")%char = true |- _ => apply Ascii.eqb_eq in E; congruence end.
      * exfalso. apply Hno.
        match goal with E : (_ =? "]")%char = true |- _ => apply Ascii.eqb_eq in E; congruence end.
    + exact (step_never_undefined _ _ _ _ Hok Hstep).
Qed.

Lemma interpret_loop_no_close t code fuel : forall s,
  ~ In "]"%char code -> env_ok (env s) -> 0 <= codeptr s ->
  Z.of_nat (length code) - codeptr s <= Z.of_nat fuel ->
  exists o s',
    interpret_loop t code fuel s = Halted o s' /\
    match o with
    | Success | Failure (AccessViolation _) => True
    | Failure (SyntaxError b) => b = "]"%char /\ In "["%char code
    | Undefined => False
    end.
Proof.
  induction fuel as [|fuel IH]; intros s Hno Hok Hp Hfuel; simpl.
  - destruct (Ascii.eqb_spec (deref code (codeptr s)) NUL) as [E|E].
    + exists Success, s. auto.
    + destruct (deref_in_string code (codeptr s) _ eq_refl E). lia.
  - destruct (Ascii.eqb_spec (deref code (codeptr s)) NUL) as [E|E].
    + exists Success, s. auto.
    + pose proof (step_no_close t code s Hno Hp Hok E) as Hstep.
      destruct (step t code s) as [s1 | o s1].
      * destruct Hstep as [Hpc Hok1]. apply IH; [assumption | assumption | lia | lia].
      * exists o, s1. split; [reflexivity|].
        destruct o as [|[i|b]|]; try contradiction; exact Hstep.
Qed.

(** A stream without [']'] cannot loop: [interpret] returns after at most
    one pass per character, with success, an access violation or, when the
    stream has a ['['], the syntax error for the missing [']']. *)
Theorem stream_without_close_bracket_halts
    (t : storage_t) (code : list ascii) (e : xl_brainfuck_env) (c : console) :
  ~ In "]"%char code -> env_ok e ->
  exists o s',
    interpret t code (length code) e c = Halted o s' /\
    match o with
    | Success | Failure (AccessViolation _) => True
    | Failure (SyntaxError b) => b = "]"%char /\ In "["%char code
    | Undefined => False
    end.
Proof.
  intros Hno Hok. unfold interpret.
  apply interpret_loop_no_close; [assumption | assumption | simpl; lia | simpl; lia].
Qed.

Lemma stream_without_close_bracket_halts_witness :
  exists o s',
    interpret t_int (list_ascii_of_string "+>+[+") 5 (xl_brainfuck_env_ctor 4) no_keys
      = Halted o s' /\
    match o with
    | Success | Failure (AccessViolation _) => True
    | Failure (SyntaxError b) =>
        b = "]"%char /\ In "["%char (list_ascii_of_string "+>+[+")
    | Undefined => False
    end.
Proof.
  apply (stream_without_close_bracket_halts t_int (list_ascii_of_string "+>+[+")
           (xl_brainfuck_env_ctor 4) no_keys).
  - simpl. intros H. repeat (destruct H as [H|H]; [discriminate|]). exact H.
  - apply ctor_ok.
Defined.

(** * One stream after another *)

(** ** The searches and the end of the stream *)

Lemma search_forward_range rest : forall q count m,
  search_forward rest q count = Some m -> q <= m < q + Z.of_nat (length rest).
Proof.
  induction rest as [|c rest IH]; intros q count m; [discriminate|].
  simpl search_forward. simpl length.
  destruct (c =? NUL)%char; [discriminate|].
  assert (Hrec : forall k, search_forward rest (q + 1) k = Some m ->
                           q <= m < q + Z.of_nat (S (length rest)))
    by (intros k H; apply IH in H; lia).
  destruct (c =? "[")%char; [apply Hrec|].
  destruct (c =? "]")%char; [|apply Hrec].
  destruct (_ =? 0); [|apply Hrec].
  intros [= <-]. lia.
Qed.

Lemma search_backward_range before : forall q count m,
  search_backward before q count = Some m -> q - Z.of_nat (length before) < m <= q.
Proof.
  induction before as [|c before IH]; intros q count m; [discriminate|].
  simpl search_backward. simpl length.
  assert (Hrec : forall k, search_backward before (q - 1) k = Some m ->
                           q - Z.of_nat (S (length before)) < m <= q)
    by (intros k H; apply IH in H; lia).
  destruct (c =? "]")%char; [apply Hrec|].
  destruct (c =? "[")%char; [|apply Hrec].
  destruct (_ =? 0); [|apply Hrec].
  intros [= <-]. lia.
Qed.

Lemma search_forward_app_found rest more : forall q count m,
  search_forward rest q count = Some m ->
  search_forward (rest ++ more) q count = Some m.
Proof.
  induction rest as [|c rest IH]; intros q count m; [discriminate|].
  simpl. destruct (c =? NUL)%char; [discriminate|].
  destruct (c =? "[")%char; [apply IH|].
  destruct (c =? "]")%char; [|apply IH].
  destruct (_ =? 0); [auto | apply IH].
Qed.

Lemma search_backward_app_found before more : forall q count m,
  search_backward before q count = Some m ->
  search_backward (before ++ more) q count = Some m.
Proof.
  induction before as [|c before IH]; intros q count m; [discriminate|].
  simpl. destruct (c =? "]")%char; [apply IH|].
  destruct (c =? "[")%char; [|apply IH].
  destruct (_ =? 0); [auto | apply IH].
Qed.

Lemma search_forward_shift rest k : forall q count,
  search_forward rest (q + k) count = (fun m => m + k) <$> search_forward rest q count.
Proof.
  induction rest as [|c rest IH]; intros q count; [reflexivity|].
  simpl. destruct (c =? NUL)%char; [reflexivity|].
  replace (q + k + 1) with (q + 1 + k) by lia.
  destruct (c =? "[")%char; [apply IH|].
  destruct (c =? "]")%char; [|apply IH].
  destruct (_ =? 0); [reflexivity | apply IH].
Qed.

Lemma search_backward_shift before k : forall q count,
  search_backward before (q + k) count = (fun m => m + k) <$> search_backward before q count.
Proof.
  induction before as [|c before IH]; intros q count; [reflexivity|].
  simpl. replace (q + k - 1) with (q - 1 + k) by lia.
  destruct (c =? "]")%char; [apply IH|].
  destruct (c =? "[")%char; [|apply IH].
  destruct (_ =? 0); [reflexivity | apply IH].
Qed.

(** ** Balanced streams *)

(** In a balanced stream no prefix closes more loops than it opens, and the
    whole stream closes as many as it opens. *)
Lemma balanced_counts s : forall depth,
  balanced_from depth s = true ->
  (forall n, 0 <= Z.of_nat depth + occurrences "[" (take n s) - occurrences "]" (take n s)) /\
  Z.of_nat depth + occurrences "[" s - occurrences "]" s = 0.
Proof.
  induction s as [|c s IH]; intros depth; simpl.
  - intros H%Nat.eqb_eq. split; [intros n; rewrite take_nil; simpl|]; lia.
  - destruct (Ascii.eqb_spec c "[") as [->|H1].
    + intros H. destruct (IH _ H) as [Hpre Hall].
      split; [|simpl; lia]. intros [|n]; simpl; [lia|]. specialize (Hpre n). lia.
    + destruct (Ascii.eqb_spec c "]") as [->|H2].
      * destruct depth as [|depth]; [discriminate|].
        intros H. destruct (IH _ H) as [Hpre Hall].
        split; [|simpl; lia]. intros [|n]; simpl; [lia|]. specialize (Hpre n). lia.
      * intros H. destruct (IH _ H) as [Hpre Hall].
        split; [|lia]. intros [|n]; simpl; [lia|].
        destruct (Ascii.eqb_spec c "["); [contradiction|].
        destruct (Ascii.eqb_spec c "]"); [contradiction|].
        specialize (Hpre n). lia.
Qed.

(** What is left of a balanced stream is balanced at the depth reached. *)
Lemma balanced_from_drop s : forall depth n,
  balanced_from depth s = true ->
  exists depth', balanced_from depth' (drop n s) = true.
Proof.
  induction s as [|c s IH]; intros depth n H.
  - exists depth. now rewrite drop_nil.
  - destruct n as [|n]; [exists depth; exact H|].
    simpl in *. destruct (c =? "[")%char; [eapply IH; exact H|].
    destruct (c =? "]")%char; [|eapply IH; exact H].
    destruct depth; [discriminate | eapply IH; exact H].
Qed.

(** In a balanced stream every ['['] has its [']']. *)
Lemma search_forward_balanced rest : forall q count depth,
  c_string rest -> 1 <= count <= Z.of_nat depth ->
  count + Z.of_nat (length rest) < 2 ^ 32 ->
  balanced_from depth rest = true ->
  exists m, search_forward rest q count = Some m.
Proof.
  induction rest as [|c rest IH]; intros q count depth Hstr Hcount Hbound Hbal.
  - simpl in Hbal. apply Nat.eqb_eq in Hbal. lia.
  - apply Forall_cons in Hstr as [Hc Hstr]. simpl length in Hbound.
    simpl in *. destruct (Ascii.eqb_spec c NUL); [contradiction|].
    destruct (c =? "[")%char.
    + apply (IH _ _ (S depth)); try assumption;
        rewrite wrap_unsigned_small by lia; lia.
    + destruct (c =? "]")%char.
      * destruct depth as [|depth]; [discriminate|].
        rewrite wrap_unsigned_small by lia.
        destruct (Z.eqb_spec (count - 1) 0); [eauto|].
        apply (IH _ _ depth); try assumption; lia.
      * apply (IH _ _ depth); try assumption; lia.
Qed.

(** Going backward through a stream no suffix of which opens more loops
    than it closes, the search finds no match. *)
Lemma search_backward_none before : forall q count,
  (forall n, 1 <= count + occurrences "]" (take n before)
                        - occurrences "[" (take n before)) ->
  count + Z.of_nat (length before) < 2 ^ 32 ->
  search_backward before q count = None.
Proof.
  induction before as [|c before IH]; intros q count Hpre Hbound; [reflexivity|].
  simpl length in Hbound. pose proof (Hpre 0%nat) as H0. simpl in H0.
  pose proof (Hpre 1%nat) as H1. simpl in H1. try rewrite take_0 in H1. simpl in H1.
  simpl. destruct (Ascii.eqb_spec c "]") as [->|Hc1].
  - rewrite wrap_unsigned_small by lia. apply IH; [|lia].
    intros n. specialize (Hpre (S n)). simpl in Hpre. lia.
  - destruct (Ascii.eqb_spec c "[") as [->|Hc2].
    + simpl in H1. rewrite wrap_unsigned_small by lia.
      destruct (Z.eqb_spec (count - 1) 0) as [|Hnz]; [lia|].
      apply IH; [|lia].
      intros n. specialize (Hpre (S n)). simpl in Hpre. lia.
    + apply IH; [|lia].
      intros n. specialize (Hpre (S n)). simpl in Hpre.
      destruct (Ascii.eqb_spec c "]"); [contradiction|].
      destruct (Ascii.eqb_spec c "["); [contradiction|]. lia.
Qed.

(** A search that finds nothing in [before] goes on behind it with the
    count it has reached, which is 1 at least. *)
Lemma search_backward_app_none before more : forall q count,
  1 <= count -> count + Z.of_nat (length before) < 2 ^ 32 ->
  search_backward before q count = None ->
  1 <= count + occurrences "]" before - occurrences "[" before /\
  search_backward (before ++ more) q count =
    search_backward more (q - Z.of_nat (length before))
      (count + occurrences "]" before - occurrences "[" before).
Proof.
  induction before as [|c before IH]; intros q count Hcount Hbound.
  - intros _. simpl. split; [lia|]. f_equal; lia.
  - simpl length in Hbound.
    destruct (Ascii.eqb_spec c "]") as [->|Hc1];
      [|destruct (Ascii.eqb_spec c "[") as [->|Hc2]]; simpl.
    + rewrite wrap_unsigned_small by lia. intros H.
      destruct (IH (q - 1) (count + 1)) as [H1 H2]; [lia | lia | exact H |].
      split; [lia|]. rewrite H2. f_equal; lia.
    + rewrite wrap_unsigned_small by lia.
      destruct (Z.eqb_spec (count - 1) 0); [discriminate|]. intros H.
      destruct (IH (q - 1) (count - 1)) as [H1 H2]; [lia | lia | exact H |].
      split; [lia|]. rewrite H2. f_equal; lia.
    + destruct (Ascii.eqb_spec c "]"); [contradiction|].
      destruct (Ascii.eqb_spec c "["); [contradiction|].
      intros H.
      destruct (IH (q - 1) count) as [H1 H2]; [lia | lia | exact H |].
      split; [lia|]. rewrite H2. f_equal; lia.
Qed.

Lemma occurrences_rev c s : occurrences c (rev s) = occurrences c s.
Proof.
  induction s as [|d s IH]; [reflexivity|].
  simpl. rewrite occurrences_app, IH. simpl. lia.
Qed.

(** Behind a balanced stream a backward search finds nothing. *)
Lemma search_backward_balanced s q count :
  balanced s = true -> 1 <= count ->
  count + Z.of_nat (length s) < 2 ^ 32 ->
  search_backward (rev s) q count = None.
Proof.
  intros Hbal Hcount Hbound.
  destruct (balanced_counts s 0 Hbal) as [Hpre Hall].
  apply search_backward_none; [|rewrite length_rev; exact Hbound].
  intros n.
  destruct (Nat.le_gt_cases n (length s)) as [Hn|Hn].
  - rewrite firstn_rev, !occurrences_rev.
    specialize (Hpre (length s - n)%nat).
    pose proof (occurrences_app "[" (take (length s - n) s) (drop (length s - n) s)) as H1.
    pose proof (occurrences_app "]" (take (length s - n) s) (drop (length s - n) s)) as H2.
    rewrite take_drop in H1, H2. lia.
  - rewrite take_ge by (rewrite length_rev; lia).
    rewrite !occurrences_rev. lia.
Qed.

(** ** Passes in the first and in the second stream *)

Lemma deref_app_l (a b : list ascii) p :
  p < Z.of_nat (length a) -> deref (a ++ b) p = deref a p.
Proof.
  intros Hp. unfold deref. destruct (Z.ltb_spec p 0); [reflexivity|].
  now rewrite lookup_app_l by lia.
Qed.

Lemma deref_app_r (a b : list ascii) p :
  0 <= p -> deref (a ++ b) (p + Z.of_nat (length a)) = deref b p.
Proof.
  intros Hp. unfold deref.
  destruct (Z.ltb_spec (p + Z.of_nat (length a)) 0); [lia|].
  destruct (Z.ltb_spec p 0); [lia|].
  rewrite lookup_app_r by lia. do 2 f_equal. lia.
Qed.

(** Inside a balanced first stream a pass does not see what follows. *)
Lemma step_prefix t (a b : list ascii) s :
  c_string a -> balanced a = true ->
  1 + Z.of_nat (length a) < 2 ^ 32 ->
  0 <= codeptr s -> deref a (codeptr s) <> NUL ->
  step t (a ++ b) s = step t a s.
Proof.
  intros Hstr Hbal Hbound Hp Hc.
  destruct (deref_in_string a (codeptr s) _ eq_refl Hc) as [Hrange Hget].
  unfold step.
  rewrite deref_app_l by lia.
  rewrite take_app_le by lia.
  rewrite drop_app_le by lia.
  destruct (Ascii.eqb_spec (deref a (codeptr s)) "[") as [E|E]; [|reflexivity].
  destruct (balanced_from_drop a 0 (Z.to_nat (codeptr s)) Hbal) as [depth Hdepth].
  erewrite drop_S in Hdepth by exact Hget. rewrite E in Hdepth. simpl in Hdepth.
  destruct (search_forward_balanced (drop (Z.to_nat (codeptr s + 1)) a)
              (codeptr s + 1) 1 (S depth)) as [m Hm].
  - apply Forall_drop. exact Hstr.
  - lia.
  - rewrite length_drop. lia.
  - replace (Z.to_nat (codeptr s + 1)) with (S (Z.to_nat (codeptr s))) by lia.
    exact Hdepth.
  - rewrite (search_forward_app_found _ b _ _ _ Hm), Hm. reflexivity.
Qed.

(** Behind a balanced first stream a pass is the pass on the second stream
    alone, [codeptr] apart. *)
Lemma step_suffix t (a b : list ascii) s :
  balanced a = true ->
  1 + Z.of_nat (length a) + Z.of_nat (length b) < 2 ^ 32 ->
  0 <= codeptr s ->
  step t (a ++ b) (relocate (Z.of_nat (length a)) s) =
    match step t b s with
    | Next s1 => Next (relocate (Z.of_nat (length a)) s1)
    | Stop o s1 => Stop o (relocate (Z.of_nat (length a)) s1)
    end.
Proof.
  intros Hbal Hbound Hp.
  set (k := Z.of_nat (length a)).
  assert (Hfw : search_forward (drop (Z.to_nat (codeptr s + k + 1)) (a ++ b))
                  (codeptr s + k + 1) 1
                = (fun m => m + k) <$>
                    search_forward (drop (Z.to_nat (codeptr s + 1)) b) (codeptr s + 1) 1).
  { replace (Z.to_nat (codeptr s + k + 1))
      with (length a + Z.to_nat (codeptr s + 1))%nat by lia.
    rewrite drop_app_add.
    replace (codeptr s + k + 1) with (codeptr s + 1 + k) by lia.
    apply search_forward_shift. }
  assert (Hbw : search_backward (rev (take (Z.to_nat (codeptr s + k)) (a ++ b)))
                  (codeptr s + k - 1) 1
                = (fun m => m + k) <$>
                    search_backward (rev (take (Z.to_nat (codeptr s)) b)) (codeptr s - 1) 1).
  { replace (Z.to_nat (codeptr s + k)) with (length a + Z.to_nat (codeptr s))%nat by lia.
    rewrite take_app_add, rev_app_distr.
    replace (codeptr s + k - 1) with (codeptr s - 1 + k) by lia.
    rewrite search_backward_shift. f_equal.
    set (before := rev (take (Z.to_nat (codeptr s)) b)).
    assert (Hshort : (length before <= length b)%nat)
      by (unfold before; rewrite length_rev, length_take; lia).
    destruct (search_backward before (codeptr s - 1) 1) as [m|] eqn:Hm.
    - now apply search_backward_app_found.
    - destruct (search_backward_app_none before (rev a) (codeptr s - 1) 1)
        as [Hcount ->]; [lia | lia | exact Hm |].
      pose proof (occurrences_bounds "]" before).
      pose proof (occurrences_bounds "[" before).
      apply search_backward_balanced; [exact Hbal | lia | lia]. }
  unfold step, relocate, raise, write_cell_and_advance, _getch.
  cbn [codeptr env con].
  rewrite deref_app_r by exact Hp. rewrite Hfw, Hbw.
  destruct (search_forward (drop (Z.to_nat (codeptr s + 1)) b) (codeptr s + 1) 1);
    destruct (search_backward (rev (take (Z.to_nat (codeptr s)) b)) (codeptr s - 1) 1);
    cbn [fmap option_fmap option_map];
    repeat match goal with
    | |- context [if ?c then _ else _] => destruct c
    | |- context [match ?x with Some _ => _ | None => _ end] => destruct x
    end;
    cbn [codeptr env con]; try reflexivity;
    f_equal; f_equal; lia.
Qed.

(** ** Runs *)

Lemma interpret_loop_mono t code fuel : forall s o s' k,
  interpret_loop t code fuel s = Halted o s' ->
  interpret_loop t code (fuel + k) s = Halted o s'.
Proof.
  induction fuel as [|fuel IH]; intros s o s' k; simpl.
  - destruct (_ =? _)%char eqn:E; [|discriminate].
    intros H. destruct k; simpl; now rewrite E.
  - destruct (_ =? _)%char; [auto|].
    destruct (step t code s); [apply IH | auto].
Qed.

(** A pass leaves [codeptr] inside the stream or at its end. *)
Lemma step_codeptr_range t code s s1 :
  0 <= codeptr s -> step t code s = Next s1 ->
  0 <= codeptr s1 /\
  (deref code (codeptr s) <> NUL -> codeptr s1 <= Z.of_nat (length code)).
Proof.
  intros Hp. unfold step, write_cell_and_advance, _getch, raise.
  assert (Hin : deref code (codeptr s) <> NUL -> codeptr s + 1 <= Z.of_nat (length code)).
  { intros Hc. destruct (deref_in_string code (codeptr s) _ eq_refl Hc). lia. }
  destruct (search_forward _ _ _) as [m|] eqn:Hfw.
  1: apply search_forward_range in Hfw; rewrite length_drop in Hfw.
  all: destruct (search_backward _ _ _) as [m'|] eqn:Hbw.
  all: try (apply search_backward_range in Hbw; rewrite length_rev, length_take in Hbw).
  all: repeat match goal with
       | |- context [if ?c then _ else _] => destruct c
       | |- context [match ?x with Some _ => _ | None => _ end] => destruct x
       end;
       intros H; inversion H; subst; cbn [codeptr]; split; try lia;
       intros Hc; specialize (Hin Hc); lia.
Qed.

(** Behind a balanced first stream a run is the run on the second stream
    alone. *)
Lemma interpret_loop_suffix t (a b : list ascii) fuel : forall s,
  balanced a = true ->
  1 + Z.of_nat (length a) + Z.of_nat (length b) < 2 ^ 32 ->
  0 <= codeptr s ->
  interpret_loop t (a ++ b) fuel (relocate (Z.of_nat (length a)) s) =
    relocate_run (Z.of_nat (length a)) (interpret_loop t b fuel s).
Proof.
  induction fuel as [|fuel IH]; intros s Hbal Hbound Hp; simpl;
    change (codeptr s + Z.of_nat (length a)) with (codeptr s + Z.of_nat (length a));
    rewrite deref_app_r by exact Hp;
    destruct (_ =? _)%char; try reflexivity.
  rewrite step_suffix by assumption.
  destruct (step t b s) as [s1|o s1] eqn:Hstep; [|reflexivity].
  apply IH; try assumption.
  now destruct (step_codeptr_range _ _ _ _ Hp Hstep).
Qed.

(** A run on a balanced first stream is the start of the run on both. *)
Lemma interpret_loop_prefix t (a b : list ascii) fuel : forall s o s1,
  c_string a -> balanced a = true ->
  1 + Z.of_nat (length a) < 2 ^ 32 ->
  0 <= codeptr s <= Z.of_nat (length a) ->
  interpret_loop t a fuel s = Halted o s1 ->
  match o with
  | Success =>
      codeptr s1 = Z.of_nat (length a) /\
      exists n, (n <= fuel)%nat /\
        forall f, interpret_loop t (a ++ b) (n + f) s = interpret_loop t (a ++ b) f s1
  | _ => forall f, interpret_loop t (a ++ b) (fuel + f) s = Halted o s1
  end.
Proof.
  assert (Hend : forall fuel0 s, c_string a -> 0 <= codeptr s <= Z.of_nat (length a) ->
            deref a (codeptr s) = NUL ->
            codeptr s = Z.of_nat (length a) /\
            exists n, (n <= fuel0)%nat /\
              forall f, interpret_loop t (a ++ b) (n + f) s = interpret_loop t (a ++ b) f s).
  { intros fuel0 s Hstr Hp E.
    split; [pose proof (c_string_end a _ Hstr (proj1 Hp) E); lia|].
    exists 0%nat. split; [lia | reflexivity]. }
  induction fuel as [|fuel IH]; intros s o s1 Hstr Hbal Hbound Hp H; simpl in H.
  - destruct (Ascii.eqb_spec (deref a (codeptr s)) NUL) as [E|E]; [|discriminate].
    injection H as <- <-. now apply Hend.
  - destruct (Ascii.eqb_spec (deref a (codeptr s)) NUL) as [E|E].
    + injection H as <- <-. now apply Hend.
    + destruct (deref_in_string a (codeptr s) _ eq_refl E) as [Hrange _].
      assert (Hhere : forall f,
                interpret_loop t (a ++ b) (S f) s =
                  match step t a s with
                  | Next s' => interpret_loop t (a ++ b) f s'
                  | Stop o' s' => Halted o' s'
                  end).
      { intros f. simpl. rewrite deref_app_l by lia.
        destruct (Ascii.eqb_spec (deref a (codeptr s)) NUL); [contradiction|].
        now rewrite step_prefix by (assumption || lia). }
      destruct (step t a s) as [s'|o' s'] eqn:Hstep.
      * destruct (step_codeptr_range _ _ _ _ (proj1 Hp) Hstep) as [H0 H1].
        specialize (IH s' o s1 Hstr Hbal Hbound (conj H0 (H1 E)) H).
        destruct o as [|err|].
        -- destruct IH as [Hpc (n & Hn & Hrun)]. split; [exact Hpc|].
           exists (S n). split; [lia|]. intros f.
           change (S n + f)%nat with (S (n + f)). rewrite Hhere. apply Hrun.
        -- intros f. change (S fuel + f)%nat with (S (fuel + f)). rewrite Hhere. apply IH.
        -- intros f. change (S fuel + f)%nat with (S (fuel + f)). rewrite Hhere. apply IH.
      * injection H as <- <-.
        destruct o' as [|err|].
        -- destruct (step_stop_not_success _ _ _ _ Hstep).
        -- intros f. change (S fuel + f)%nat with (S (fuel + f)). now rewrite Hhere.
        -- intros f. change (S fuel + f)%nat with (S (fuel + f)). now rewrite Hhere.
Qed.

(** Successive calls of [interpret] compose.  When the first stream is
    balanced and [interpret] returns success on it, a second call on
    another stream, which starts from the state the first one left, ends
    as one call on the two streams put together ends: same status, same
    cells, same cursor, same output, same keys read. *)
Theorem interpret_continues_after_balanced_stream
    (t : storage_t) (a b : list ascii) (fuel_a fuel_b : nat)
    (e : xl_brainfuck_env) (c : console) (s1 : istate) (o : outcome) (s2 : istate) :
  c_string a -> balanced a = true ->
  1 + Z.of_nat (length a) + Z.of_nat (length b) < 2 ^ 32 ->
  interpret t a fuel_a e c = Halted Success s1 ->
  interpret t b fuel_b (env s1) (con s1) = Halted o s2 ->
  interpret t (a ++ b) (fuel_a + fuel_b) e c
    = Halted o (relocate (Z.of_nat (length a)) s2).
Proof.
  intros Hstr Hbal Hbound Ha Hb. unfold interpret in *.
  apply (interpret_loop_prefix t a b) in Ha; try assumption; [|lia | simpl; lia].
  destruct Ha as [Hpc (n & Hn & Hrun)].
  replace (fuel_a + fuel_b)%nat with (n + (fuel_b + (fuel_a - n)))%nat by lia.
  rewrite Hrun.
  apply interpret_loop_mono.
  replace s1 with (relocate (Z.of_nat (length a))
                     {| codeptr := 0; env := env s1; con := con s1 |})
    by (destruct s1; unfold relocate; simpl in *; f_equal; lia).
  rewrite interpret_loop_suffix by (assumption || (simpl; lia)).
  cbn [env con]. rewrite Hb. reflexivity.
Qed.

Lemma interpret_continues_after_balanced_stream_witness :
  interpret t_int (list_ascii_of_string "+[>++<-]" ++ list_ascii_of_string ">+.") (20 + 5)
    (xl_brainfuck_env_ctor 2) no_keys
  = Halted Success
      (relocate (Z.of_nat (length (list_ascii_of_string "+[>++<-]")))
         {| codeptr := 3; env := mk_env [0; 3] 1 0 1;
            con := printf (format_c 3) no_keys |}).
Proof.
  apply (interpret_continues_after_balanced_stream t_int
           (list_ascii_of_string "+[>++<-]") (list_ascii_of_string ">+.") 20 5
           (xl_brainfuck_env_ctor 2) no_keys
           {| codeptr := 8; env := mk_env [0; 2] 0 0 1; con := no_keys |}).
  - repeat constructor; discriminate.
  - reflexivity.
  - reflexivity.
  - reflexivity.
  - reflexivity.
Defined.

(** An error in a balanced first stream is the error of the two streams put
    together: what follows the first stream changes nothing to it. *)
Theorem failure_in_balanced_stream_is_final
    (t : storage_t) (a b : list ascii) (fuel : nat)
    (e : xl_brainfuck_env) (c : console) (err : error) (s1 : istate) :
  c_string a -> balanced a = true ->
  1 + Z.of_nat (length a) < 2 ^ 32 ->
  interpret t a fuel e c = Halted (Failure err) s1 ->
  interpret t (a ++ b) fuel e c = Halted (Failure err) s1.
Proof.
  intros Hstr Hbal Hbound Ha. unfold interpret in *.
  apply (interpret_loop_prefix t a b) in Ha; try assumption; [|simpl; lia].
  specialize (Ha 0%nat). now rewrite Nat.add_0_r in Ha.
Qed.

Lemma failure_in_balanced_stream_is_final_witness :
  interpret t_int (list_ascii_of_string "<+" ++ list_ascii_of_string ">>]") 4
    (xl_brainfuck_env_ctor 2) no_keys
  = Halted (Failure (AccessViolation WriteIntent))
      {| codeptr := 1; env := mk_env [0; 0] (-1) 0 1;
         con := printf (diagnostic (AccessViolation WriteIntent)) no_keys |}.
Proof.
  apply (failure_in_balanced_stream_is_final t_int
           (list_ascii_of_string "<+") (list_ascii_of_string ">>]") 4).
  - repeat constructor; discriminate.
  - reflexivity.
  - reflexivity.
  - reflexivity.
Defined.

(** * Balanced streams and syntax errors *)

(** In a balanced stream the search of the ['['] case finds its [']']. *)
Lemma open_bracket_has_match (code : list ascii) (p : Z) :
  c_string code -> balanced code = true ->
  1 + Z.of_nat (length code) < 2 ^ 32 ->
  deref code p = "["%char ->
  exists m, search_forward (drop (Z.to_nat (p + 1)) code) (p + 1) 1 = Some m.
Proof.
  intros Hstr Hbal Hbound Hc.
  destruct (deref_in_string code p _ Hc) as [Hrange Hget]; [discriminate|].
  destruct (balanced_from_drop code 0 (Z.to_nat p) Hbal) as [depth Hdepth].
  erewrite drop_S in Hdepth by exact Hget. simpl in Hdepth.
  apply (search_forward_balanced _ (p + 1) 1 (S depth)).
  - apply Forall_drop. exact Hstr.
  - lia.
  - rewrite length_drop. lia.
  - replace (Z.to_nat (p + 1)) with (S (Z.to_nat p)) by lia. exact Hdepth.
Qed.

(** And the search of the [']'] case finds its ['[']. *)
Lemma close_bracket_has_match (code : list ascii) (p : Z) :
  balanced code = true ->
  1 + Z.of_nat (length code) < 2 ^ 32 ->
  deref code p = "]"%char ->
  exists m, search_backward (rev (take (Z.to_nat p) code)) (p - 1) 1 = Some m.
Proof.
  intros Hbal Hbound Hc.
  destruct (deref_in_string code p _ Hc) as [Hrange Hget]; [discriminate|].
  destruct (search_backward _ _ _) as [m|] eqn:Hnone; [now exists m|]. exfalso.
  assert (Hshort : (length (take (Z.to_nat p) code) <= length code)%nat)
    by (rewrite length_take; lia).
  destruct (search_backward_app_none (rev (take (Z.to_nat p) code)) [] (p - 1) 1)
    as [Hcount _]; [lia | rewrite length_rev; lia | exact Hnone |].
  rewrite !occurrences_rev in Hcount.
  destruct (balanced_counts code 0 Hbal) as [Hprefix _].
  specialize (Hprefix (S (Z.to_nat p))).
  erewrite take_S_r in Hprefix by exact Hget.
  rewrite !occurrences_app in Hprefix. simpl in Hprefix. lia.
Qed.

Lemma step_no_syntax_error t (code : list ascii) s o s1 :
  c_string code -> balanced code = true ->
  1 + Z.of_nat (length code) < 2 ^ 32 ->
  step t code s = Stop o s1 ->
  o = Failure (AccessViolation ReadIntent) \/ o = Failure (AccessViolation WriteIntent) \/
  o = Undefined.
Proof.
  intros Hstr Hbal Hbound. unfold step, raise, write_cell_and_advance.
  destruct (Ascii.eqb_spec (deref code (codeptr s)) "[") as [E1|_].
  - destruct (open_bracket_has_match code (codeptr s) Hstr Hbal Hbound E1) as [m ->].
    rewrite E1. cbn.
    repeat match goal with
           | |- context [if ?x then _ else _] => destruct x
           | |- context [match ?x with Some _ => _ | None => _ end] => destruct x
           end; intros [= <- _] || discriminate; auto.
  - destruct (Ascii.eqb_spec (deref code (codeptr s)) "]") as [E2|_].
    + destruct (close_bracket_has_match code (codeptr s) Hbal Hbound E2) as [m ->].
      rewrite E2. cbn. discriminate.
    + repeat match goal with
             | |- context [if ?x then _ else _] => destruct x
             | |- context [match ?x with Some _ => _ | None => _ end] => destruct x
             | |- context [let '(_, _) := ?x in _] => destruct x
             end; intros [= <- _] || discriminate; auto.
Qed.

Lemma interpret_loop_no_syntax_error t (code : list ascii) fuel : forall s o s1,
  c_string code -> balanced code = true ->
  1 + Z.of_nat (length code) < 2 ^ 32 ->
  env_ok (env s) ->
  interpret_loop t code fuel s = Halted o s1 ->
  o = Success \/ exists i, o = Failure (AccessViolation i).
Proof.
  induction fuel as [|fuel IH]; intros s o s1 Hstr Hbal Hbound Hok; simpl.
  - destruct (_ =? _)%char; [|discriminate]. intros [= <- _]. now left.
  - destruct (_ =? _)%char; [intros [= <- _]; now left|].
    pose proof (step_pass_ok t code s Hok) as Hpass.
    destruct (step t code s) as [s'|o' s'] eqn:Hstep.
    + inversion Hpass; subst. apply IH; assumption.
    + intros [= <- <-]. right.
      destruct (step_no_syntax_error t code s o' s' Hstr Hbal Hbound Hstep)
        as [-> | [-> | ->]]; eauto.
      inversion Hpass.
Qed.

(** In a balanced stream shorter than 2^32 - 1 characters both searches
    find their bracket, so a call of [interpret] that returns has printed
    no syntax error: it returns 0, or 1 after an access violation. *)
Theorem balanced_stream_has_no_syntax_error
    (t : storage_t) (code : list ascii) (fuel : nat)
    (e : xl_brainfuck_env) (c : console) (o : outcome) (s : istate) :
  c_string code -> balanced code = true ->
  1 + Z.of_nat (length code) < 2 ^ 32 ->
  env_ok e ->
  interpret t code fuel e c = Halted o s ->
  o = Success \/ exists i, o = Failure (AccessViolation i).
Proof.
  intros Hstr Hbal Hbound Hok Hrun.
  exact (interpret_loop_no_syntax_error t code fuel {| codeptr := 0; env := e; con := c |}
           o s Hstr Hbal Hbound Hok Hrun).
Qed.

Lemma balanced_stream_has_no_syntax_error_witness :
  let r := interpret t_int (lit "+[-]<+") 10 (xl_brainfuck_env_ctor 2) no_keys in
  let o := match r with Halted o _ => o | OutOfFuel _ => Undefined end in
  o = Success \/ exists i, o = Failure (AccessViolation i).
Proof.
  intros r o.
  apply (balanced_stream_has_no_syntax_error t_int (lit "+[-]<+") 10
           (xl_brainfuck_env_ctor 2) no_keys o
           (match r with Halted _ s => s | OutOfFuel s => s end)).
  - repeat constructor; discriminate.
  - reflexivity.
  - reflexivity.
  - apply ctor_ok.
  - vm_compute. reflexivity.
Defined.

(** * Characters the interpreter passes over *)

Ltac case_ltb :=
  match goal with |- context [?x <? ?y] => destruct (Z.ltb_spec x y) end.

Lemma search_forward_insert l1 l2 c : forall start n,
  interpreted c = false ->
  search_forward (l1 ++ c :: l2) start n
  = skip_over (start + Z.of_nat (length l1)) <$> search_forward (l1 ++ l2) start n.
Proof.
  intros start n Hc. revert start n.
  assert (Hnul : (c =? NUL)%char = false /\ (c =? "[")%char = false /\
                 (c =? "]")%char = false).
  { unfold interpreted in Hc. repeat (apply orb_false_elim in Hc as [Hc ?]). auto. }
  destruct Hnul as (E0 & E1 & E2).
  induction l1 as [|x l1 IH]; intros start n.
  - cbn [app search_forward length]. rewrite E0, E1, E2.
    rewrite search_forward_shift.
    destruct (search_forward l2 start n) as [m|] eqn:E; [|reflexivity].
    apply search_forward_range in E. cbn. unfold skip_over.
    case_ltb; [simpl in *; lia | reflexivity].
  - cbn [app search_forward length].
    destruct (x =? NUL)%char; [reflexivity|].
    assert (Hrec : forall n', search_forward (l1 ++ c :: l2) (start + 1) n'
              = skip_over (start + Z.of_nat (S (length l1)))
                  <$> search_forward (l1 ++ l2) (start + 1) n').
    { intros n'. rewrite IH. do 2 f_equal. lia. }
    destruct (x =? "[")%char; [apply Hrec|].
    destruct (x =? "]")%char; [|apply Hrec].
    destruct (_ =? 0); [|apply Hrec].
    cbn. unfold skip_over. case_ltb; [reflexivity | lia].
Qed.

Lemma search_backward_insert l1 l2 c : forall start n,
  interpreted c = false ->
  search_backward (l1 ++ c :: l2) (start + 1) n
  = skip_over (start + 1 - Z.of_nat (length l1)) <$> search_backward (l1 ++ l2) start n.
Proof.
  intros start n Hc. revert start n.
  assert (Hnul : (c =? "[")%char = false /\ (c =? "]")%char = false).
  { unfold interpreted in Hc. repeat (apply orb_false_elim in Hc as [Hc ?]). auto. }
  destruct Hnul as (E1 & E2).
  induction l1 as [|x l1 IH]; intros start n.
  - cbn [app search_backward length]. rewrite E1, E2.
    replace (start + 1 - 1) with start by lia.
    destruct (search_backward l2 start n) as [m|] eqn:E; [|reflexivity].
    apply search_backward_range in E. cbn. unfold skip_over.
    case_ltb; [reflexivity | simpl in *; lia].
  - cbn [app search_backward length].
    assert (Hrec : forall n', search_backward (l1 ++ c :: l2) (start + 1 - 1) n'
              = skip_over (start + 1 - Z.of_nat (S (length l1)))
                  <$> search_backward (l1 ++ l2) (start - 1) n').
    { intros n'. replace (start + 1 - 1) with (start - 1 + 1) by lia.
      rewrite IH. do 2 f_equal. lia. }
    destruct (x =? "]")%char; [apply Hrec|].
    destruct (x =? "[")%char; [|apply Hrec].
    destruct (_ =? 0); [|apply Hrec].
    cbn. unfold skip_over.
    case_ltb; [lia | reflexivity].
Qed.

Section Insertion.

Variable t : storage_t.
Variables a b : list ascii.
Variable c : ascii.
Hypothesis c_passed : interpreted c = false.

Let k : Z := Z.of_nat (length a).

Lemma deref_inserted : deref (a ++ c :: b) k = c.
Proof.
  unfold deref, k. case_ltb; [lia|].
  rewrite Nat2Z.id, list_lookup_middle by reflexivity. reflexivity.
Qed.

Lemma deref_insert p : deref (a ++ c :: b) (skip_over k p) = deref (a ++ b) p.
Proof.
  unfold deref, skip_over, k.
  destruct (Z.ltb_spec p (Z.of_nat (length a))).
  - destruct (Z.ltb_spec p 0); [reflexivity|].
    rewrite !lookup_app_l by lia. reflexivity.
  - destruct (Z.ltb_spec (p + 1) 0); [lia|]. destruct (Z.ltb_spec p 0); [lia|].
    rewrite !lookup_app_r by lia.
    replace (Z.to_nat (p + 1) - length a)%nat with (S (Z.to_nat p - length a)) by lia.
    reflexivity.
Qed.

Lemma deref_range (code : list ascii) p :
  deref code p <> NUL -> 0 <= p < Z.of_nat (length code).
Proof.
  unfold deref. destruct (Z.ltb_spec p 0); [congruence|].
  destruct (code !! Z.to_nat p) eqn:E; [|simpl; congruence].
  apply lookup_lt_Some in E. lia.
Qed.

Lemma advance_tracks p :
  skip_over k p + 1 = skip_over k (p + 1) \/ (p + 1 = k /\ skip_over k p + 1 = k).
Proof. unfold skip_over. repeat case_ltb; lia. Qed.

Lemma search_forward_insert_at p :
  0 <= p ->
  search_forward (drop (Z.to_nat (skip_over k p + 1)) (a ++ c :: b)) (skip_over k p + 1) 1
  = skip_over k <$> search_forward (drop (Z.to_nat (p + 1)) (a ++ b)) (p + 1) 1.
Proof.
  intros Hp. unfold skip_over at 1 2. subst k.
  destruct (Z.ltb_spec p (Z.of_nat (length a))).
  - rewrite !drop_app_le by lia.
    rewrite search_forward_insert by exact c_passed.
    rewrite length_drop. do 2 f_equal. lia.
  - rewrite !drop_app_ge by lia.
    replace (Z.to_nat (p + 1 + 1) - length a)%nat
      with (S (Z.to_nat (p + 1) - length a)) by lia.
    cbn [drop]. rewrite search_forward_shift.
    destruct (search_forward _ (p + 1) 1) as [m|] eqn:E; [|reflexivity].
    apply search_forward_range in E. cbn. unfold skip_over.
    case_ltb; [lia | reflexivity].
Qed.

Lemma search_backward_insert_at p :
  0 <= p < Z.of_nat (length (a ++ b)) ->
  search_backward (rev (take (Z.to_nat (skip_over k p)) (a ++ c :: b))) (skip_over k p - 1) 1
  = skip_over k <$> search_backward (rev (take (Z.to_nat p) (a ++ b))) (p - 1) 1.
Proof.
  intros Hp. rewrite length_app in Hp. unfold skip_over at 1 2. subst k.
  destruct (Z.ltb_spec p (Z.of_nat (length a))).
  - rewrite !take_app_le by lia.
    destruct (search_backward _ (p - 1) 1) as [m|] eqn:E; [|reflexivity].
    apply search_backward_range in E. cbn. unfold skip_over.
    case_ltb; [reflexivity | lia].
  - rewrite !take_app_ge by lia.
    replace (Z.to_nat (p + 1) - length a)%nat with (S (Z.to_nat p - length a)) by lia.
    cbn [take]. rewrite !rev_app_distr. cbn [rev]. rewrite <- !app_assoc. cbn [app].
    replace (p + 1 - 1) with (p - 1 + 1) by lia.
    rewrite search_backward_insert by exact c_passed.
    rewrite length_rev, length_take. do 2 f_equal. lia.
Qed.

(** A pass on the stream with the additional character is the pass on
    the stream without it. *)
Lemma step_insert s s2 :
  env s2 = env s -> con s2 = con s -> codeptr s2 = skip_over k (codeptr s) ->
  deref (a ++ b) (codeptr s) <> NUL ->
  match step t (a ++ b) s with
  | Next s1 => exists s1', step t (a ++ c :: b) s2 = Next s1' /\ tracks k s1 s1'
  | Stop o s1 =>
      exists s1', step t (a ++ c :: b) s2 = Stop o s1' /\ env s1' = env s1 /\ con s1' = con s1
  end.
Proof.
  destruct s as [p e io], s2 as [q e2 io2]. cbn [env con codeptr].
  intros -> -> -> Hrange. apply deref_range in Hrange.
  unfold step, raise, write_cell_and_advance. cbn [env con codeptr].
  rewrite deref_insert.
  rewrite search_forward_insert_at by lia.
  rewrite search_backward_insert_at by lia.
  pose proof (advance_tracks p) as Hadv.
  repeat match goal with
         | |- context [fmap _ ?x] => destruct x; cbn [fmap option_fmap option_map]
         | |- context [if ?x then _ else _] => destruct x
         | |- context [match ?x with Some _ => _ | None => _ end] => destruct x
         | |- context [let '(_, _) := ?x in _] => destruct x
         end;
    cbn [fmap option_fmap option_map];
    (eexists; split; [reflexivity|]); unfold tracks; cbn [env con codeptr]; auto using advance_tracks.
Qed.

Lemma passed_not_interpreted :
  (c =? NUL)%char = false /\ (c =? ">")%char = false /\ (c =? "<")%char = false /\
  (c =? "+")%char = false /\ (c =? "-")%char = false /\ (c =? ".")%char = false /\
  (c =? ":")%char = false /\ (c =? ",")%char = false /\ (c =? "[")%char = false /\
  (c =? "]")%char = false.
Proof.
  pose proof c_passed as H. unfold interpreted in H.
  repeat (apply orb_false_elim in H as [H ?]). auto 12.
Qed.

(** On the additional character a pass only moves [codeptr] on. *)
Lemma step_inserted s2 :
  codeptr s2 = k ->
  step t (a ++ c :: b) s2 = Next {| codeptr := k + 1; env := env s2; con := con s2 |}.
Proof.
  intros Hq. unfold step. rewrite Hq, deref_inserted.
  destruct passed_not_interpreted as (_ & -> & -> & -> & -> & -> & -> & -> & -> & ->).
  reflexivity.
Qed.

Lemma ends_as_mono code fuel j s o e' c' :
  ends_as o e' c' (interpret_loop t code fuel s) ->
  ends_as o e' c' (interpret_loop t code (fuel + j) s).
Proof.
  intros (s' & Hrun & He & Hc). exists s'.
  rewrite (interpret_loop_mono t code fuel s o s' j Hrun). auto.
Qed.

(** The run on the stream with the additional character ends as the run
    on the stream without it, after at most twice as many passes and one. *)
Lemma interpret_loop_insert fuel : forall s s2 o s',
  tracks k s s2 ->
  interpret_loop t (a ++ b) fuel s = Halted o s' ->
  ends_as o (env s') (con s') (interpret_loop t (a ++ c :: b) (2 * fuel + 1) s2).
Proof.
  induction fuel as [|fuel IH]; intros s s2 o s' Htracks Hrun.
  - assert (Hon : forall s2, env s2 = env s -> con s2 = con s ->
              codeptr s2 = skip_over k (codeptr s) ->
              ends_as o (env s') (con s') (interpret_loop t (a ++ c :: b) 0 s2)).
    { intros s3 He Hio Hq. simpl in *. rewrite Hq, deref_insert.
      destruct (_ =? NUL)%char; [|discriminate].
      injection Hrun as <- <-. exists s3. auto. }
    destruct Htracks as (He & Hio & [Hq | [Hp Hq]]).
    + apply (ends_as_mono _ 0 1), Hon; assumption.
    + change (2 * 0 + 1)%nat with 1%nat. cbn [interpret_loop].
      rewrite (step_inserted s2 Hq), Hq, deref_inserted.
      destruct passed_not_interpreted as (-> & _).
      apply Hon; cbn [env con codeptr]; try assumption.
      rewrite Hp. unfold skip_over. rewrite Z.ltb_irrefl. reflexivity.
  - assert (Hon : forall s2, env s2 = env s -> con s2 = con s ->
              codeptr s2 = skip_over k (codeptr s) ->
              ends_as o (env s') (con s')
                (interpret_loop t (a ++ c :: b) (S (S (2 * fuel))) s2)).
    { intros s3 He Hio Hq. remember (S (2 * fuel)) as m eqn:Em.
      cbn [interpret_loop] in Hrun |- *.
      rewrite Hq, deref_insert.
      destruct (deref (a ++ b) (codeptr s) =? NUL)%char eqn:E.
      { injection Hrun as <- <-. exists s3. auto. }
      apply Ascii.eqb_neq in E.
      pose proof (step_insert s s3 He Hio Hq E) as Hstep.
      destruct (step t (a ++ b) s) as [s1 | o1 s1].
      - destruct Hstep as (s1' & -> & Htr).
        replace m with (2 * fuel + 1)%nat by lia.
        apply (IH s1 s1' o s' Htr Hrun).
      - destruct Hstep as (s1' & -> & He1 & Hio1).
        injection Hrun as <- <-. exists s1'. auto. }
    destruct Htracks as (He & Hio & [Hq | [Hp Hq]]).
    + replace (2 * S fuel + 1)%nat with (S (S (2 * fuel)) + 1)%nat by lia.
      apply ends_as_mono, Hon; assumption.
    + replace (2 * S fuel + 1)%nat with (S (S (S (2 * fuel)))) by lia.
      remember (S (S (2 * fuel))) as n. cbn [interpret_loop].
      rewrite (step_inserted s2 Hq), Hq, deref_inserted.
      destruct passed_not_interpreted as (-> & _).
      apply Hon; cbn [env con codeptr]; try assumption.
      rewrite Hp. unfold skip_over. rewrite Z.ltb_irrefl. reflexivity.
Qed.

(** And the run on the stream without the character ends as the run on
    the stream with it, after no more passes. *)
Lemma interpret_loop_remove fuel : forall s s2 o s2',
  tracks k s s2 ->
  interpret_loop t (a ++ c :: b) fuel s2 = Halted o s2' ->
  ends_as o (env s2') (con s2') (interpret_loop t (a ++ b) fuel s).
Proof.
  induction fuel as [|fuel IH]; intros s s2 o s2' (He & Hio & Hq) Hrun.
  - simpl in *. destruct Hq as [Hq | [Hp Hq]].
    + rewrite Hq, deref_insert in Hrun.
      destruct (_ =? NUL)%char; [|discriminate].
      injection Hrun as <- <-. exists s. auto.
    + rewrite Hq, deref_inserted in Hrun.
      destruct passed_not_interpreted as (E & _). rewrite E in Hrun. discriminate.
  - destruct Hq as [Hq | [Hp Hq]].
    + cbn [interpret_loop] in Hrun |- *. rewrite Hq, deref_insert in Hrun.
      destruct (deref (a ++ b) (codeptr s) =? NUL)%char eqn:E.
      { injection Hrun as <- <-. exists s. auto. }
      apply Ascii.eqb_neq in E.
      pose proof (step_insert s s2 He Hio Hq E) as Hstep.
      destruct (step t (a ++ b) s) as [s1 | o1 s1].
      * destruct Hstep as (s1' & Hs & Htr). rewrite Hs in Hrun.
        apply (IH s1 s1' o s2' Htr Hrun).
      * destruct Hstep as (s1' & Hs & He1 & Hio1). rewrite Hs in Hrun.
        injection Hrun as <- <-. exists s1. auto.
    + cbn [interpret_loop] in Hrun.
      rewrite (step_inserted s2 Hq), Hq, deref_inserted in Hrun.
      destruct passed_not_interpreted as (E & _). rewrite E in Hrun.
      replace (S fuel) with (fuel + 1)%nat by lia. apply ends_as_mono.
      refine (IH s _ o s2' _ Hrun). unfold tracks. cbn [env con codeptr].
      split; [exact He|]. split; [exact Hio|]. left.
      rewrite Hp. unfold skip_over. rewrite Z.ltb_irrefl. reflexivity.
Qed.

(** A character of the [default] case, anywhere in the stream, changes
    neither whether [interpret] returns nor what it returns and leaves. *)
Lemma interpret_insert e io o e' io' :
  (exists fuel, ends_as o e' io' (interpret t (a ++ c :: b) fuel e io)) <->
  (exists fuel, ends_as o e' io' (interpret t (a ++ b) fuel e io)).
Proof.
  assert (Hstart : tracks k {| codeptr := 0; env := e; con := io |}
                     {| codeptr := 0; env := e; con := io |}).
  { unfold tracks, skip_over. cbn [env con codeptr]. split; [reflexivity|].
    split; [reflexivity|]. case_ltb; [now left | right; lia]. }
  unfold interpret. split; intros (fuel & s & Hrun & <- & <-).
  - exists fuel. exact (interpret_loop_remove fuel _ _ o s Hstart Hrun).
  - exists (2 * fuel + 1)%nat. exact (interpret_loop_insert fuel _ _ o s Hstart Hrun).
Qed.

End Insertion.

Lemma strip_cases code :
  strip code = code \/
  exists a c b, code = a ++ c :: b /\ interpreted c = false /\ strip code = strip (a ++ b).
Proof.
  induction code as [|x rest IH]; [now left|].
  simpl. destruct (interpreted x) eqn:E.
  - destruct IH as [-> | (a & c & b & -> & Hc & ->)]; [now left|].
    right. exists (x :: a), c, b. simpl. rewrite E. auto.
  - right. exists [], x, rest. auto.
Qed.

(** interpret, default case: the characters that are no commands are
    passed over.  A call on a stream returns exactly when the call on the
    stream without these characters returns, with the same status, the
    same output and keys read, and the same tape and cursor. *)
Theorem interpret_passes_over_other_characters
    (t : storage_t) (code : list ascii) (e : xl_brainfuck_env) (io : console)
    (o : outcome) (e' : xl_brainfuck_env) (io' : console) :
  (exists fuel, ends_as o e' io' (interpret t code fuel e io)) <->
  (exists fuel, ends_as o e' io' (interpret t (strip code) fuel e io)).
Proof.
  remember (length code) as n eqn:Hn. revert code Hn.
  induction n as [n IH] using lt_wf_ind. intros code Hn.
  destruct (strip_cases code) as [-> | (a & c & b & -> & Hc & ->)]; [reflexivity|].
  rewrite (interpret_insert t a b c Hc e io o e' io').
  apply (IH (length (a ++ b))); [|reflexivity].
  subst n. rewrite !length_app. simpl. lia.
Qed.

(** * The declaration of the tape *)

(** The emitted program declares the tape of the environment: read back,
    the text of a balanced stream has the cell type of the environment and,
    for a tape of fewer than 2^31 cells, its number of cells.  The count is
    printed with ["%d"]: from 2^31 cells on the program asks [calloc] for a
    negative number of cells. *)
Theorem emitted_program_declares_the_tape
    (t : storage_t) (tapesize : N) (code : list ascii) :
  c_string code -> balanced code = true ->
  exists tr p,
    translate t (xl_brainfuck_env_ctor tapesize) code = Some tr /\
    read_program (text tr) = Some p /\
    cell_type p = t /\
    (Z.of_N tapesize < 2 ^ 31 -> cells p = Z.of_N tapesize) /\
    (2 ^ 31 <= Z.of_N tapesize < 2 ^ 32 -> cells p = Z.of_N tapesize - 2 ^ 32).
Proof.
  intros Hstr Hbal.
  set (this := xl_brainfuck_env_ctor tapesize).
  destruct (translate_body_reads t this code Hstr Hbal)
    as (ts & chunk & stmts & Hbody & _ & Hchars & Hreads).
  eexists. eexists. split; [unfold translate; rewrite Hbody; reflexivity|].
  cbn [text]. split; [apply (read_program_emitted t this ts chunk stmts Hchars Hreads)|].
  cbn [cell_type cells]. split; [reflexivity|].
  unfold this. simpl.
  replace (0 + Z.of_N tapesize - 1 - 0 + 1) with (Z.of_N tapesize) by lia.
  pose proof (N2Z.is_nonneg tapesize).
  unfold wrap_signed. change (2 ^ (32 - 1)) with 2147483648.
  change (2 ^ 32) with 4294967296. change (2 ^ 31) with 2147483648.
  split; intros Hsize; Z.div_mod_to_equations; lia.
Qed.

Lemma emitted_program_declares_the_tape_witness :
  exists tr p,
    translate t_ushort (xl_brainfuck_env_ctor 30000) (list_ascii_of_string "+[-]") = Some tr /\
    read_program (text tr) = Some p /\
    cell_type p = t_ushort /\
    (Z.of_N 30000 < 2 ^ 31 -> cells p = Z.of_N 30000) /\
    (2 ^ 31 <= Z.of_N 30000 < 2 ^ 32 -> cells p = Z.of_N 30000 - 2 ^ 32).
Proof.
  apply (emitted_program_declares_the_tape t_ushort 30000 (list_ascii_of_string "+[-]")).
  - repeat constructor; discriminate.
  - reflexivity.
Defined.

(** * The console program *)

(** ** Strings in buffers *)

Lemma gotoend_loop_string l rest : forall ptr,
  c_string l -> gotoend_loop (l ++ NUL :: rest) ptr = Some (ptr + length l)%nat.
Proof.
  induction l as [|c l IH]; intros ptr Hl; simpl.
  - f_equal. lia.
  - apply Forall_cons in Hl as [Hc Hl].
    destruct (Ascii.eqb_spec c NUL); [contradiction|].
    rewrite IH by exact Hl. f_equal. lia.
Qed.

Lemma c_str_app_terminator l rest : c_str (l ++ NUL :: rest) = c_str l.
Proof.
  induction l as [|c l IH]; simpl; [reflexivity|].
  destruct (c =? NUL)%char; [reflexivity | now rewrite IH].
Qed.

Lemma c_str_split l : exists rest, l = c_str l \/ l = c_str l ++ NUL :: rest.
Proof.
  induction l as [|c l [rest IH]]; simpl; [exists []; now left|].
  destruct (Ascii.eqb_spec c NUL) as [->|Hc].
  - exists l. now right.
  - exists rest. destruct IH as [IH|IH]; [left | right]; simpl; now rewrite <- IH.
Qed.

(** A buffer whose text is followed by a zero byte holds that text as its C
    string. *)
Lemma string_at_text text rest :
  c_string text -> string_at (text ++ NUL :: rest) 0 = Some text.
Proof.
  intros Htext. unfold string_at, gotoend. rewrite drop_0.
  rewrite gotoend_loop_string by exact Htext.
  simpl. rewrite Nat.sub_0_r, take_app_length. reflexivity.
Qed.

Lemma str_eqb_eq a : forall b, str_eqb a b = true <-> a = b.
Proof.
  induction a as [|x a IH]; intros [|y b]; simpl; try (split; [discriminate | congruence]);
    try (split; [discriminate | discriminate]).
  - split; reflexivity.
  - rewrite andb_true_iff, IH, Ascii.eqb_eq. split; [intros [-> ->] | intros [= -> ->]]; auto.
Qed.

Lemma str_eqb_neq a b : a <> b -> str_eqb a b = false.
Proof.
  intros H. destruct (str_eqb a b) eqn:E; [|reflexivity].
  apply str_eqb_eq in E. contradiction.
Qed.

(** ** [fgets] *)

Lemma fgets_read_length n : forall input,
  (length (fst (fgets_read n input)) <= n)%nat.
Proof.
  induction n as [|n IH]; intros [|c input]; simpl; try lia.
  destruct (c =? "010")%char; simpl; [lia|].
  specialize (IH input). destruct (fgets_read n input). simpl in *. lia.
Qed.

Lemma fgets_read_line body rest : forall n,
  Forall (fun c => c <> "010"%char /\ c <> NUL) body ->
  (length body < n)%nat ->
  fgets_read n (body ++ lit LF ++ rest) = (body ++ lit LF, rest).
Proof.
  induction body as [|c body IH]; intros n Hbody Hn; simpl in Hn.
  - destruct n; [lia|]. reflexivity.
  - destruct n; [lia|]. apply Forall_cons in Hbody as [[Hc _] Hbody].
    simpl. destruct (Ascii.eqb_spec c "010"); [contradiction|].
    rewrite IH by (assumption || lia). reflexivity.
Qed.

(** [fgets] leaves a buffer of the same length with its last byte zero, and
    so a C string at its start. *)
Lemma fgets_line_buffer lb input :
  length lb = S LINE_BUFFER_SIZE -> lb !! LINE_BUFFER_SIZE = Some NUL ->
  exists lb' command,
    fst (fgets lb LINE_BUFFER_SIZE input) = Some lb' /\
    length lb' = S LINE_BUFFER_SIZE /\ lb' !! LINE_BUFFER_SIZE = Some NUL /\
    string_at lb' 0 = Some command /\ c_string command.
Proof.
  intros Hlen Hlast.
  assert (Hold : forall buf, buf !! LINE_BUFFER_SIZE = Some NUL ->
            exists command, string_at buf 0 = Some command /\ c_string command).
  { intros buf Hb.
    destruct (c_str_split buf) as [rest [H|H]].
    - exfalso. pose proof (c_str_string buf) as Hs. rewrite <- H in Hs.
      unfold c_string in Hs. rewrite Forall_lookup in Hs.
      now apply (Hs _ _ Hb).
    - exists (c_str buf). rewrite H at 1.
      split; [apply string_at_text, c_str_string | apply c_str_string]. }
  unfold fgets.
  pose proof (fgets_read_length (LINE_BUFFER_SIZE - 1) input) as Hgot.
  destruct (fgets_read (LINE_BUFFER_SIZE - 1) input) as [got rest]. cbn [fst] in *.
  destruct got as [|c got].
  - destruct (Hold lb Hlast) as (command & H1 & H2).
    exists lb, command. auto.
  - remember (c :: got) as l eqn:El.
    assert (Hl : (length l <= LINE_BUFFER_SIZE - 1)%nat) by exact Hgot.
    unfold LINE_BUFFER_SIZE in *.
    unfold strcpy. destruct (Nat.leb_spec (0 + length l + 1) (length lb)); [|lia].
    rewrite take_0. cbn [app fst].
    set (lb' := l ++ NUL :: drop (0 + length l + 1) lb).
    assert (Hlen' : length lb' = 1025%nat).
    { unfold lb'. rewrite length_app. simpl. rewrite length_drop. lia. }
    assert (Hlast' : lb' !! 1024%nat = Some NUL).
    { unfold lb'. rewrite lookup_app_r by lia.
      replace (1024 - length l)%nat with (S (1023 - length l)) by lia.
      simpl. rewrite lookup_drop.
      replace (length l + 1 + (1023 - length l))%nat with 1024%nat by lia.
      exact Hlast. }
    destruct (Hold lb' Hlast') as (command & H1 & H2).
    exists lb', command. auto.
Qed.

(** ** One pass of the inner loop *)

Lemma c_string_take n l : c_string l -> c_string (take n l).
Proof. apply Forall_take. Qed.

(** [strncpy] at the end of the collected code appends what fits of the
    command and leaves zeros behind it. *)
Lemma strncpy_collects text command :
  (length text < CODE_BUFFER_SIZE)%nat ->
  strncpy (text ++ replicate (S CODE_BUFFER_SIZE - length text) NUL) (length text)
    command (CODE_BUFFER_SIZE - length text)
  = Some ((text ++ take (CODE_BUFFER_SIZE - length text) command)
            ++ replicate (S CODE_BUFFER_SIZE
                            - length (text ++ take (CODE_BUFFER_SIZE - length text) command))
                 NUL).
Proof.
  intros Htext. unfold strncpy, CODE_BUFFER_SIZE in *.
  set (n := (1024 - length text)%nat).
  rewrite length_app, length_replicate.
  destruct (Nat.leb_spec (length text + n) (length text + (1025 - length text))); [|lia].
  f_equal. rewrite take_app_length, <- app_assoc. f_equal.
  rewrite drop_app_add'
    by reflexivity.
  rewrite take_app, take_replicate, drop_replicate.
  rewrite <- app_assoc, <- replicate_add. f_equal. f_equal.
  rewrite length_app, length_take. lia.
Qed.

Lemma gotoend_collected text more :
  c_string text -> c_string more ->
  (length (text ++ more) <= CODE_BUFFER_SIZE)%nat ->
  gotoend ((text ++ more) ++ replicate (S CODE_BUFFER_SIZE - length (text ++ more)) NUL)
    (length text)
  = Some (length (text ++ more)).
Proof.
  intros Htext Hmore Hlen. unfold gotoend.
  rewrite <- app_assoc, drop_app_length.
  replace (S CODE_BUFFER_SIZE - length (text ++ more))%nat
    with (S (CODE_BUFFER_SIZE - length (text ++ more))) by lia.
  cbn [replicate]. rewrite gotoend_loop_string by exact Hmore.
  now rewrite length_app.
Qed.

Lemma string_at_collected text :
  c_string text -> (length text <= CODE_BUFFER_SIZE)%nat ->
  string_at (text ++ replicate (S CODE_BUFFER_SIZE - length text) NUL) 0 = Some text.
Proof.
  intros Htext Hlen.
  replace (S CODE_BUFFER_SIZE - length text)%nat
    with (S (CODE_BUFFER_SIZE - length text)) by lia.
  cbn [replicate]. now apply string_at_text.
Qed.

(** A pass of the inner loop, for whatever [fgets] has put in the line
    buffer: it never leaves defined behaviour; the command is appended to
    the code as far as the buffer goes; the loop is left on [reset], on an
    empty line and when the buffer is full. *)
Lemma read_command_collects st codeptr text lb command rest :
  collecting st codeptr text -> (length text < CODE_BUFFER_SIZE)%nat ->
  fgets (linebuffer st) LINE_BUFFER_SIZE (stdin st) = (Some lb, rest) ->
  length lb = S LINE_BUFFER_SIZE -> lb !! LINE_BUFFER_SIZE = Some NUL ->
  string_at lb 0 = Some command -> c_string command ->
  match read_command st codeptr with
  | MoreCommands st' codeptr' =>
      command <> lit (line "reset") /\ command <> lit LF /\
      collecting st' codeptr' (text ++ command) /\
      (length (text ++ command) < CODE_BUFFER_SIZE)%nat /\
      bfe st' = bfe st /\ tty st' = printf "COMMAND " (tty st) /\ stdin st' = rest
  | CodeComplete st' =>
      stdin st' = rest /\
      ((command = lit (line "reset") /\
        reset (bfe st) = Some (bfe st') /\
        collecting st' codeptr text /\
        tty st' = printf (line "CONSOLE: Environment reset.") (printf "COMMAND " (tty st)))
       \/
       (command <> lit (line "reset") /\
        (command = lit LF \/ (CODE_BUFFER_SIZE <= length (text ++ command))%nat) /\
        collecting st' (length (take CODE_BUFFER_SIZE (text ++ command)))
          (take CODE_BUFFER_SIZE (text ++ command)) /\
        bfe st' = bfe st /\ tty st' = printf "COMMAND " (tty st)))
  | CommandFault => False
  end.
Proof.
  intros (Hcb & Htext & -> & _ & _ & _ & Hok) Hroom Hfgets Hlen Hlast Hcommand Hstr.
  unfold read_command. rewrite Hfgets, Hcommand.
  destruct (str_eqb command (lit (line "reset"))) eqn:Ereset.
  { apply str_eqb_eq in Ereset.
    destruct (reset_of_ok (bfe st) Hok) as (e' & -> & Htape' & _ & Hmin' & Hmax').
    cbn [stdin bfe tty]. split; [reflexivity|]. left.
    repeat split; try assumption; try reflexivity; cbn [codebuffer linebuffer bfe]; try lia.
    all: destruct Hok as [Hmin Hmax]; try congruence.
    rewrite Hmax', Htape', length_replicate. exact Hmax. }
  assert (Hnot : command <> lit (line "reset")).
  { intros Heq. apply str_eqb_eq in Heq. congruence. }
  destruct (Nat.leb_spec (length text) CODE_BUFFER_SIZE); [|lia].
  rewrite Hcb, strncpy_collects by exact Hroom.
  set (more := take (CODE_BUFFER_SIZE - length text) command).
  assert (Hmore : c_string more) by now apply c_string_take.
  assert (Hfits : (length (text ++ more) <= CODE_BUFFER_SIZE)%nat).
  { unfold more. rewrite length_app, length_take. lia. }
  rewrite gotoend_collected by assumption.
  assert (Htake : take CODE_BUFFER_SIZE (text ++ command) = text ++ more).
  { rewrite take_app_ge by lia. reflexivity. }
  assert (Hcoll : forall lb' e,
            length lb' = S LINE_BUFFER_SIZE -> lb' !! LINE_BUFFER_SIZE = Some NUL ->
            collecting
              {| codebuffer := (text ++ more)
                                 ++ replicate (S CODE_BUFFER_SIZE - length (text ++ more)) NUL;
                 linebuffer := lb'; bfe := bfe st; tty := e; stdin := rest |}
              (length (text ++ more)) (text ++ more)).
  { intros lb' e H1 H2. unfold collecting. cbn [codebuffer linebuffer bfe].
    split; [reflexivity|]. split; [apply Forall_app; split; assumption|].
    split; [reflexivity|]. split; [exact Hfits|].
    split; [exact H1|]. split; [exact H2 | exact Hok]. }
  destruct (str_eqb command (lit LF)) eqn:Eempty; cbn [orb].
  { apply str_eqb_eq in Eempty.
    cbn [stdin bfe tty]. split; [reflexivity|]. right.
    split; [exact Hnot|]. split; [now left|].
    rewrite Htake. split; [now apply Hcoll | split; reflexivity]. }
  assert (Hnot2 : command <> lit LF).
  { intros Heq. apply str_eqb_eq in Heq. congruence. }
  destruct (Nat.leb_spec CODE_BUFFER_SIZE (length (text ++ more))).
  { cbn [stdin bfe tty]. split; [reflexivity|]. right.
    split; [exact Hnot|]. split.
    - right. rewrite length_app in *. unfold more in *. rewrite length_take in *. lia.
    - rewrite Htake. split; [now apply Hcoll | split; reflexivity]. }
  assert (Hwhole : more = command).
  { unfold more. apply take_ge. rewrite length_app in *.
    unfold more in *. rewrite length_take in *. lia. }
  unfold memset_zero. rewrite Hlen.
  destruct (Nat.leb_spec (LINE_BUFFER_SIZE + 1) (S LINE_BUFFER_SIZE)); [|lia].
  rewrite <- Hwhole.
  split; [rewrite Hwhole; exact Hnot|]. split; [rewrite Hwhole; exact Hnot2|].
  split; [|cbn [stdin bfe tty]; auto].
  apply Hcoll.
  - rewrite length_app, length_replicate, length_drop, Hlen. unfold LINE_BUFFER_SIZE. lia.
  - rewrite lookup_app_l by (rewrite length_replicate; unfold LINE_BUFFER_SIZE; lia).
    apply lookup_replicate_2. unfold LINE_BUFFER_SIZE. lia.
Qed.

(** ** The loops never leave the buffers *)

Lemma read_commands_safe fuel : forall st codeptr text,
  collecting st codeptr text -> (length text < CODE_BUFFER_SIZE)%nat ->
  match read_commands fuel st codeptr with
  | RoundDone st' => exists codeptr' text', collecting st' codeptr' text'
  | RoundFault => False
  | RoundRunning => True
  end.
Proof.
  induction fuel as [|fuel IH]; intros st codeptr text Hcoll Hroom; [exact I|].
  cbn [read_commands].
  pose proof Hcoll as (_ & _ & _ & _ & Hlen & Hlast & _).
  destruct (fgets_line_buffer (linebuffer st) (stdin st) Hlen Hlast)
    as (lb & command & Hfgets & Hlen' & Hlast' & Hcommand & Hstr).
  destruct (fgets (linebuffer st) LINE_BUFFER_SIZE (stdin st)) as [filled rest] eqn:E.
  cbn [fst] in Hfgets. subst filled.
  pose proof (read_command_collects st codeptr text lb command rest
                Hcoll Hroom E Hlen' Hlast' Hcommand Hstr) as H.
  destruct (read_command st codeptr) as [st' codeptr' | st' |]; [| |contradiction].
  - destruct H as (_ & _ & Hcoll' & Hroom' & _). now apply (IH _ _ _ Hcoll').
  - destruct H as [_ [(_ & _ & H & _) | (_ & _ & H & _)]]; eauto.
Qed.

Lemma console_ready_collecting st : console_ready st -> collecting st 0 [].
Proof.
  intros (Hcb & Hlen & Hlast & Hok). unfold collecting. simpl.
  repeat split; try assumption; try apply Hok; try lia. constructor.
Qed.

Lemma console_round_safe fuel_read fuel_run st :
  console_ready st ->
  match console_round fuel_read fuel_run st with
  | RoundDone st' => console_ready st'
  | RoundFault => False
  | RoundRunning => True
  end.
Proof.
  intros Hready. unfold console_round.
  pose proof (read_commands_safe fuel_read st 0 [] (console_ready_collecting st Hready)) as H.
  specialize (H ltac:(unfold CODE_BUFFER_SIZE; simpl; lia)).
  destruct (read_commands fuel_read st 0) as [st1 | |]; [|contradiction | exact I].
  destruct H as (codeptr' & text' & Hcb & Htext & _ & Hfits & Hlen & Hlast & Hok).
  rewrite Hcb, string_at_collected by assumption.
  destruct (interpret t_int text' fuel_run (bfe st1) (printf "OUTPUT: " (tty st1)))
    as [o s | s] eqn:Hrun; [|exact I].
  pose proof Hrun as Hloop. unfold interpret in Hloop.
  destruct (interpret_loop_defined t_int text' fuel_run
              {| codeptr := 0; env := bfe st1; con := printf "OUTPUT: " (tty st1) |}
              o s Hok Hloop) as (Ho & Hok' & _).
  assert (Hclear : memset_zero
                     (text' ++ replicate (S CODE_BUFFER_SIZE - length text') NUL)
                     (CODE_BUFFER_SIZE + 1)
                   = Some (replicate (CODE_BUFFER_SIZE + 1) NUL)).
  { unfold memset_zero. rewrite length_app, length_replicate.
    destruct (Nat.leb_spec (CODE_BUFFER_SIZE + 1)
                (length text' + (S CODE_BUFFER_SIZE - length text'))); [|lia].
    rewrite drop_ge by (rewrite length_app, length_replicate; lia).
    now rewrite app_nil_r. }
  rewrite Hclear.
  destruct Ho as [-> | [err ->]]; repeat split; try assumption; apply Hok'.
Qed.

Lemma console_start_ready screen input : console_ready (console_start screen input).
Proof.
  unfold console_ready, console_start. cbn [codebuffer linebuffer bfe].
  split; [reflexivity|]. split; [apply length_replicate|].
  split; [apply lookup_replicate_2; unfold LINE_BUFFER_SIZE; lia | apply ctor_ok].
Qed.

Lemma console_rounds_safe rounds fuel_read fuel_run : forall st,
  console_ready st ->
  match console_rounds rounds fuel_read fuel_run st with
  | RoundDone st' => console_ready st'
  | RoundFault => False
  | RoundRunning => True
  end.
Proof.
  induction rounds as [|rounds IH]; intros st Hready; [exact Hready|].
  cbn [console_rounds].
  pose proof (console_round_safe fuel_read fuel_run st Hready) as H.
  destruct (console_round fuel_read fuel_run st) as [st' | |];
    [apply IH; exact H | exact H | exact I].
Qed.

(** Whatever comes on standard input, lines of any length, zero bytes and
    the end of file included, and whatever the keys, the console never
    reads or writes outside [codebuffer], [linebuffer] or the tape: after
    any number of rounds it is at the start of a round, with a cleared code
    buffer, or still inside one. *)
Theorem console_stays_in_its_buffers
    (rounds fuel_read fuel_run : nat) (screen : console) (input : list ascii) :
  match console_rounds rounds fuel_read fuel_run (console_start screen input) with
  | RoundDone st => console_ready st
  | RoundFault => False
  | RoundRunning => True
  end.
Proof. apply console_rounds_safe, console_start_ready. Qed.

(** ** The code a round interprets *)

Lemma entered_line_string l : entered_line l -> c_string l.
Proof.
  intros (body & -> & Hbody & _). apply Forall_app. split.
  - eapply Forall_impl; [exact Hbody|]. now intros c [_ H].
  - repeat constructor. discriminate.
Qed.

(** [fgets] takes an entered line whole. *)
Lemma fgets_entered_line lb l rest :
  entered_line l ->
  length lb = S LINE_BUFFER_SIZE -> lb !! LINE_BUFFER_SIZE = Some NUL ->
  exists lb',
    fgets lb LINE_BUFFER_SIZE (l ++ rest) = (Some lb', rest) /\
    length lb' = S LINE_BUFFER_SIZE /\ lb' !! LINE_BUFFER_SIZE = Some NUL /\
    string_at lb' 0 = Some l.
Proof.
  intros Hline Hlen Hlast.
  pose proof (entered_line_string l Hline) as Hstr.
  destruct Hline as (body & -> & Hbody & Hshort).
  destruct (fgets_line_buffer lb ((body ++ lit LF) ++ rest) Hlen Hlast)
    as (lb' & command & Hfgets & Hlen' & Hlast' & Hcommand & _).
  unfold fgets in *. rewrite <- app_assoc in *.
  rewrite length_app in Hshort. simpl in Hshort.
  rewrite fgets_read_line in * by (assumption || (unfold LINE_BUFFER_SIZE in *; lia)).
  destruct (body ++ lit LF) as [|c got] eqn:E; [destruct body; discriminate|].
  cbn [fst] in Hfgets. exists lb'. rewrite Hfgets.
  repeat split; try assumption.
  unfold strcpy in Hfgets. destruct (_ <=? _)%nat; [|discriminate].
  injection Hfgets as <-.
  change (c :: got ++ NUL :: drop (S (length got + 1)) lb)
    with ((c :: got) ++ NUL :: drop (S (length got + 1)) lb).
  now apply string_at_text.
Qed.

Lemma prompts_succ n screen :
  prompts (S n) screen = printf "COMMAND " (prompts n screen).
Proof.
  revert screen. induction n as [|n IH]; intros screen; [reflexivity|].
  change (prompts (S (S n)) screen) with (prompts (S n) (printf "COMMAND " screen)).
  rewrite IH. reflexivity.
Qed.

(** A pass that stays in the inner loop leaves the line buffer cleared. *)
Lemma read_command_clears_line st codeptr :
  length (linebuffer st) = S LINE_BUFFER_SIZE ->
  linebuffer st !! LINE_BUFFER_SIZE = Some NUL ->
  forall st' codeptr', read_command st codeptr = MoreCommands st' codeptr' ->
  linebuffer st' = replicate (S LINE_BUFFER_SIZE) NUL.
Proof.
  intros Hlen Hlast st' codeptr'.
  destruct (fgets_line_buffer (linebuffer st) (stdin st) Hlen Hlast)
    as (lb & command & Hfgets & Hlen' & _).
  unfold read_command.
  destruct (fgets _ _ _) as [filled rest]. cbn [fst] in Hfgets. subst filled.
  destruct (string_at lb 0); [|discriminate].
  destruct (str_eqb _ _); [destruct (reset _); discriminate|].
  destruct (_ <=? _)%nat; [|discriminate].
  destruct (strncpy _ _ _ _); [|discriminate].
  destruct (gotoend _ _); [|discriminate].
  destruct (_ || _); [discriminate|].
  unfold memset_zero. rewrite Hlen'.
  replace (LINE_BUFFER_SIZE + 1)%nat with (S LINE_BUFFER_SIZE) by lia.
  rewrite Nat.leb_refl, drop_ge, app_nil_r by lia.
  generalize (replicate (S LINE_BUFFER_SIZE) NUL). intros zeros Heq.
  injection Heq as <- _. reflexivity.
Qed.

(** The inner loop takes lines of code one by one as long as the code
    buffer is not full. *)
Lemma read_commands_code_lines lines : forall st codeptr text rest fuel,
  collecting st codeptr text ->
  Forall code_line lines ->
  (length (text ++ concat lines) < CODE_BUFFER_SIZE)%nat ->
  stdin st = concat lines ++ rest ->
  exists st' codeptr',
    read_commands (length lines + fuel) st codeptr = read_commands fuel st' codeptr' /\
    collecting st' codeptr' (text ++ concat lines) /\
    bfe st' = bfe st /\ tty st' = prompts (length lines) (tty st) /\ stdin st' = rest /\
    linebuffer st' = match lines with
                     | [] => linebuffer st
                     | _ :: _ => replicate (S LINE_BUFFER_SIZE) NUL
                     end.
Proof.
  induction lines as [|l lines IH]; intros st codeptr text rest fuel Hcoll Hlines Hroom Hin.
  - exists st, codeptr. simpl in *. rewrite app_nil_r. auto 6.
  - apply Forall_cons in Hlines as [(Hline & Hnot1 & Hnot2) Hlines].
    cbn [concat] in *. rewrite <- app_assoc in Hin.
    assert (Hroom1 : (length text < CODE_BUFFER_SIZE)%nat)
      by (rewrite length_app in Hroom; lia).
    pose proof Hcoll as (_ & _ & _ & _ & Hlen & Hlast & _).
    destruct (fgets_entered_line (linebuffer st) l (concat lines ++ rest) Hline Hlen Hlast)
      as (lb & Hfgets & Hlen' & Hlast' & Hcommand).
    rewrite <- Hin in Hfgets.
    pose proof (read_command_collects st codeptr text lb l _ Hcoll Hroom1 Hfgets
                  Hlen' Hlast' Hcommand (entered_line_string l Hline)) as H.
    pose proof (read_command_clears_line st codeptr Hlen Hlast) as Hzero.
    cbn [length Nat.add read_commands].
    destruct (read_command st codeptr) as [st1 codeptr1 | st1 |]; [| |contradiction].
    + destruct H as (_ & _ & Hcoll1 & _ & Hbfe & Htty & Hin1).
      destruct (IH st1 codeptr1 (text ++ l) rest fuel Hcoll1 Hlines)
        as (st' & codeptr' & Hrun & Hcoll' & Hbfe' & Htty' & Hin' & Hlb');
        [rewrite <- app_assoc; exact Hroom | exact Hin1 |].
      exists st', codeptr'. rewrite <- app_assoc in Hcoll'.
      split; [exact Hrun|]. split; [exact Hcoll'|].
      split; [congruence|]. split; [|split; [exact Hin'|]].
      * rewrite Htty', Htty. reflexivity.
      * rewrite Hlb', (Hzero st1 codeptr1 eq_refl). now destruct lines.
    + exfalso. destruct H as [_ [(Hreset & _) | (_ & [Hempty | Hfull] & _)]];
        try contradiction.
      rewrite !length_app in *. lia.
Qed.

(** The end of a round: the interpreter runs on the code buffer, the line
    feed is printed and the code buffer is cleared. *)
Lemma console_round_end fuel_read fuel_run st st1 code o s :
  console_ready st ->
  read_commands fuel_read st 0 = RoundDone st1 ->
  (exists codeptr, collecting st1 codeptr code) ->
  interpret t_int code fuel_run (bfe st1) (printf "OUTPUT: " (tty st1)) = Halted o s ->
  exists st',
    console_round fuel_read fuel_run st = RoundDone st' /\
    console_ready st' /\
    bfe st' = env s /\ tty st' = printf LF (con s) /\ stdin st' = stdin st1.
Proof.
  intros Hready Hloop (codeptr & Hcb & Htext & _ & Hfits & _) Hrun.
  pose proof (console_round_safe fuel_read fuel_run st Hready) as Hsafe.
  unfold console_round in *. rewrite Hloop in *.
  rewrite Hcb, string_at_collected in * by assumption.
  rewrite Hrun in *.
  destruct o as [|err|]; [| |contradiction];
    destruct (memset_zero _ _) as [cb|]; try contradiction;
    (eexists; split; [reflexivity|]; split; [exact Hsafe|]; cbn [bfe tty stdin]; auto).
Qed.

(** The lines of code of a round and the line that ends it. *)
Lemma read_commands_last_line st lines l rest :
  console_ready st ->
  Forall code_line lines ->
  (length (concat lines) < CODE_BUFFER_SIZE)%nat ->
  entered_line l ->
  stdin st = concat lines ++ l ++ rest ->
  exists st1 codeptr1 lb,
    read_commands (S (length lines)) st 0 =
      match read_command st1 codeptr1 with
      | MoreCommands _ _ => RoundRunning
      | CodeComplete st' => RoundDone st'
      | CommandFault => RoundFault
      end /\
    collecting st1 codeptr1 (concat lines) /\
    bfe st1 = bfe st /\ tty st1 = prompts (length lines) (tty st) /\
    fgets (linebuffer st1) LINE_BUFFER_SIZE (stdin st1) = (Some lb, rest) /\
    length lb = S LINE_BUFFER_SIZE /\ lb !! LINE_BUFFER_SIZE = Some NUL /\
    string_at lb 0 = Some l.
Proof.
  intros Hready Hlines Hroom Hline Hin.
  destruct (read_commands_code_lines lines st 0 [] (l ++ rest) 1
              (console_ready_collecting st Hready) Hlines Hroom Hin)
    as (st1 & codeptr1 & Hloop & Hcoll & Hbfe & Htty & Hin1 & _).
  cbn [app] in Hcoll.
  pose proof Hcoll as (_ & _ & _ & _ & Hlen & Hlast & _).
  destruct (fgets_entered_line (linebuffer st1) l rest Hline Hlen Hlast)
    as (lb & Hfgets & Hlen' & Hlast' & Hcommand).
  rewrite <- Hin1 in Hfgets.
  exists st1, codeptr1, lb.
  replace (S (length lines)) with (length lines + 1)%nat by lia.
  rewrite Hloop. cbn [read_commands].
  split; [destruct (read_command st1 codeptr1); reflexivity|].
  repeat (split; [assumption|]). assumption.
Qed.

(** A round in which lines of code are entered, and then an empty line or
    a line that fills the code buffer, interprets what the code buffer
    holds of these lines, newlines included, on the environment the rounds
    before have left, and leaves the environment to the next round. *)
Lemma console_round_runs st lines l rest fuel o s :
  console_ready st ->
  Forall code_line lines ->
  (length (concat lines) < CODE_BUFFER_SIZE)%nat ->
  entered_line l -> l <> lit (line "reset") ->
  l = lit LF \/ (CODE_BUFFER_SIZE <= length (concat lines ++ l))%nat ->
  stdin st = concat lines ++ l ++ rest ->
  interpret t_int (take CODE_BUFFER_SIZE (concat lines ++ l)) fuel (bfe st)
    (printf "OUTPUT: " (prompts (S (length lines)) (tty st))) = Halted o s ->
  exists st',
    console_round (S (length lines)) fuel st = RoundDone st' /\
    console_ready st' /\
    bfe st' = env s /\ tty st' = printf LF (con s) /\ stdin st' = rest.
Proof.
  intros Hready Hlines Hroom Hline Hnot Hend Hin Hrun.
  destruct (read_commands_last_line st lines l rest Hready Hlines Hroom Hline Hin)
    as (st1 & codeptr1 & lb & Hloop & Hcoll & Hbfe & Htty & Hfgets & Hlen & Hlast & Hcommand).
  pose proof (read_command_collects st1 codeptr1 (concat lines) lb l rest
                Hcoll Hroom Hfgets Hlen Hlast Hcommand
                (entered_line_string _ Hline)) as H.
  destruct (read_command st1 codeptr1) as [st2 codeptr2 | st2 |]; [| |contradiction].
  { exfalso. destruct H as (_ & Hno & _ & Hless & _). destruct Hend; [contradiction|lia]. }
  destruct H as [Hin2 [(Hreset & _) | (_ & _ & Hcoll2 & Hbfe2 & Htty2)]];
    [contradiction|].
  rewrite <- Hin2.
  apply (console_round_end _ fuel st st2 (take CODE_BUFFER_SIZE (concat lines ++ l)) o s
           Hready Hloop); [eexists; exact Hcoll2|].
  rewrite Hbfe2, Hbfe, Htty2, Htty, <- prompts_succ. exact Hrun.
Qed.

(** A round in which lines of code and then an empty line are entered
    interprets these lines, newlines included, on the environment the
    rounds before have left, and leaves the environment to the next round.
    The lines must leave room for the empty line in the code buffer. *)
Theorem console_round_interprets_the_lines
    (st : console_state) (lines : list (list ascii)) (rest : list ascii)
    (fuel : nat) (o : outcome) (s : istate) :
  console_ready st ->
  Forall code_line lines ->
  (length (concat lines) < CODE_BUFFER_SIZE)%nat ->
  stdin st = concat lines ++ lit LF ++ rest ->
  interpret t_int (concat lines ++ lit LF) fuel (bfe st)
    (printf "OUTPUT: " (prompts (S (length lines)) (tty st))) = Halted o s ->
  exists st',
    console_round (S (length lines)) fuel st = RoundDone st' /\
    console_ready st' /\
    bfe st' = env s /\ tty st' = printf LF (con s) /\ stdin st' = rest.
Proof.
  intros Hready Hlines Hroom Hin Hrun.
  apply (console_round_runs st lines (lit LF) rest fuel o s); try assumption.
  - exists []. repeat split; [constructor | unfold LINE_BUFFER_SIZE; simpl; lia].
  - discriminate.
  - now left.
  - rewrite take_ge by (rewrite length_app; simpl; lia). exact Hrun.
Qed.

(** The line that fills the code buffer ends the round without an empty
    line: the interpreter runs on the first [CODE_BUFFER_SIZE] characters
    entered, and the remainder of that line is read and never
    interpreted. *)
Theorem console_round_cuts_the_filling_line
    (st : console_state) (lines : list (list ascii)) (l rest : list ascii)
    (fuel : nat) (o : outcome) (s : istate) :
  console_ready st ->
  Forall code_line lines ->
  (length (concat lines) < CODE_BUFFER_SIZE)%nat ->
  code_line l ->
  (CODE_BUFFER_SIZE <= length (concat lines ++ l))%nat ->
  stdin st = concat lines ++ l ++ rest ->
  interpret t_int (take CODE_BUFFER_SIZE (concat lines ++ l)) fuel (bfe st)
    (printf "OUTPUT: " (prompts (S (length lines)) (tty st))) = Halted o s ->
  exists st',
    console_round (S (length lines)) fuel st = RoundDone st' /\
    bfe st' = env s /\ tty st' = printf LF (con s) /\ stdin st' = rest.
Proof.
  intros Hready Hlines Hroom (Hline & Hnot & _) Hfull Hin Hrun.
  destruct (console_round_runs st lines l rest fuel o s Hready Hlines Hroom Hline Hnot
              (or_intror Hfull) Hin Hrun) as (st' & H1 & _ & H2).
  exists st'. auto.
Qed.

(** The line [reset] ends the round as well: the environment is reset, and
    the lines of code entered before it in the round are then interpreted
    on the environment as reset. *)
Theorem console_reset_runs_the_pending_code
    (st : console_state) (lines : list (list ascii)) (rest : list ascii)
    (fuel : nat) (e : xl_brainfuck_env) (o : outcome) (s : istate) :
  console_ready st ->
  Forall code_line lines ->
  (length (concat lines) < CODE_BUFFER_SIZE)%nat ->
  stdin st = concat lines ++ lit (line "reset") ++ rest ->
  reset (bfe st) = Some e ->
  interpret t_int (concat lines) fuel e
    (printf "OUTPUT: "
       (printf (line "CONSOLE: Environment reset.")
          (prompts (S (length lines)) (tty st)))) = Halted o s ->
  exists st',
    console_round (S (length lines)) fuel st = RoundDone st' /\
    bfe st' = env s /\ tty st' = printf LF (con s) /\ stdin st' = rest.
Proof.
  intros Hready Hlines Hroom Hin Hreset Hrun.
  assert (Hline : entered_line (lit (line "reset"))).
  { exists (lit "reset"). split; [reflexivity|]. split.
    - repeat constructor; discriminate.
    - unfold LINE_BUFFER_SIZE. simpl. lia. }
  destruct (read_commands_last_line st lines _ rest Hready Hlines Hroom Hline Hin)
    as (st1 & codeptr1 & lb & Hloop & Hcoll & Hbfe & Htty & Hfgets & Hlen & Hlast & Hcommand).
  pose proof (read_command_collects st1 codeptr1 (concat lines) lb _ rest
                Hcoll Hroom Hfgets Hlen Hlast Hcommand
                (entered_line_string _ Hline)) as H.
  destruct (read_command st1 codeptr1) as [st2 codeptr2 | st2 |]; [| |contradiction].
  { exfalso. destruct H as (Hno & _). now apply Hno. }
  destruct H as [Hin2 [(_ & Hreset2 & Hcoll2 & Htty2) | (Hno & _)]];
    [|exfalso; now apply Hno].
  rewrite Hbfe, Hreset in Hreset2. injection Hreset2 as He.
  destruct (console_round_end _ fuel st st2 (concat lines) o s Hready Hloop) as
    (st' & H1 & _ & H2 & H3 & H4).
  - eexists; exact Hcoll2.
  - rewrite <- He, Htty2, Htty, <- prompts_succ. exact Hrun.
  - exists st'. rewrite <- Hin2, <- H4. auto.
Qed.

(** At the end of the input, on a cleared line buffer, a pass of the inner
    loop changes nothing but the screen. *)
Lemma read_commands_at_end fuel : forall st codeptr text,
  collecting st codeptr text -> (length text < CODE_BUFFER_SIZE)%nat ->
  linebuffer st = replicate (S LINE_BUFFER_SIZE) NUL -> stdin st = [] ->
  read_commands fuel st codeptr = RoundRunning.
Proof.
  induction fuel as [|fuel IH]; intros st codeptr text Hcoll Hroom Hlb Hin; [reflexivity|].
  pose proof Hcoll as (_ & _ & _ & _ & Hlen & Hlast & _).
  assert (Hfgets : fgets (linebuffer st) LINE_BUFFER_SIZE (stdin st)
                   = (Some (linebuffer st), [])) by (rewrite Hin; reflexivity).
  assert (Hcommand : string_at (linebuffer st) 0 = Some []) by (rewrite Hlb; reflexivity).
  pose proof (read_command_collects st codeptr text _ [] [] Hcoll Hroom Hfgets
                Hlen Hlast Hcommand (Forall_nil_2 _)) as H.
  assert (Hzero : forall st' codeptr', read_command st codeptr = MoreCommands st' codeptr' ->
            linebuffer st' = replicate (S LINE_BUFFER_SIZE) NUL).
  { unfold read_command. rewrite Hfgets, Hcommand. cbn [str_eqb].
    destruct (_ <=? _)%nat; [|discriminate].
    destruct (strncpy _ _ _ _); [|discriminate].
    destruct (gotoend _ _); [|discriminate].
    destruct (_ || _); [discriminate|].
    rewrite Hlb. intros st' codeptr' [= <- _]. reflexivity. }
  cbn [read_commands].
  destruct (read_command st codeptr) as [st' codeptr' | st' |]; [| |contradiction].
  - destruct H as (_ & _ & Hcoll' & Hroom' & _ & _ & Hin').
    apply (IH st' codeptr' (text ++ [])); auto.
    now apply (Hzero st' codeptr').
  - exfalso. rewrite app_nil_r in H.
    destruct H as [_ [(Hreset & _) | (_ & [Hempty | Hfull] & _)]];
      [discriminate | discriminate | lia].
Qed.

Lemma read_commands_running fuel : forall k st codeptr,
  read_commands (fuel + k) st codeptr = RoundRunning ->
  read_commands fuel st codeptr = RoundRunning.
Proof.
  induction fuel as [|fuel IH]; intros k st codeptr; [reflexivity|].
  cbn [Nat.add read_commands].
  destruct (read_command st codeptr); [apply IH | discriminate | discriminate].
Qed.

(** When the input ends after lines of code, without an empty line or
    [reset], the round never comes to interpret them: at the end of the
    input [fgets] leaves the cleared line buffer as it is, and the inner
    loop goes on for ever. *)
Theorem console_waits_for_ever_at_end_of_input
    (st : console_state) (lines : list (list ascii)) (fuel_read fuel_run : nat) :
  console_ready st ->
  lines <> [] ->
  Forall code_line lines ->
  (length (concat lines) < CODE_BUFFER_SIZE)%nat ->
  stdin st = concat lines ->
  console_round fuel_read fuel_run st = RoundRunning.
Proof.
  intros Hready Hsome Hlines Hroom Hin.
  unfold console_round.
  destruct (read_commands_code_lines lines st 0 [] [] fuel_read
              (console_ready_collecting st Hready) Hlines Hroom)
    as (st1 & codeptr1 & Hloop & Hcoll & _ & _ & Hin1 & Hlb1);
    [now rewrite app_nil_r|].
  cbn [app] in Hcoll.
  destruct lines as [|l lines']; [contradiction|].
  rewrite (read_commands_at_end _ st1 codeptr1 (concat (l :: lines'))) in Hloop
    by assumption.
  rewrite Nat.add_comm in Hloop. apply read_commands_running in Hloop.
  now rewrite Hloop.
Qed.

(** ** Instances of the console theorems *)

Lemma entered_text_line (body : string) :
  Forall (fun c => c <> "010"%char /\ c <> NUL) (lit body) ->
  (String.length body <? 1023)%nat = true ->
  lit (line body) <> lit (line "reset") ->
  lit body <> [] ->
  code_line (lit (line body)).
Proof.
  intros Hbody Hshort Hnot Hsome.
  assert (Hsplit : lit (line body) = lit body ++ lit LF).
  { unfold lit, line. clear. induction body as [|c body IH]; [reflexivity|].
    simpl. now rewrite IH. }
  split; [|split; [exact Hnot|]].
  - exists (lit body). split; [exact Hsplit|]. split; [exact Hbody|].
    rewrite Hsplit, length_app. unfold lit at 1. rewrite <- string_length_chars.
    apply Nat.ltb_lt in Hshort. unfold LINE_BUFFER_SIZE. simpl. lia.
  - rewrite Hsplit. destruct (lit body); [contradiction | destruct l; discriminate].
Qed.

Lemma console_round_interprets_the_lines_witness :
  let lines := [lit (line "+++"); lit (line ".")] in
  let st := console_start no_keys (concat lines ++ lit LF ++ lit "rest") in
  let r := interpret t_int (concat lines ++ lit LF) 20 (bfe st)
             (printf "OUTPUT: " (prompts (S (length lines)) (tty st))) in
  let s := match r with Halted _ s => s | OutOfFuel s => s end in
  exists st',
    console_round (S (length lines)) 20 st = RoundDone st' /\
    console_ready st' /\
    bfe st' = env s /\ tty st' = printf LF (con s) /\ stdin st' = lit "rest".
Proof.
  intros lines st r s.
  apply (console_round_interprets_the_lines st lines (lit "rest") 20
           (match r with Halted o _ => o | OutOfFuel _ => Success end) s).
  - apply console_start_ready.
  - repeat constructor;
      (apply entered_text_line;
       [repeat constructor; discriminate | reflexivity | discriminate | discriminate]).
  - apply Nat.ltb_lt. vm_compute. reflexivity.
  - reflexivity.
  - vm_compute. reflexivity.
Defined.

Lemma console_round_cuts_the_filling_line_witness :
  let lines := [replicate 600 "+"%char ++ lit LF] in
  let l := replicate 600 "-"%char ++ lit LF in
  let st := console_start no_keys (concat lines ++ l ++ lit "rest") in
  let r := interpret t_int (take CODE_BUFFER_SIZE (concat lines ++ l)) 1100 (bfe st)
             (printf "OUTPUT: " (prompts (S (length lines)) (tty st))) in
  let s := match r with Halted _ s => s | OutOfFuel s => s end in
  exists st',
    console_round (S (length lines)) 1100 st = RoundDone st' /\
    bfe st' = env s /\ tty st' = printf LF (con s) /\ stdin st' = lit "rest".
Proof.
  intros lines l st r s.
  assert (Hline : forall c, c <> "010"%char -> c <> NUL ->
            code_line (replicate 600 c ++ lit LF)).
  { intros c H1 H2. split; [|split; discriminate].
    exists (replicate 600 c). split; [reflexivity|]. split.
    - apply Forall_replicate. now split.
    - rewrite length_app, length_replicate. unfold LINE_BUFFER_SIZE. simpl. lia. }
  apply (console_round_cuts_the_filling_line st lines l (lit "rest") 1100
           (match r with Halted o _ => o | OutOfFuel _ => Success end) s).
  - apply console_start_ready.
  - repeat constructor; apply Hline; discriminate.
  - apply Nat.ltb_lt. vm_compute. reflexivity.
  - apply Hline; discriminate.
  - apply Nat.leb_le. vm_compute. reflexivity.
  - reflexivity.
  - vm_compute. reflexivity.
Defined.

Lemma console_reset_runs_the_pending_code_witness :
  let lines := [lit (line "+++.")] in
  let st := console_start no_keys (concat lines ++ lit (line "reset") ++ lit "rest") in
  let e := match reset (bfe st) with Some e => e | None => bfe st end in
  let r := interpret t_int (concat lines) 20 e
             (printf "OUTPUT: "
                (printf (line "CONSOLE: Environment reset.")
                   (prompts (S (length lines)) (tty st)))) in
  let s := match r with Halted _ s => s | OutOfFuel s => s end in
  exists st',
    console_round (S (length lines)) 20 st = RoundDone st' /\
    bfe st' = env s /\ tty st' = printf LF (con s) /\ stdin st' = lit "rest".
Proof.
  intros lines st e r s.
  apply (console_reset_runs_the_pending_code st lines (lit "rest") 20 e
           (match r with Halted o _ => o | OutOfFuel _ => Success end) s).
  - apply console_start_ready.
  - repeat constructor;
      (apply entered_text_line;
       [repeat constructor; discriminate | reflexivity | discriminate | discriminate]).
  - apply Nat.ltb_lt. vm_compute. reflexivity.
  - reflexivity.
  - vm_compute. reflexivity.
  - vm_compute. reflexivity.
Defined.

Lemma console_waits_for_ever_at_end_of_input_witness :
  console_round 5 5 (console_start no_keys (lit (line "+"))) = RoundRunning.
Proof.
  apply (console_waits_for_ever_at_end_of_input
           (console_start no_keys (lit (line "+"))) [lit (line "+")] 5 5).
  - apply console_start_ready.
  - discriminate.
  - repeat constructor;
      (apply entered_text_line;
       [repeat constructor; discriminate | reflexivity | discriminate | discriminate]).
  - apply Nat.ltb_lt. vm_compute. reflexivity.
  - reflexivity.
Defined.
